(** * KeymapViewer: the keymap and layout parsers of [internal/parser]

    A shallow embedding of [keymap.go] and [layout.go], and the properties of
    the binding-label parser and of the layout reconstructor proved on it;
    and, of [internal/api/handlers.go], the update of a custom key name and
    the listing of the stored names.

    Conventions of the embedding.
    - A Go [string] is its sequence of bytes, [list ascii].  [go "..."] writes
      a literal.
    - An index into a string is a [nat]; a Go [int] result that is [-1] for
      "not found" ([strings.Index], [findMatchingParen]) is an [option nat]
      with [None] for [-1].
    - Every function of the source that can stop with a run-time panic (an
      index or a slice expression out of range) or that recurses returns in
      the [option] monad: [None] is a panic, or the recursion budget of the
      embedding running out.  The theorems show that neither happens.
    - A Go slice value that may be [nil] is a [goslice]; a map that may be
      [nil] is an [option (gmap _ _)].
    - A [float64] is a primitive binary64 float of Rocq; an [int] that
      counts is a [Z] with the wrap-around of 64 bits written out.
    - The functions of the Go library are part of the embedding as far as
      the parser calls them.  Those of package [strings] work on bytes and
      are exact on every string, the white space of Unicode included; the
      two case conversions are those of ASCII, and statements that depend
      on the converted text are made for ASCII text.  The JSON decoder is
      not modelled: [ParseKLELayout] starts from what the decoder makes of
      its input. *)

From Stdlib Require Import ZArith NArith Ascii String List Floats Lia.
From Stdlib Require Import DecimalString DecimalPos DecimalZ.
From stdpp Require Import base option list gmap strings.
Import ListNotations.

#[local] Set Warnings "-register-all".

(* ===================================================================== *)
(** * Go values *)
(* ===================================================================== *)

Abbreviation gostring := (list ascii).

(** A string literal. *)
Definition go (s : string) : gostring := list_ascii_of_string s.

Definition byte_eqb (a b : ascii) : bool := Ascii.eqb a b.

(** [==] on strings. *)
Definition string_eqb (a b : gostring) : bool := bool_decide (a = b).

(** A slice value: [nil], or a (possibly empty) sequence of elements. *)
Inductive goslice (A : Type) : Type :=
| NilSlice
| Slice (l : list A).
Arguments NilSlice {A}.
Arguments Slice {A} l.

Definition elems {A} (s : goslice A) : list A :=
  match s with NilSlice => [] | Slice l => l end.

Definition len {A} (s : goslice A) : nat := length (elems s).

Definition is_nil {A} (s : goslice A) : bool :=
  match s with NilSlice => true | Slice _ => false end.

(** [append(s, x)]: the result is never [nil]. *)
Definition append {A} (s : goslice A) (x : A) : goslice A := Slice (elems s ++ [x]).

(** ** Slice expressions on strings; [None] is the run-time panic. *)

(** [s[a:b]] *)
Definition slice (s : gostring) (a b : nat) : option gostring :=
  if (a <=? b) && (b <=? length s) then Some (take (b - a) (drop a s)) else None.

(** [s[a:]] *)
Definition slice_from (s : gostring) (a : nat) : option gostring :=
  slice s a (length s).

(** [s[:b]] *)
Definition slice_to (s : gostring) (b : nat) : option gostring :=
  slice s 0 b.

(* ===================================================================== *)
(** * The functions of package [strings] that the parser calls *)
(* ===================================================================== *)

Definition code (c : ascii) : N := N_of_ascii c.

Definition in_range (lo hi : N) (c : ascii) : bool :=
  (lo <=? code c)%N && (code c <=? hi)%N.

Definition is_upper (c : ascii) : bool := in_range 65 90 c.
Definition is_lower (c : ascii) : bool := in_range 97 122 c.
Definition is_digit (c : ascii) : bool := in_range 48 57 c.

(** Text all of whose bytes are below 0x80. *)
Definition ascii_text (s : gostring) : Prop :=
  Forall (fun c => (code c < 128)%N) s.

Definition to_upper_byte (c : ascii) : ascii :=
  if is_lower c then ascii_of_N (code c - 32) else c.

Definition to_lower_byte (c : ascii) : ascii :=
  if is_upper c then ascii_of_N (code c + 32) else c.

(** [strings.ToUpper] and [strings.ToLower], on the letters of ASCII.  On
    ASCII text this is what Go computes; on other text Go goes on to map
    the letters outside ASCII through the Unicode tables, which are not
    part of this development. *)
Definition ToUpper (s : gostring) : gostring := map to_upper_byte s.
Definition ToLower (s : gostring) : gostring := map to_lower_byte s.

(** [strings.HasPrefix] *)
Fixpoint HasPrefix (s p : gostring) {struct p} : bool :=
  match p with
  | [] => true
  | a :: p' =>
      match s with
      | b :: s' => byte_eqb a b && HasPrefix s' p'
      | [] => false
      end
  end.

(** [strings.HasSuffix] *)
Definition HasSuffix (s p : gostring) : bool :=
  (length p <=? length s) && string_eqb (drop (length s - length p) s) p.

(** [strings.TrimPrefix] *)
Definition TrimPrefix (s p : gostring) : gostring :=
  if HasPrefix s p then drop (length p) s else s.

(** [strings.TrimSuffix] *)
Definition TrimSuffix (s p : gostring) : gostring :=
  if HasSuffix s p then take (length s - length p) s else s.

(** [strings.Index]: the position of the first occurrence, [None] for -1. *)
Fixpoint Index (s sub : gostring) : option nat :=
  if HasPrefix s sub then Some 0
  else match s with
       | [] => None
       | _ :: t => S <$> Index t sub
       end.

(** [strings.Split(s, sep)] for a separator of one byte, which is how the
    source calls it. *)
Fixpoint Split (s : gostring) (sep : ascii) : list gostring :=
  match s with
  | [] => [[]]
  | c :: t =>
      if byte_eqb c sep then [] :: Split t sep
      else match Split t sep with
           | w :: ws => (c :: w) :: ws
           | [] => [[c]]
           end
  end.

(** [strings.Join] *)
Fixpoint Join (ws : list gostring) (sep : gostring) : gostring :=
  match ws with
  | [] => []
  | [w] => w
  | w :: rest => w ++ sep ++ Join rest sep
  end.

(** [strings.ReplaceAll(s, old, new)] for [old] and [new] of one byte each,
    which is how the source calls it. *)
Definition ReplaceAll (s : gostring) (old new : ascii) : gostring :=
  map (fun c => if byte_eqb c old then new else c) s.

(** ** White space

    [strings.TrimSpace] and [strings.Fields] use [unicode.IsSpace]: the six
    ASCII characters tab, line feed, vertical tab, form feed, carriage
    return and space, and the runes U+0085, U+00A0, U+1680, U+2000..U+200A,
    U+2028, U+2029, U+202F, U+205F and U+3000.  [space_width s] is the
    number of bytes of the white-space rune whose UTF-8 encoding [s] starts
    with, and 0 when there is none.  Every such encoding starts with a byte
    that is not a UTF-8 continuation byte, so it can only sit on a rune
    boundary. *)

Definition is_ascii_space (c : ascii) : bool :=
  in_range 9 13 c || (code c =? 32)%N.

Definition space_width (s : gostring) : nat :=
  match s with
  | [] => 0
  | c :: t =>
      if is_ascii_space c then 1
      else
        match code c, map code (take 2 t) with
        | 194%N, c2 :: _ =>
            if (c2 =? 133)%N || (c2 =? 160)%N then 2 else 0
        | 225%N, [154%N; 128%N] => 3
        | 226%N, [128%N; c3] =>
            if ((128 <=? c3)%N && (c3 <=? 138)%N)
               || (c3 =? 168)%N || (c3 =? 169)%N || (c3 =? 175)%N
            then 3 else 0
        | 226%N, [129%N; 159%N] => 3
        | 227%N, [128%N; 128%N] => 3
        | _, _ => 0
        end
  end.

(** The white-space rune that [s] ends with, as a number of bytes, 0 when
    there is none ([utf8.DecodeLastRuneInString] followed by
    [unicode.IsSpace]). *)
Definition space_suffix_width (s : gostring) : nat :=
  let n := length s in
  if (1 <=? n) && (space_width (drop (n - 1) s) =? 1) then 1
  else if (2 <=? n) && (space_width (drop (n - 2) s) =? 2) then 2
  else if (3 <=? n) && (space_width (drop (n - 3) s) =? 3) then 3
  else 0.

(** Left trimming; [skip] counts the bytes of a rune still to be dropped. *)
Fixpoint TrimLeftSpace_from (skip : nat) (s : gostring) : gostring :=
  match s with
  | [] => []
  | _ :: t =>
      match skip with
      | S k => TrimLeftSpace_from k t
      | 0 =>
          match space_width s with
          | S k => TrimLeftSpace_from k t
          | 0 => s
          end
      end
  end.

Definition TrimLeftSpace (s : gostring) : gostring := TrimLeftSpace_from 0 s.

(** Right trimming: at most [n] runes are removed. *)
Fixpoint TrimRightSpace_upto (n : nat) (s : gostring) : gostring :=
  match n with
  | 0 => s
  | S n' =>
      match space_suffix_width s with
      | 0 => s
      | w => TrimRightSpace_upto n' (take (length s - w) s)
      end
  end.

Definition TrimRightSpace (s : gostring) : gostring :=
  TrimRightSpace_upto (length s) s.

(** [strings.TrimSpace] *)
Definition TrimSpace (s : gostring) : gostring :=
  TrimRightSpace (TrimLeftSpace s).

Definition flush (cur : gostring) : list gostring :=
  match cur with [] => [] | _ => [cur] end.

(** [strings.Fields]: [cur] is the field being read. *)
Fixpoint Fields_from (skip : nat) (cur : gostring) (s : gostring)
  : list gostring :=
  match s with
  | [] => flush cur
  | c :: t =>
      match skip with
      | S k => Fields_from k cur t
      | 0 =>
          match space_width s with
          | S k => flush cur ++ Fields_from k [] t
          | 0 => Fields_from 0 (cur ++ [c]) t
          end
      end
  end.

Definition Fields (s : gostring) : list gostring := Fields_from 0 [] s.

(* ===================================================================== *)
(** * The three regular expressions of [keymap.go]

    Go's [regexp] returns the leftmost match and, among the matches that
    start there, the one a backtracking matcher finds first.  In each of
    the three expressions every choice is forced, so the match is written
    out directly. *)
(* ===================================================================== *)

(** [\w]: [0-9A-Za-z_] *)
Definition is_word (c : ascii) : bool :=
  is_digit c || is_upper c || is_lower c || (code c =? 95)%N.

(** [\s]: tab, line feed, form feed, carriage return, space. *)
Definition is_re_space (c : ascii) : bool :=
  (code c =? 9)%N || (code c =? 10)%N || (code c =? 12)%N
  || (code c =? 13)%N || (code c =? 32)%N.

(** The longest prefix of [s] whose bytes satisfy [p], as a length. *)
Fixpoint run (p : ascii -> bool) (s : gostring) : nat :=
  match s with
  | c :: t => if p c then S (run p t) else 0
  | [] => 0
  end.

(** The position of the first byte of [s] equal to [c]. *)
Fixpoint index_byte (c : ascii) (s : gostring) : option nat :=
  match s with
  | [] => None
  | b :: t => if byte_eqb b c then Some 0 else S <$> index_byte c t
  end.

(** The length of the match of [&(\w+)(?:\s*\([^)]*\))?] at the start of
    [s], if there is one: the sigil, the longest run of word characters
    (at least one), and then, when white space followed by an opening
    parenthesis follows and a closing one exists further on, everything up
    to and including the first closing parenthesis. *)
Definition bindingRegex_at (s : gostring) : option nat :=
  match s with
  | c :: t =>
      if byte_eqb c "&" then
        let n := run is_word t in
        if n =? 0 then None
        else
          let after := drop n t in
          let k := run is_re_space after in
          match drop k after with
          | p :: u =>
              if byte_eqb p "(" then
                match index_byte ")" u with
                | Some j => Some (1 + n + k + 1 + j + 1)
                | None => Some (1 + n)
                end
              else Some (1 + n)
          | [] => Some (1 + n)
          end
      else None
  | [] => None
  end.

(** [bindingRegex.FindAllStringSubmatchIndex(content, -1)], keeping of each
    match the two numbers [match[0]] and [match[1]], the bounds of the whole
    match.  After a match the search goes on at its end: [skip] counts the
    bytes of the current match still to be passed, [pos] is the position of
    the head of [s] in the content. *)
Fixpoint FindAll_from (skip pos : nat) (s : gostring) : list (nat * nat) :=
  match s with
  | [] => []
  | _ :: t =>
      match skip with
      | S k => FindAll_from k (S pos) t
      | 0 =>
          match bindingRegex_at s with
          | Some n => (pos, pos + n) :: FindAll_from (n - 1) (S pos) t
          | None => FindAll_from 0 (S pos) t
          end
      end
  end.

Definition bindingRegex_FindAll (content : gostring) : list (nat * nat) :=
  FindAll_from 0 0 content.

(** [regexp.MustCompile(`&(\w+)`).FindStringSubmatch(s)]: the whole match
    and the identifier, or the empty list for [nil]. *)
Fixpoint nameRegex_FindStringSubmatch (s : gostring) : list gostring :=
  match s with
  | [] => []
  | c :: t =>
      if byte_eqb c "&" && negb (run is_word t =? 0)
      then [c :: take (run is_word t) t; take (run is_word t) t]
      else nameRegex_FindStringSubmatch t
  end.

Definition is_mod_side (c : ascii) : bool := byte_eqb c "L" || byte_eqb c "R".

Definition is_mod_kind (c : ascii) : bool :=
  byte_eqb c "S" || byte_eqb c "A" || byte_eqb c "C" || byte_eqb c "G".

Definition newline : ascii := "010".
Definition tab : ascii := "009".

(** [modRegex.FindStringSubmatch(key)] for
    [^(L[SACG]|R[SACG]|LC|LA|LG|LS)\((.+)\)$]: the whole key, the two
    letters of the modifier and the text between the parenthesis that
    follows them and the last byte of the key, which must be a closing
    parenthesis.  [.] stands for any character but a line feed, and [.+]
    for at least one. *)
Definition modRegex_FindStringSubmatch (key : gostring) : list gostring :=
  match key with
  | m1 :: m2 :: p :: rest =>
      let inner := take (length rest - 1) rest in
      if is_mod_side m1 && is_mod_kind m2 && byte_eqb p "("
         && bool_decide (last rest = Some ")"%char)
         && (1 <=? length inner)
         && forallb (fun c => negb (byte_eqb c newline)) inner
      then [key; [m1; m2]; inner]
      else []
  | _ => []
  end.

(* ===================================================================== *)
(** * The data model ([keymap.go], lines 8-18; [layout.go], lines 8-23) *)
(* ===================================================================== *)

Record Layer := {
  Layer_Name : gostring;
  Layer_Keys : goslice gostring;
  Layer_CustomNames : option (gmap gostring gostring)
}.

Record PhysicalKey := {
  Key_X : float; Key_Y : float; Key_W : float; Key_H : float;
  Key_R : float; Key_RX : float; Key_RY : float;
  Key_Index : Z
}.

Record Layout := {
  Layout_Name : gostring;
  Layout_Keys : goslice PhysicalKey
}.

Record Keymap := {
  Keymap_Name : gostring;
  Keymap_Layers : goslice Layer;
  Keymap_Layout : option Layout
}.

(** The values of type [error] that occur; [nil] is [None] in an
    [option error]. *)
Inductive error := SyntaxError | UnmarshalTypeError.

(* ===================================================================== *)
(** * [keymap.go] *)
(* ===================================================================== *)

(** The loop of [findMatchingParen] (lines 84-94): [rest] is [s[i:]].  The
    counter [depth] stays between 1 and the length of [s]. *)
Fixpoint findMatchingParen_loop (rest : gostring) (i : nat) (depth : Z)
  : option nat :=
  match rest with
  | [] => None
  | c :: t =>
      if byte_eqb c "(" then findMatchingParen_loop t (S i) (depth + 1)
      else if byte_eqb c ")" then
        let depth := (depth - 1)%Z in
        if (depth =? 0)%Z then Some i
        else findMatchingParen_loop t (S i) depth
      else findMatchingParen_loop t (S i) depth
  end.

(** [findMatchingParen] (lines 78-96) *)
Definition findMatchingParen (s : gostring) (startIdx : nat) : option nat :=
  if (length s <=? startIdx)
     || negb (bool_decide (s !! startIdx = Some "("%char))
  then None
  else findMatchingParen_loop (drop (startIdx + 1) s) (startIdx + 1) 1.

(** The loop of [formatLayerName] (lines 102-106): [n] iterations are
    left, [i] is the index of the next one; the word is read from, and
    written back to, the slice [words]. *)
Fixpoint formatLayerName_loop (n i : nat) (words : list gostring)
  : option (list gostring) :=
  match n with
  | 0 => Some words
  | S n' =>
      w ← words !! i;
      if 0 <? length w then
        first ← slice_to w 1;
        rest ← slice_from w 1;
        formatLayerName_loop n' (S i) (<[i := ToUpper first ++ ToLower rest]> words)
      else formatLayerName_loop n' (S i) words
  end.

(** [formatLayerName] (lines 99-108) *)
Definition formatLayerName (name : gostring) : option gostring :=
  let name := TrimSuffix name (go "_layer") in
  let words := Split name "_" in
  words ← formatLayerName_loop (length words) 0 words;
  Some (Join words (go " ")).

(** [formatLayerShort] (lines 345-363) *)
Definition formatLayerShort (layer : gostring) : option gostring :=
  let u := ToUpper layer in
  if string_eqb u (go "DEFAULT") || string_eqb u (go "0") then Some (go "D")
  else if string_eqb u (go "LOWER") || string_eqb u (go "1") then Some (go "L")
  else if string_eqb u (go "RAISE") || string_eqb u (go "2") then Some (go "R")
  else if string_eqb u (go "FN") || string_eqb u (go "3") then Some (go "F")
  else if string_eqb u (go "SYSTEM") || string_eqb u (go "4") then Some (go "S")
  else if 0 <? length layer then ToUpper <$> slice_to layer 1
  else Some (go "?").

(** The map literal [keyMap] of [formatKey] (lines 244-304), entry by
    entry.  Its keys are pairwise different, so looking a key up is
    finding its entry. *)
Definition keyMap : list (gostring * gostring) :=
  [ (go "SPACE", go "SPC"); (go "ENTER", go "ENT"); (go "RETURN", go "RET");
    (go "BACKSPACE", go "BSPC"); (go "BSPC", go "BSPC"); (go "TAB", go "TAB");
    (go "ESC", go "ESC"); (go "ESCAPE", go "ESC"); (go "DELETE", go "DEL");
    (go "DEL", go "DEL"); (go "INSERT", go "INS"); (go "HOME", go "HOME");
    (go "END", go "END"); (go "PAGE_UP", go "PGUP"); (go "PG_UP", go "PGUP");
    (go "PAGE_DOWN", go "PGDN"); (go "PG_DN", go "PGDN");
    (go "UP", go "↑"); (go "DOWN", go "↓"); (go "LEFT", go "←");
    (go "RIGHT", go "→");
    (go "LSHIFT", go "SHFT"); (go "RSHIFT", go "SHFT"); (go "LSHFT", go "SHFT");
    (go "LEFT_SHIFT", go "SHFT");
    (go "LCTRL", go "CTRL"); (go "RCTRL", go "CTRL");
    (go "LEFT_CONTROL", go "CTRL");
    (go "LALT", go "ALT"); (go "RALT", go "ALT");
    (go "LGUI", go "GUI"); (go "RGUI", go "GUI");
    (go "GRAVE", go "`"); (go "MINUS", go "-"); (go "EQUAL", go "=");
    (go "LBKT", go "["); (go "RBKT", go "]"); (go "LBRC", go "{");
    (go "RBRC", go "}"); (go "BSLH", go "\"); (go "SEMI", go ";");
    (go "SQT", go "'"); (go "COMMA", go ","); (go "DOT", go ".");
    (go "SLASH", go "/"); (go "FSLH", go "/");
    (go "CAPS", go "CAPS"); (go "CAPSLOCK", go "CAPS");
    (go "PSCRN", go "PSCR"); (go "SLCK", go "SLCK");
    (go "PAUSE_BREAK", go "PAUS");
    (go "LPAR", go "("); (go "RPAR", go ")");
    (go "C_VOL_UP", go "V+"); (go "C_VOL_DN", go "V-");
    (go "C_MUTE", go "MUTE"); (go "C_PLAY_PAUSE", go "▶⏸");
    (go "C_NEXT", go "⏭"); (go "C_PREV", go "⏮") ].

(** [mapped, ok := keyMap[key]] *)
Fixpoint map_lookup (m : list (gostring * gostring)) (key : gostring)
  : option gostring :=
  match m with
  | [] => None
  | (k, v) :: m' => if string_eqb k key then Some v else map_lookup m' key
  end.

(** The [switch mod] of [formatKey] (lines 311-320); [None] when no case
    applies. *)
Definition mod_prefix (mod_ : gostring) : option gostring :=
  if string_eqb mod_ (go "LS") || string_eqb mod_ (go "RS") then Some (go "S-")
  else if string_eqb mod_ (go "LC") || string_eqb mod_ (go "RC") then Some (go "C-")
  else if string_eqb mod_ (go "LA") || string_eqb mod_ (go "RA") then Some (go "A-")
  else if string_eqb mod_ (go "LG") || string_eqb mod_ (go "RG") then Some (go "G-")
  else None.

(** [formatKey] below its modifier rule (lines 323-341): number keys,
    function keys, the table, and the truncation to four bytes. *)
Definition formatKey_plain (key : gostring) : option gostring :=
  if HasPrefix key (go "N") && (length key =? 2) then slice_from key 1
  else if HasPrefix key (go "F") && (length key <=? 3) then Some key
  else
    match map_lookup keyMap key with
    | Some mapped => Some mapped
    | None => if length key <=? 4 then Some key else slice_to key 4
    end.

(** [formatKey] (lines 243-342) with a bound on the depth of its
    recursion. *)
Fixpoint formatKey_depth (depth : nat) (key : gostring) : option gostring :=
  match depth with
  | 0 => None
  | S depth' =>
      let match_ := modRegex_FindStringSubmatch key in
      if length match_ =? 3 then
        m2 ← match_ !! 2;
        inner ← formatKey_depth depth' m2;
        mod_ ← match_ !! 1;
        match mod_prefix mod_ with
        | Some tag => Some (tag ++ inner)
        | None => formatKey_plain key
        end
      else formatKey_plain key
  end.

(** Each recursive call is on a strictly shorter key, so the length of the
    key bounds the depth. *)
Definition formatKey (key : gostring) : option gostring :=
  formatKey_depth (S (length key)) key.

(** [min] (lines 365-370) *)
Definition min (a b : nat) : nat := if a <? b then a else b.

(** The rules of [convertBinding] that may decline (lines 167-190): the
    outer [None] is the fall through to the rules below, [Some r] is
    [return r]. *)
Definition convert_lt (binding : gostring) : option (option gostring) :=
  if HasPrefix binding (go "&lt ") then
    let parts := Fields binding in
    if 3 <=? length parts then
      Some (layer ← parts !! 1;
            key ← parts !! 2;
            k ← formatKey key;
            l ← formatLayerShort layer;
            Some (k ++ go "/" ++ l))
    else None
  else None.

Definition convert_mo (binding : gostring) : option (option gostring) :=
  if HasPrefix binding (go "&mo ") then
    let parts := Fields binding in
    if 2 <=? length parts then
      Some (layer ← parts !! 1;
            l ← formatLayerShort layer;
            Some (go "[" ++ l ++ go "]"))
    else None
  else None.

Definition convert_hrm (binding : gostring) : option (option gostring) :=
  if HasPrefix binding (go "&hrm ") then
    let parts := Fields binding in
    if 3 <=? length parts then Some (key ← parts !! 2; formatKey key)
    else None
  else None.

(** The body of the [&bt ] rule (lines 194-204), which always returns. *)
Definition convert_bt (binding : gostring) : option gostring :=
  let parts := Fields binding in
  if 2 <=? length parts then
    cmd ← parts !! 1;
    if HasPrefix cmd (go "BT_SEL") && (3 <=? length parts) then
      p2 ← parts !! 2;
      Some (go "BT" ++ p2)
    else if string_eqb cmd (go "BT_CLR") then Some (go "BT CLR")
    else Some (go "BT")
  else Some (go "BT").

(** The last rule (lines 233-239): the name of the binding, at most four
    bytes of it. *)
Definition convert_default (binding : gostring) : option gostring :=
  let match_ := nameRegex_FindStringSubmatch binding in
  if 2 <=? length match_ then
    m1 ← match_ !! 1;
    ToUpper <$> slice_to m1 (min 4 (length m1))
  else Some (go "?").

(** [convertBinding] (lines 148-240) *)
Definition convertBinding (binding : gostring) : option gostring :=
  let binding := TrimSpace binding in
  if string_eqb binding (go "&trans") then Some (go "▽")
  else if string_eqb binding (go "&none") then Some (go "")
  else if HasPrefix binding (go "&kp ") then
    let key := TrimPrefix binding (go "&kp ") in
    key ← Fields key !! 0;
    formatKey key
  else
    match convert_lt binding with Some r => r | None =>
    match convert_mo binding with Some r => r | None =>
    match convert_hrm binding with Some r => r | None =>
    if HasPrefix binding (go "&bt ") then convert_bt binding
    else if HasPrefix binding (go "&bootloader") then Some (go "BOOT")
    else if HasPrefix binding (go "&caps_word") then Some (go "CAPS")
    else if HasPrefix binding (go "&leader") then Some (go "LDR")
    else if HasPrefix binding (go "&bl ") then Some (go "BL")
    else if HasPrefix binding (go "&studio") then Some (go "STUDIO")
    else convert_default binding
    end end end.

(** The loop of [tokenize] over [matches] (lines 130-142); the element
    after the current one is [matches[i+1]]. *)
Fixpoint tokenize_loop (content : gostring) (matches : list (nat * nat))
    (tokens : goslice gostring) : option (goslice gostring) :=
  match matches with
  | [] => Some tokens
  | match_ :: later =>
      let start := match_.1 in
      let end_ :=
        match later with
        | next :: _ => next.1
        | [] => length content
        end in
      span ← slice content start end_;
      let binding := TrimSpace span in
      label ← convertBinding binding;
      tokenize_loop content later (append tokens label)
  end.

(** [tokenize] (lines 120-145); [var tokens []string] is [nil]. *)
Definition tokenize (content : gostring) : option (goslice gostring) :=
  let content := TrimSpace content in
  let matches := bindingRegex_FindAll content in
  tokenize_loop content matches NilSlice.

(** [parseKeysFlat] (lines 111-117) *)
Definition parseKeysFlat (content : gostring) : option (goslice gostring) :=
  let content := ReplaceAll content newline " " in
  let content := ReplaceAll content tab " " in
  tokenize content.

(** The loop of [ParseKeymap] (lines 30-72); [fuel] bounds the number of
    iterations. *)
Fixpoint ParseKeymap_loop (fuel : nat) (content : gostring) (idx : nat)
    (layers : goslice Layer) : option (goslice Layer) :=
  match fuel with
  | 0 => None
  | S fuel' =>
      let prefix := go "ZMK_LAYER" in
      tail ← slice_from content idx;
      match Index tail prefix with
      | None => Some layers
      | Some start =>
          let start := start + idx in
          tail ← slice_from content start;
          match Index tail (go "(") with
          | None => Some layers
          | Some parenStart =>
              let parenStart := parenStart + start in
              match findMatchingParen content parenStart with
              | None => ParseKeymap_loop fuel' content (parenStart + 1) layers
              | Some parenEnd =>
                  innerContent ← slice content (parenStart + 1) parenEnd;
                  match Index innerContent (go ",") with
                  | None => ParseKeymap_loop fuel' content (parenEnd + 1) layers
                  | Some commaIdx =>
                      before ← slice_to innerContent commaIdx;
                      let layerName := TrimSpace before in
                      keysContent ← slice_from innerContent (commaIdx + 1);
                      name ← formatLayerName layerName;
                      keys ← parseKeysFlat keysContent;
                      let layer :=
                        {| Layer_Name := name;
                           Layer_Keys := keys;
                           Layer_CustomNames := Some ∅ |} in
                      ParseKeymap_loop fuel' content (parenEnd + 1)
                        (append layers layer)
                  end
              end
          end
      end
  end.

(** [ParseKeymap] (lines 21-75): the pointer to the keymap and the error.
    Every iteration moves [idx] forward, so the length of the content
    bounds their number. *)
Definition ParseKeymap (content name : gostring)
  : option (option Keymap * option error) :=
  layers ← ParseKeymap_loop (S (length content)) content 0 (Slice []);
  Some (Some {| Keymap_Name := name;
                Keymap_Layers := layers;
                Keymap_Layout := None |},
        None).

(* ===================================================================== *)
(** * [layout.go] *)
(* ===================================================================== *)

(** The values that [encoding/json] stores in an [interface{}]: [nil],
    [bool], [float64], [string], [[]interface{}] and
    [map[string]interface{}]. *)
Inductive json : Type :=
| Nil
| Bool (b : bool)
| Float64 (f : float)
| String_ (s : gostring)
| Array (l : list json)
| Object (m : gmap gostring json).

(** What the decoder makes of the bytes handed to [ParseKLELayout]: either
    it rejects them with an error of its own (they are not a JSON text, or
    hold a number that no [float64] represents, or nest deeper than the
    decoder follows), or they denote one JSON value.  The decoder itself
    belongs to the Go library and is not modelled further. *)
Inductive document : Type :=
| Rejected (err : error)
| Text (v : json).

(** [err := json.Unmarshal(data, &raw)] for [var raw []interface{}]: a JSON
    array fills the slice, [null] leaves it [nil], and any other value is a
    type error. *)
Definition Unmarshal (data : document) : option error * goslice json :=
  match data with
  | Rejected err => (Some err, NilSlice)
  | Text (Array l) => (None, Slice l)
  | Text Nil => (None, NilSlice)
  | Text _ => (Some UnmarshalTypeError, NilSlice)
  end.

(** Go's [int] (64 bits): the result of an addition wraps around. *)
Definition wrap_int (z : Z) : Z := ((z + 2 ^ 63) mod 2 ^ 64 - 2 ^ 63)%Z.

(** The local variables of [ParseKLELayout] (lines 38-45), with
    [layout.Keys]. *)
Record state := {
  currentX : float; currentY : float;
  currentW : float; currentH : float;
  currentR : float; currentRX : float; currentRY : float;
  keyIndex : Z;
  layout_Keys : goslice PhysicalKey
}.

Definition initial_state : state :=
  {| currentX := 0; currentY := 0; currentW := 1; currentH := 1;
     currentR := 0; currentRX := 0; currentRY := 0;
     keyIndex := 0; layout_Keys := Slice [] |}.

(** [x, ok := v[k].(float64)] *)
Definition float64_at (v : gmap gostring json) (k : string) : option float :=
  match v !! go k with
  | Some (Float64 x) => Some x
  | _ => None
  end.

Definition set_X (st : state) (x : float) : state :=
  {| currentX := x; currentY := currentY st; currentW := currentW st;
     currentH := currentH st; currentR := currentR st;
     currentRX := currentRX st; currentRY := currentRY st;
     keyIndex := keyIndex st; layout_Keys := layout_Keys st |}.

Definition set_Y (st : state) (y : float) : state :=
  {| currentX := currentX st; currentY := y; currentW := currentW st;
     currentH := currentH st; currentR := currentR st;
     currentRX := currentRX st; currentRY := currentRY st;
     keyIndex := keyIndex st; layout_Keys := layout_Keys st |}.

Definition set_W (st : state) (w : float) : state :=
  {| currentX := currentX st; currentY := currentY st; currentW := w;
     currentH := currentH st; currentR := currentR st;
     currentRX := currentRX st; currentRY := currentRY st;
     keyIndex := keyIndex st; layout_Keys := layout_Keys st |}.

Definition set_H (st : state) (h : float) : state :=
  {| currentX := currentX st; currentY := currentY st; currentW := currentW st;
     currentH := h; currentR := currentR st;
     currentRX := currentRX st; currentRY := currentRY st;
     keyIndex := keyIndex st; layout_Keys := layout_Keys st |}.

Definition set_R (st : state) (r : float) : state :=
  {| currentX := currentX st; currentY := currentY st; currentW := currentW st;
     currentH := currentH st; currentR := r;
     currentRX := currentRX st; currentRY := currentRY st;
     keyIndex := keyIndex st; layout_Keys := layout_Keys st |}.

Definition set_RX (st : state) (rx : float) : state :=
  {| currentX := currentX st; currentY := currentY st; currentW := currentW st;
     currentH := currentH st; currentR := currentR st;
     currentRX := rx; currentRY := currentRY st;
     keyIndex := keyIndex st; layout_Keys := layout_Keys st |}.

Definition set_RY (st : state) (ry : float) : state :=
  {| currentX := currentX st; currentY := currentY st; currentW := currentW st;
     currentH := currentH st; currentR := currentR st;
     currentRX := currentRX st; currentRY := ry;
     keyIndex := keyIndex st; layout_Keys := layout_Keys st |}.

(** [if x, ok := v[k].(float64); ok { ... }] *)
Definition with_field (v : gmap gostring json) (k : string)
    (update : state -> float -> state) (st : state) : state :=
  match float64_at v k with
  | Some x => update st x
  | None => st
  end.

(** [case map[string]interface{}] (lines 60-84): the modifier object. *)
Definition modifier (v : gmap gostring json) (st : state) : state :=
  let st := with_field v "x" (fun st x => set_X st (currentX st + x)) st in
  let st := with_field v "y" (fun st y => set_Y st (currentY st + y)) st in
  let st := with_field v "w" set_W st in
  let st := with_field v "h" set_H st in
  let st := with_field v "r" set_R st in
  let st := with_field v "rx" (fun st rx => set_X (set_RX st rx) rx) st in
  let st := with_field v "ry" (fun st ry => set_Y (set_RY st ry) ry) st in
  st.

(** [case string] (lines 86-106): the key. *)
Definition place_key (st : state) : state :=
  let key :=
    {| Key_X := currentX st; Key_Y := currentY st - 1;
       Key_W := currentW st; Key_H := currentH st;
       Key_R := currentR st; Key_RX := currentRX st; Key_RY := currentRY st;
       Key_Index := keyIndex st |} in
  {| currentX := currentX st + currentW st; currentY := currentY st;
     currentW := 1; currentH := 1;
     currentR := currentR st; currentRX := currentRX st;
     currentRY := currentRY st;
     keyIndex := wrap_int (keyIndex st + 1);
     layout_Keys := append (layout_Keys st) key |}.

(** The type switch on one item of a row (line 59). *)
Definition item_step (st : state) (item : json) : state :=
  match item with
  | Object v => modifier v st
  | String_ _ => place_key st
  | _ => st
  end.

(** [for _, item := range rowArray] (lines 58-108) *)
Definition items_loop (st : state) (rowArray : list json) : state :=
  fold_left item_step rowArray st.

(** The body of [for _, row := range raw] (lines 47-109). *)
Definition row_step (st : state) (row : json) : state :=
  match row with
  | Array rowArray =>
      let st := set_X st (currentRX st) in
      let st := set_Y st (currentY st + 1) in
      items_loop st rowArray
  | _ => st
  end.

(** [for _, row := range raw]; there is nothing to range over in a [nil]
    slice. *)
Definition rows_loop (st : state) (raw : goslice json) : state :=
  fold_left row_step (elems raw) st.

(** [ParseKLELayout] (lines 26-112): the pointer to the layout and the
    error. *)
Definition ParseKLELayout (data : document) (name : gostring)
  : option Layout * option error :=
  match Unmarshal data with
  | (Some err, _) => (None, Some err)
  | (None, raw) =>
      let st := rows_loop initial_state raw in
      (Some {| Layout_Name := name; Layout_Keys := layout_Keys st |}, None)
  end.

(* ===================================================================== *)
(** * Vocabulary of the statements *)
(* ===================================================================== *)

(** ** Layer names *)

(** Title case of one word: first byte upper, the others lower. *)
Definition title_case (w : gostring) : gostring :=
  ToUpper (take 1 w) ++ ToLower (drop 1 w).

Definition nonempty (w : gostring) : bool := 0 <? length w.

(** The layer-name transformation as the specification words it: strip the
    suffix, split, title-case each word, skip the empty words, join with
    single spaces. *)
Definition formatLayerName_spec (name : gostring) : gostring :=
  Join (map title_case
          (filter (fun w => nonempty w = true)
             (Split (TrimSuffix name (go "_layer")) "_")))
       (go " ").

(** The number of bytes of [s] equal to [c]. *)
Definition count_byte (c : ascii) (s : gostring) : nat :=
  length (filter (fun b => b = c) s).

(** One pass over a name: an underscore becomes a space, the first byte of
    a word goes to upper case and the others to lower case.  [start] tells
    whether the next byte is the first of a word. *)
Fixpoint title_scan (start : bool) (s : gostring) : gostring :=
  match s with
  | [] => []
  | c :: t =>
      if byte_eqb c "_" then " "%char :: title_scan true t
      else (if start then to_upper_byte c else to_lower_byte c)
             :: title_scan false t
  end.

(** ** Layer references *)

(** The well-known layer references of the specification, in upper case,
    each with its letter. *)
Definition well_known : list (gostring * gostring) :=
  [ (go "DEFAULT", go "D"); (go "0", go "D");
    (go "LOWER", go "L"); (go "1", go "L");
    (go "RAISE", go "R"); (go "2", go "R");
    (go "FN", go "F"); (go "3", go "F");
    (go "SYSTEM", go "S"); (go "4", go "S") ].

(** ** Modifier functions of the key-code language *)

Inductive side := Left | Right.
Inductive kind := Shift | Control | Alt | Gui.

Definition side_letter (sd : side) : ascii :=
  match sd with Left => "L" | Right => "R" end.

Definition kind_letter (kd : kind) : ascii :=
  match kd with Shift => "S" | Control => "C" | Alt => "A" | Gui => "G" end.

(** The prefix tag of a modifier: it depends on the kind only. *)
Definition tag (m : side * kind) : gostring :=
  [kind_letter m.2; "-"%char].

(** [MOD(inner)] *)
Definition wrap (m : side * kind) (inner : gostring) : gostring :=
  [side_letter m.1; kind_letter m.2] ++ go "(" ++ inner ++ go ")".

(** [mods] applied to [inner], the first of [mods] outermost. *)
Definition wrap_all (mods : list (side * kind)) (inner : gostring) : gostring :=
  foldr wrap inner mods.

Definition tags (mods : list (side * kind)) : gostring :=
  concat (map tag mods).

(** ** Binding text *)

(** The text ends with a white-space rune. *)
Definition ends_in_space (s : gostring) : Prop :=
  ∃ pre r, s = pre ++ r ∧ r ≠ [] ∧ space_width r = length r.

(** Text in which no binding starts: no sigil is followed by a word
    character. *)
Fixpoint no_binding (s : gostring) : bool :=
  match s with
  | [] => true
  | c :: t =>
      negb (byte_eqb c "&" && match t with d :: _ => is_word d | [] => false end)
      && no_binding t
  end.

(** The matches start at increasing positions from [lo] on, below [hi]. *)
Fixpoint ascending (lo : nat) (ms : list (nat * nat)) (hi : nat) : Prop :=
  match ms with
  | [] => True
  | m :: later => lo ≤ m.1 ∧ m.1 < hi ∧ ascending (S m.1) later hi
  end.

(** ** Keymap text *)

(** Text without parentheses and without the first letter of the macro
    name: no macro invocation starts, continues or ends in it. *)
Definition plain (s : gostring) : bool :=
  forallb (fun c => negb (byte_eqb c "Z" || byte_eqb c "(" || byte_eqb c ")")) s.

Definition no_comma (s : gostring) : bool :=
  forallb (fun c => negb (byte_eqb c ",")) s.

Definition no_paren (s : gostring) : bool :=
  forallb (fun c => negb (byte_eqb c "(" || byte_eqb c ")")) s.

(** The layers are a slice that is not [nil], and each has a map of custom
    names that is not [nil] and is empty. *)
Definition layers_ok (layers : goslice Layer) : Prop :=
  is_nil layers = false
  ∧ Forall (λ l, Layer_CustomNames l = Some ∅) (elems layers).

(** ** Layout descriptions *)

Definition is_key (item : json) : bool :=
  match item with String_ _ => true | _ => false end.


Definition is_number (v : json) : bool :=
  match v with Float64 _ => true | _ => false end.

(** The number of key placeholders in the rows of a description. *)
Definition placeholders (raw : list json) : nat :=
  length (concat (map (fun row =>
                         match row with
                         | Array items => filter (fun i => is_key i = true) items
                         | _ => []
                         end) raw)).

(** The invariant of the scan: the counter is the number of keys placed so
    far, and each key carries its position. *)
Definition indexed (st : state) : Prop :=
  keyIndex st = wrap_int (Z.of_nat (len (layout_Keys st)))
  ∧ ∀ (i : nat) k, elems (layout_Keys st) !! i = Some k →
                   Key_Index k = wrap_int (Z.of_nat i).

(* ===================================================================== *)
(** * More vocabulary: parentheses, invocations, binding spans *)
(* ===================================================================== *)

(** The net number of parentheses that [s] opens: each opening one counts
    1, each closing one -1. *)
Fixpoint depth (s : gostring) : Z :=
  match s with
  | [] => 0
  | c :: t =>
      (if byte_eqb c "(" then 1 else if byte_eqb c ")" then -1 else 0)
      + depth t
  end.

(** No prefix of [s] closes more parentheses than it opens. *)
Definition never_closes (s : gostring) : Prop :=
  ∀ k, (0 ≤ depth (take k s))%Z.

(** Every parenthesis of [s] has its partner in [s]. *)
Definition balanced (s : gostring) : Prop :=
  depth s = 0%Z ∧ never_closes s.

(** A macro invocation as it stands in a keymap text, with the text before
    it: a layer invocation [ZMK_LAYER(name,args)], or one whose parentheses
    hold no comma. *)
Inductive invocation : Type :=
| LayerInvocation (before name args : gostring)
| NoComma (before inner : gostring).

Definition invocation_text (v : invocation) : gostring :=
  match v with
  | LayerInvocation before name args =>
      before ++ go "ZMK_LAYER(" ++ name ++ go "," ++ args ++ go ")"
  | NoComma before inner =>
      before ++ go "ZMK_LAYER(" ++ inner ++ go ")"
  end.

(** The text before the invocation has no letter [Z] (so that the macro
    name does not occur in it); the layer name has no parenthesis and no
    comma; the parentheses of the arguments are balanced. *)
Definition well_formed (v : invocation) : Prop :=
  match v with
  | LayerInvocation before name args =>
      ("Z"%char ∉ before) ∧ no_paren name = true ∧ no_comma name = true
      ∧ balanced args
  | NoComma before inner =>
      ("Z"%char ∉ before) ∧ no_comma inner = true ∧ balanced inner
  end.

(** A keymap text: invocations, and the text behind the last one. *)
Definition keymap_text (vs : list invocation) (rest : gostring) : gostring :=
  concat (map invocation_text vs) ++ rest.

(** The layers that the invocations stand for, one for each layer
    invocation, in the order of the text. *)
Fixpoint expected_layers (vs : list invocation) : option (list Layer) :=
  match vs with
  | [] => Some []
  | LayerInvocation _ name args :: later =>
      layer_name ← formatLayerName (TrimSpace name);
      keys ← parseKeysFlat args;
      layers ← expected_layers later;
      Some ({| Layer_Name := layer_name; Layer_Keys := keys;
               Layer_CustomNames := Some ∅ |} :: layers)
  | NoComma _ _ :: later => expected_layers later
  end.

(** [append] of several elements, one after the other. *)
Definition extend {A} (s : goslice A) (l : list A) : goslice A :=
  fold_left append l s.

(** Every opening parenthesis of [s] is followed, somewhere in [s], by a
    closing one. *)
Fixpoint closes_parens (s : gostring) : bool :=
  match s with
  | [] => true
  | c :: t =>
      (if byte_eqb c "(" then bool_decide (")"%char ∈ t) else true)
      && closes_parens t
  end.

(** The text of one binding, from its sigil up to the next one: a sigil, a
    word character, and then text without sigil that leaves no parenthesis
    open. *)
Definition binding_span (b : gostring) : bool :=
  match b with
  | c :: d :: t =>
      byte_eqb c "&" && is_word d
      && forallb (fun x => negb (byte_eqb x "&")) (d :: t)
      && closes_parens b
  | _ => false
  end.

(** ** Layout descriptions: what the scan reads *)

(** The fields of a modifier object that [ParseKLELayout] looks up. *)
Definition modifier_fields : list gostring :=
  [go "x"; go "y"; go "w"; go "h"; go "r"; go "rx"; go "ry"].

(** An item of a row as far as the scan reads it: of a modifier object the
    seven fields, where they hold numbers; of a key placeholder the fact
    that it is one, without its legend; of any other item nothing. *)
Definition read_item (item : json) : option json :=
  match item with
  | Object v =>
      Some (Object (filter (λ kv, kv.1 ∈ modifier_fields
                                  ∧ is_number kv.2 = true) v))
  | String_ _ => Some (String_ [])
  | _ => None
  end.

Definition read_row (row : json) : option json :=
  match row with
  | Array items => Some (Array (omap read_item items))
  | _ => None
  end.

Definition read_description (raw : list json) : list json :=
  omap read_row raw.

(** The item leaves the rotation alone: it is no modifier object with a
    number under [r], [rx] or [ry]. *)
Definition keeps_rotation (item : json) : bool :=
  match item with
  | Object v =>
      match float64_at v "r", float64_at v "rx", float64_at v "ry" with
      | None, None, None => true
      | _, _, _ => false
      end
  | _ => true
  end.

Definition row_keeps_rotation (row : json) : bool :=
  match row with
  | Array items => forallb keeps_rotation items
  | _ => true
  end.

(** The key carries the rotation of the state. *)
Definition rotation_of (st : state) (k : PhysicalKey) : Prop :=
  Key_R k = currentR st ∧ Key_RX k = currentRX st ∧ Key_RY k = currentRY st.

(** The two states have the same rotation. *)
Definition same_rotation (st st' : state) : Prop :=
  currentR st' = currentR st ∧ currentRX st' = currentRX st
  ∧ currentRY st' = currentRY st.

(** One unit further: what the scan adds to X after a key of width 1, and
    to Y at the start of a row. *)
Definition next (x : float) : float := (x + 1)%float.

(** The key of column [col] in row [row] of a grid of unit keys. *)
Definition unit_key (row col : nat) (index : Z) : PhysicalKey :=
  {| Key_X := Nat.iter col next 0%float;
     Key_Y := Nat.iter (S row) next 0%float - 1;
     Key_W := 1; Key_H := 1; Key_R := 0; Key_RX := 0; Key_RY := 0;
     Key_Index := index |}.

(** The position, size and rotation of a key. *)
Definition geometry (k : PhysicalKey)
  : float * float * float * float * float * float * float :=
  (Key_X k, Key_Y k, Key_W k, Key_H k, Key_R k, Key_RX k, Key_RY k).

(** A description without modifiers: each row is a list of legends. *)
Definition legends_only (rows : list (list gostring)) : list json :=
  map (λ row, Array (map String_ row)) rows.

(* ===================================================================== *)
(** * [handlers.go]

    The handlers read requests and files, decode and encode JSON and write
    files and responses, all through the Go library.  What they compute in
    between is embedded here: the update of a custom key name in
    [HandleKeymapByName] (lines 199-216), on the keymap that
    [json.Unmarshal] has decoded from the stored file and that
    [json.MarshalIndent] then encodes for the file and for the response;
    and the loop of [HandleKeymaps] and [HandleLayouts] over the entries of
    a directory (lines 88-94 and 303-309). *)
(* ===================================================================== *)

(** [strconv.Itoa]: the decimal digits, after a minus sign for a negative
    number. *)
Definition Itoa (i : Z) : gostring :=
  go (NilZero.string_of_int (Z.to_int i)).

(** The body of a PATCH request, decoded (lines 175-179). *)
Record update := {
  update_LayerIndex : Z;
  update_KeyIndex : Z;
  update_CustomName : gostring
}.

Definition StatusBadRequest : Z := 400.

(** How the update ends: with [http.Error(w, message, code)] and [return],
    or with the keymap that goes on to be encoded and saved. *)
Inductive outcome : Type :=
| HttpError (message : gostring) (code : Z)
| Updated (keymap : Keymap).

Definition with_CustomNames (layer : Layer)
    (customNames : option (gmap gostring gostring)) : Layer :=
  {| Layer_Name := Layer_Name layer; Layer_Keys := Layer_Keys layer;
     Layer_CustomNames := customNames |}.

(** Lines 199-216 of [HandleKeymapByName]; [None] is the run-time panic of
    an index out of range. *)
Definition update_custom_name (keymap : Keymap) (u : update)
  : option outcome :=
  let layers := Keymap_Layers keymap in
  if (update_LayerIndex u <? 0)%Z
     || (Z.of_nat (len layers) <=? update_LayerIndex u)%Z
  then Some (HttpError (go "Invalid layer index") StatusBadRequest)
  else
    let i := Z.to_nat (update_LayerIndex u) in
    layer ← elems layers !! i;
    let customNames :=
      match Layer_CustomNames layer with
      | None => ∅
      | Some m => m
      end in
    let keyIdx := Itoa (update_KeyIndex u) in
    let customNames :=
      if string_eqb (update_CustomName u) []
      then delete keyIdx customNames
      else <[keyIdx := update_CustomName u]> customNames in
    Some (Updated
            {| Keymap_Name := Keymap_Name keymap;
               Keymap_Layers :=
                 Slice (<[i := with_CustomNames layer (Some customNames)]>
                          (elems layers));
               Keymap_Layout := Keymap_Layout keymap |}).

(** An entry of a directory, as far as the handlers look at it:
    [entry.Name()] and [entry.IsDir()]. *)
Record DirEntry := {
  entry_Name : gostring;
  entry_IsDir : bool
}.

(** The body of the loop over the entries (lines 90-93). *)
Definition names_step (names : goslice gostring) (entry : DirEntry)
  : goslice gostring :=
  if negb (entry_IsDir entry) && HasSuffix (entry_Name entry) (go ".json")
  then append names (TrimSuffix (entry_Name entry) (go ".json"))
  else names.

(** [var names []string] and the loop (lines 88-94). *)
Definition stored_names (entries : list DirEntry) : goslice gostring :=
  fold_left names_step entries NilSlice.

(** ** Vocabulary: custom names *)

(** The custom name of key [key] on layer [layer], as the stored keymap
    has it: the entry of the layer's map under the decimal key index. *)
Definition custom_name (keymap : Keymap) (layer key : Z)
  : option gostring :=
  if (layer <? 0)%Z then None
  else
    l ← elems (Keymap_Layers keymap) !! Z.to_nat layer;
    m ← Layer_CustomNames l;
    m !! Itoa key.

(** The keymap without its custom names: name, layout, and of each layer
    the name and the keys. *)
Definition without_custom_names (keymap : Keymap)
  : gostring * option Layout * list (gostring * goslice gostring) :=
  (Keymap_Name keymap, Keymap_Layout keymap,
   map (λ l, (Layer_Name l, Layer_Keys l)) (elems (Keymap_Layers keymap))).

(** No layer of the keymap has an empty custom name. *)
Definition no_empty_names (keymap : Keymap) : Prop :=
  ∀ l m k, l ∈ elems (Keymap_Layers keymap) →
           Layer_CustomNames l = Some m → m !! k ≠ Some [].

(** The entry is a file whose name ends in [.json]. *)
Definition is_stored (entry : DirEntry) : bool :=
  negb (entry_IsDir entry) && HasSuffix (entry_Name entry) (go ".json").

(** ** Vocabulary: the arguments of a binding *)

(** A byte of visible ASCII, from [!] to [~]: no white space, and no part
    of a rune outside ASCII. *)
Definition is_graphic (c : ascii) : bool := in_range 33 126 c.

(** An argument of a binding: at least one byte, all of them visible. *)
Definition is_argument (w : gostring) : bool :=
  nonempty w && forallb is_graphic w.

(** The names that [convertBinding] knows by their beginning alone. *)
Definition named_rules : list gostring :=
  [go "bootloader"; go "caps_word"; go "leader"; go "studio"].

(* ===================================================================== *)
(** * Properties of [keymap.go] *)
(* ===================================================================== *)

(** ** Slices and the functions of [strings] *)

Lemma slice_Some s a b :
  a ≤ b → b ≤ length s → slice s a b = Some (take (b - a) (drop a s)).
Proof.
  intros Hab Hb. unfold slice.
  destruct (Nat.leb_spec a b); [|lia].
  destruct (Nat.leb_spec b (length s)); [done|lia].
Qed.

Lemma slice_from_Some s a : a ≤ length s → slice_from s a = Some (drop a s).
Proof.
  intros Ha. unfold slice_from. rewrite slice_Some by lia.
  f_equal. apply take_ge. rewrite length_drop. lia.
Qed.

Lemma slice_to_Some s b : b ≤ length s → slice_to s b = Some (take b s).
Proof.
  intros Hb. unfold slice_to. rewrite slice_Some by lia.
  by rewrite Nat.sub_0_r, drop_0.
Qed.

Lemma byte_eqb_eq a b : byte_eqb a b = true ↔ a = b.
Proof. apply Ascii.eqb_eq. Qed.

Lemma byte_eqb_neq a b : byte_eqb a b = false ↔ a ≠ b.
Proof. apply Ascii.eqb_neq. Qed.

Lemma string_eqb_eq a b : string_eqb a b = true ↔ a = b.
Proof. unfold string_eqb. apply bool_decide_eq_true. Qed.

Lemma HasPrefix_app s p : HasPrefix s p = true ↔ ∃ t, s = p ++ t.
Proof.
  revert s. induction p as [|a p IH]; intros s.
  - cbn. split; eauto.
  - destruct s as [|b s]; cbn.
    + split; [done|]. intros [t Ht]. done.
    + rewrite andb_true_iff, byte_eqb_eq, IH. split.
      * intros [-> [t ->]]. eauto.
      * intros [t [= -> ->]]. eauto.
Qed.

Lemma HasPrefix_length s p : HasPrefix s p = true → length p ≤ length s.
Proof.
  intros [t ->]%HasPrefix_app. rewrite length_app. lia.
Qed.

Lemma Index_unfold s sub :
  Index s sub
  = if HasPrefix s sub then Some 0
    else match s with [] => None | _ :: t => S <$> Index t sub end.
Proof. by destruct s. Qed.

Lemma Index_bound s sub i :
  Index s sub = Some i → i + length sub ≤ length s.
Proof.
  revert i. induction s as [|c s IH]; intros i; rewrite Index_unfold;
    destruct (HasPrefix _ sub) eqn:Hp; try done.
  - intros [= <-]. apply HasPrefix_length in Hp. cbn in *. lia.
  - intros [= <-]. apply HasPrefix_length in Hp. cbn in *. lia.
  - destruct (Index s sub) as [j|]; [|done]. cbn.
    intros [= <-]. specialize (IH j eq_refl). lia.
Qed.


(** ** [formatLayerShort] *)


Lemma formatLayerShort_total layer : ∃ r, formatLayerShort layer = Some r.
Proof.
  unfold formatLayerShort. repeat case_match; eauto.
  rewrite slice_to_Some; [eauto|].
  match goal with H : (0 <? _) = true |- _ => apply Nat.ltb_lt in H end. lia.
Qed.

(** ** [formatKey] *)

Lemma modRegex_shape key :
  modRegex_FindStringSubmatch key = []
  ∨ ∃ m1 m2 inner,
      modRegex_FindStringSubmatch key = [key; [m1; m2]; inner]
      ∧ length inner < length key
      ∧ is_mod_side m1 = true ∧ is_mod_kind m2 = true.
Proof.
  unfold modRegex_FindStringSubmatch.
  destruct key as [|m1 [|m2 [|p rest]]]; auto.
  case_match eqn:Hc; auto. right.
  repeat (apply andb_prop in Hc as [Hc ?]).
  exists m1, m2, (take (length rest - 1) rest).
  repeat split; try done. rewrite length_take. cbn. lia.
Qed.

Lemma mod_prefix_Some m1 m2 :
  is_mod_side m1 = true → is_mod_kind m2 = true →
  ∃ t, mod_prefix [m1; m2] = Some t.
Proof.
  unfold is_mod_side, is_mod_kind. intros Hs Hk.
  apply orb_prop in Hs as [->%byte_eqb_eq| ->%byte_eqb_eq];
    repeat (apply orb_prop in Hk as [Hk|Hk]);
    apply byte_eqb_eq in Hk as ->; vm_compute; eauto.
Qed.

Lemma keyMap_keys_distinct : NoDup (map fst keyMap).
Proof. apply (bool_decide_unpack (NoDup (map fst keyMap))). by vm_compute. Qed.

Lemma formatKey_plain_total key : ∃ r, formatKey_plain key = Some r.
Proof.
  unfold formatKey_plain.
  case_match eqn:H1.
  { apply andb_prop in H1 as [_ Hl%Nat.eqb_eq].
    rewrite slice_from_Some by lia. eauto. }
  case_match; [eauto|]. case_match; [eauto|].
  case_match eqn:H4; [eauto|].
  apply Nat.leb_gt in H4. rewrite slice_to_Some by lia. eauto.
Qed.

Lemma formatKey_depth_total depth : ∀ key,
  length key < depth → ∃ r, formatKey_depth depth key = Some r.
Proof.
  induction depth as [|depth IH]; intros key Hlen; [lia|].
  cbn [formatKey_depth].
  destruct (modRegex_shape key)
    as [->|(m1 & m2 & inner & -> & Hinner & Hs & Hk)].
  - cbn. apply formatKey_plain_total.
  - cbn. destruct (IH inner) as [r ->]; [lia|]. cbn.
    destruct (mod_prefix_Some m1 m2 Hs Hk) as [t ->]. eauto.
Qed.

Lemma formatKey_total key : ∃ r, formatKey key = Some r.
Proof. apply formatKey_depth_total. lia. Qed.

Lemma formatKey_depth_mono d : ∀ d' key r,
  d ≤ d' → formatKey_depth d key = Some r → formatKey_depth d' key = Some r.
Proof.
  induction d as [|d IH]; intros d' key r Hle; [done|].
  destruct d' as [|d']; [lia|]. cbn [formatKey_depth].
  case_match; [|done].
  destruct (modRegex_FindStringSubmatch key !! 2) as [m2|]; [|done]. cbn.
  destruct (formatKey_depth d m2) as [inner|] eqn:Hin; [|done].
  rewrite (IH d' m2 inner) by (done || lia). done.
Qed.

Lemma side_letter_side sd : is_mod_side (side_letter sd) = true.
Proof. by destruct sd. Qed.

Lemma kind_letter_kind kd : is_mod_kind (kind_letter kd) = true.
Proof. by destruct kd. Qed.

Lemma mod_prefix_tag m :
  mod_prefix [side_letter m.1; kind_letter m.2] = Some (tag m).
Proof. by destruct m as [[] []]. Qed.

Lemma modRegex_wrap m inner :
  inner ≠ [] → newline ∉ inner →
  modRegex_FindStringSubmatch (wrap m inner)
  = [wrap m inner; [side_letter m.1; kind_letter m.2]; inner].
Proof.
  intros Hne Hnl. unfold wrap. cbn [app go list_ascii_of_string].
  unfold modRegex_FindStringSubmatch.
  rewrite side_letter_side, kind_letter_kind.
  rewrite length_app. cbn [length].
  replace (length inner + 1 - 1) with (length inner) by lia.
  rewrite take_app_length, last_snoc, bool_decide_eq_true_2 by done.
  destruct inner as [|c inner]; [done|]. cbn [length Nat.leb andb byte_eqb].
  replace (forallb _ _) with true; [done|].
  symmetry. apply forallb_forall. intros x Hx.
  apply negb_true_iff, byte_eqb_neq. intros ->.
  apply Hnl. by apply list_elem_of_In.
Qed.

Lemma wrap_all_inner mods inner :
  inner ≠ [] → newline ∉ inner →
  wrap_all mods inner ≠ [] ∧ newline ∉ wrap_all mods inner.
Proof.
  intros Hne Hnl. induction mods as [|m mods [IH1 IH2]]; [done|].
  cbn. split; [done|]. unfold wrap. destruct m as [[] []]; cbn;
    rewrite !not_elem_of_cons, not_elem_of_app, not_elem_of_cons;
    repeat split; try done; apply not_elem_of_nil.
Qed.

Lemma formatKey_depth_match d key m1 m2 inner :
  modRegex_FindStringSubmatch key = [key; [m1; m2]; inner] →
  formatKey_depth (S d) key
  = r ← formatKey_depth d inner;
    match mod_prefix [m1; m2] with
    | Some t => Some (t ++ r)
    | None => formatKey_plain key
    end.
Proof. intros H. cbn [formatKey_depth]. by rewrite H. Qed.

Lemma formatKey_wrap m inner r :
  inner ≠ [] → newline ∉ inner →
  formatKey inner = Some r →
  formatKey (wrap m inner) = Some (tag m ++ r).
Proof.
  intros Hne Hnl Hr. unfold formatKey.
  rewrite (formatKey_depth_match _ _ _ _ _ (modRegex_wrap m inner Hne Hnl)).
  rewrite (formatKey_depth_mono (S (length inner)) _ inner r); [| |done].
  - cbn [mbind option_bind]. by rewrite mod_prefix_tag.
  - unfold wrap. rewrite !length_app. cbn. lia.
Qed.

(** C5. A key code wrapped in [N] modifier functions is formatted as the
    [N] tags of the modifiers, outermost first, followed by the formatted
    innermost code; the left and the right variant of a modifier have the
    same tag, [S-], [C-], [A-] or [G-]; and [LC(LS(A))] gives [C-S-A]. *)
Theorem formatKey_nested_modifiers (mods : list (side * kind)) (inner : gostring) :
  inner ≠ [] → newline ∉ inner →
  (∃ r, formatKey inner = Some r
        ∧ formatKey (wrap_all mods inner) = Some (tags mods ++ r))
  ∧ length (tags mods) = 2 * length mods
  ∧ (∀ kd, tag (Left, kd) = tag (Right, kd))
  ∧ map (λ kd, tag (Left, kd)) [Shift; Control; Alt; Gui]
    = [go "S-"; go "C-"; go "A-"; go "G-"]
  ∧ formatKey (go "LC(LS(A))") = Some (go "C-S-A").
Proof.
  intros Hne Hnl. split; [|split; [|split; [|split]]]; try done.
  - destruct (formatKey_total inner) as [r Hr]. exists r. split; [done|].
    induction mods as [|m mods IH]; [done|].
    destruct (wrap_all_inner mods inner Hne Hnl) as [Hne' Hnl'].
    cbn [wrap_all foldr]. fold (wrap_all mods inner).
    rewrite (formatKey_wrap m _ _ Hne' Hnl' IH).
    unfold tags. cbn [map concat]. by rewrite app_assoc.
  - induction mods as [|m mods IH]; [done|].
    unfold tags in *. cbn [map concat]. rewrite length_app, IH. cbn. lia.
Qed.

(** Three modifiers around [TAB]. *)
Lemma formatKey_nested_modifiers_witness :
  formatKey (wrap_all [(Right, Gui); (Left, Alt); (Right, Shift)] (go "TAB"))
  = Some (go "G-A-S-TAB").
Proof.
  destruct (formatKey_nested_modifiers
              [(Right, Gui); (Left, Alt); (Right, Shift)] (go "TAB"))
    as [(r & Hr & Hw) _].
  - discriminate.
  - cbn. intros Hin.
    repeat (apply elem_of_cons in Hin as [Hin|Hin]; [discriminate|]).
    by apply elem_of_nil in Hin.
  - rewrite Hw. vm_compute in Hr. injection Hr as <-. reflexivity.
Defined.

Lemma modRegex_short key :
  length key < 5 → modRegex_FindStringSubmatch key = [].
Proof.
  intros Hlen. destruct (modRegex_shape key)
    as [->|(m1 & m2 & inner & Heq & _)]; [done|].
  exfalso. revert Heq. unfold modRegex_FindStringSubmatch.
  destruct key as [|a [|b [|p rest]]]; try done.
  case_match eqn:Hc; [|done].
  repeat (apply andb_prop in Hc as [Hc ?]).
  destruct rest as [|x [|y rest]]; cbn in *; try done; lia.
Qed.

Lemma formatKey_no_modifier key :
  modRegex_FindStringSubmatch key = [] → formatKey key = formatKey_plain key.
Proof. intros H. unfold formatKey. cbn [formatKey_depth]. by rewrite H. Qed.

(** The rules of [convertBinding] and of [formatKey], each on an example. *)
Example convertBinding_rules :
  convertBinding (go "&trans") = Some (go "▽")
  ∧ convertBinding (go "&none") = Some (go "")
  ∧ convertBinding (go "&kp SPACE") = Some (go "SPC")
  ∧ convertBinding (go "&lt 2 TAB") = Some (go "TAB/R")
  ∧ convertBinding (go "&lt 2") = Some (go "LT")
  ∧ convertBinding (go "&mo raise") = Some (go "[R]")
  ∧ convertBinding (go "&hrm LSHFT F") = Some (go "F")
  ∧ convertBinding (go "&bt BT_SEL 0") = Some (go "BT0")
  ∧ convertBinding (go "&bt BT_CLR") = Some (go "BT CLR")
  ∧ convertBinding (go "&bt BT_NXT") = Some (go "BT")
  ∧ convertBinding (go "&bootloader") = Some (go "BOOT")
  ∧ convertBinding (go "&caps_word") = Some (go "CAPS")
  ∧ convertBinding (go "&leader") = Some (go "LDR")
  ∧ convertBinding (go "&bl BL_TOG") = Some (go "BL")
  ∧ convertBinding (go "&studio_unlock") = Some (go "STUDIO")
  ∧ convertBinding (go "&mt(LSHIFT, A)") = Some (go "MT")
  ∧ convertBinding (go "&sys_reset") = Some (go "SYS_").
Proof. repeat split; by vm_compute. Qed.

Example formatKey_rules :
  formatKey (go "RS(N1)") = Some (go "S-1")
  ∧ formatKey (go "N7") = Some (go "7")
  ∧ formatKey (go "F12") = Some (go "F12")
  ∧ formatKey (go "LEFT") = Some (go "←")
  ∧ formatKey (go "C_PLAY_PAUSE") = Some (go "▶⏸")
  ∧ formatKey (go "Q") = Some (go "Q")
  ∧ formatKey (go "KP_PLUS") = Some (go "KP_P").
Proof. repeat split; by vm_compute. Qed.

(** C6, as the code has it.  The number-key rule applies to every key code
    of two bytes that starts with [N], whatever the second byte is, and
    returns that second byte: [N1] gives [1] and [NA] gives [A].  A key
    code that starts with [N] and has another length, that does not match
    the modifier pattern and is not in the table, is returned unchanged
    when it has at most 4 bytes and cut to its first 4 bytes otherwise. *)
Theorem number_key_rule :
  (∀ c, formatKey [ "N"%char; c ] = Some [c])
  ∧ formatKey (go "N1") = Some (go "1")
  ∧ formatKey (go "NA") = Some (go "A")
  ∧ (∀ key,
       HasPrefix key (go "N") = true → length key ≠ 2 →
       modRegex_FindStringSubmatch key = [] →
       map_lookup keyMap key = None →
       formatKey key = Some (take 4 key)
       ∧ (length key ≤ 4 → take 4 key = key)).
Proof.
  split; [|split; [|split]].
  - intros c. rewrite formatKey_no_modifier; [reflexivity|].
    apply modRegex_short. cbn. lia.
  - reflexivity.
  - reflexivity.
  - intros key HN Hlen Hmod Htab.
    split; [|by intros; apply take_ge].
    rewrite formatKey_no_modifier by done. unfold formatKey_plain.
    rewrite HN, Htab. apply Nat.eqb_neq in Hlen as ->. cbn [andb].
    assert (HasPrefix key (go "F") = false) as ->.
    { apply HasPrefix_app in HN as [t ->]. done. }
    cbn [andb]. destruct (Nat.leb_spec (length key) 4).
    + by rewrite take_ge.
    + apply slice_to_Some. lia.
Qed.

(** Two key codes that start with [N] and are not two bytes long. *)
Lemma number_key_rule_witness :
  formatKey (go "NLCK") = Some (go "NLCK")
  ∧ formatKey (go "NON_US_HASH") = Some (go "NON_").
Proof.
  destruct number_key_rule as (_ & _ & _ & Hrest). split.
  - destruct (Hrest (go "NLCK")) as [-> _]; done.
  - destruct (Hrest (go "NON_US_HASH")) as [-> _]; done.
Defined.

(** C6 as stated fails: [NA] has two bytes, starts with [N], its second
    byte is not a digit, it matches neither the modifier nor the
    function-key pattern, it is not in the table and it is not longer than
    4 bytes, and still it is not returned unchanged. *)
Lemma NA_loses_its_first_letter :
  is_digit "A" = false
  ∧ modRegex_FindStringSubmatch (go "NA") = []
  ∧ HasPrefix (go "NA") (go "F") = false
  ∧ map_lookup keyMap (go "NA") = None
  ∧ length (go "NA") ≤ 4
  ∧ formatKey (go "NA") ≠ Some (go "NA").
Proof. repeat split; try done. cbn. lia. Qed.

(** C1, as the code has it.  The binding text [&kp A &mo 1 &trans] gives
    exactly three labels: [A], then [[L]], because the layer reference [1]
    is one of the well-known references and stands for [L], and then the
    transparent glyph. *)
Theorem tokenize_scenario :
  tokenize (go "&kp A &mo 1 &trans")
  = Some (Slice [go "A"; go "[L]"; go "▽"])
  ∧ (go "1", go "L") ∈ well_known
  ∧ formatLayerShort (go "1") = Some (go "L")
  ∧ convertBinding (go "&mo 1") = Some (go "[L]").
Proof.
  split; [by vm_compute|]. split; [|split; by vm_compute].
  unfold well_known. rewrite !elem_of_cons. auto.
Qed.

(** C1 as stated fails: the second label is not [[1]]. *)
Lemma layer_1_is_not_generic :
  tokenize (go "&kp A &mo 1 &trans")
  ≠ Some (Slice [go "A"; go "[1]"; go "▽"]).
Proof. vm_compute. discriminate. Qed.

(** ** [formatLayerShort] *)






(** ** [formatLayerName] *)

Lemma formatLayerName_loop_map n : ∀ i words,
  i + n = length words →
  formatLayerName_loop n i words
  = Some (take i words ++ map title_case (drop i words)).
Proof.
  induction n as [|n IH]; intros i words Hlen; cbn [formatLayerName_loop].
  - rewrite take_ge, drop_ge by lia. by rewrite app_nil_r.
  - destruct (words !! i) as [w|] eqn:Hw; cycle 1.
    { apply lookup_ge_None in Hw. lia. }
    cbn [mbind option_bind].
    rewrite (drop_S _ _ _ Hw). cbn [map].
    destruct (Nat.ltb_spec 0 (length w)) as [Hpos|Hzero].
    + rewrite slice_to_Some, slice_from_Some by lia. cbn [mbind option_bind].
      rewrite IH by (rewrite length_insert; lia).
      rewrite drop_insert_lt by lia.
      erewrite take_S_r by (apply list_lookup_insert_eq; lia).
      rewrite take_insert_ge by lia.
      by rewrite <- app_assoc.
    + rewrite IH by lia. rewrite (take_S_r _ _ _ Hw).
      destruct w; [|cbn in Hzero; lia].
      by rewrite <- app_assoc.
Qed.

Lemma formatLayerName_map name :
  formatLayerName name
  = Some (Join (map title_case (Split (TrimSuffix name (go "_layer")) "_"))
            (go " ")).
Proof.
  unfold formatLayerName. rewrite formatLayerName_loop_map by lia.
  cbn [mbind option_bind]. by rewrite take_0, drop_0.
Qed.

Lemma Join_cons_cons a w ws sep :
  Join ((a :: w) :: ws) sep = a :: Join (w :: ws) sep.
Proof. by destruct ws. Qed.

Lemma title_scan_Join s : ∀ start,
  ∃ w ws,
    Split s "_" = w :: ws
    ∧ title_scan start s
      = Join ((if start then title_case w else ToLower w) :: map title_case ws)
          (go " ").
Proof.
  induction s as [|c s IH]; intros start.
  - exists [], []. by destruct start.
  - cbn [Split title_scan]. destruct (byte_eqb c "_") eqn:Hc.
    + destruct (IH true) as (w & ws & Hs & Hscan).
      exists [], (w :: ws). rewrite Hs, Hscan. split; [done|].
      by destruct start.
    + destruct (IH false) as (w & ws & Hs & Hscan).
      exists (c :: w), ws. rewrite Hs, Hscan. split; [done|].
      destruct start; cbn [title_case take drop ToUpper ToLower map app];
        by rewrite Join_cons_cons.
Qed.

Lemma formatLayerName_scan name :
  formatLayerName name
  = Some (title_scan true (TrimSuffix name (go "_layer"))).
Proof.
  rewrite formatLayerName_map.
  destruct (title_scan_Join (TrimSuffix name (go "_layer")) true)
    as (w & ws & -> & ->). done.
Qed.

Lemma Split_length s c : length (Split s c) = S (count_byte c s).
Proof.
  unfold count_byte. induction s as [|b s IH]; [done|].
  cbn [Split]. destruct (byte_eqb b c) eqn:Hb.
  - apply byte_eqb_eq in Hb as ->.
    rewrite filter_cons_True by done. cbn. by rewrite IH.
  - apply byte_eqb_neq in Hb.
    rewrite filter_cons_False by done.
    destruct (Split s c); cbn in *; lia.
Qed.

(** C3, as the code has it.  For a raw layer name written in ASCII, the
    transformation strips one trailing [_layer], splits at the
    underscores, puts every word in title case and joins all the words,
    the empty ones too, with single spaces.  So every underscore of the
    stripped name becomes one space, where it stands: consecutive, leading
    and trailing underscores give consecutive, leading and trailing
    spaces.  The result is that of skipping the empty words when there is
    no empty word. *)
Theorem formatLayerName_keeps_empty_words (name : gostring) :
  ascii_text name →
  let stem := TrimSuffix name (go "_layer") in
  formatLayerName name
  = Some (Join (map title_case (Split stem "_")) (go " "))
  ∧ formatLayerName name = Some (title_scan true stem)
  ∧ length (Split stem "_") = S (count_byte "_" stem)
  ∧ (Forall (λ w, w ≠ []) (Split stem "_") →
     formatLayerName name = Some (formatLayerName_spec name)).
Proof.
  intros _ stem. split; [apply formatLayerName_map|].
  split; [apply formatLayerName_scan|]. split; [apply Split_length|].
  intros Hall. rewrite formatLayerName_map. unfold formatLayerName_spec.
  fold stem. do 3 f_equal. symmetry.
  induction Hall as [|w ws Hw _ IH]; [done|].
  rewrite filter_cons_True; [by rewrite IH|].
  unfold nonempty. apply Nat.ltb_lt. destruct w; cbn; [done|lia].
Qed.

(** A name of two words with the suffix. *)
Lemma formatLayerName_keeps_empty_words_witness :
  formatLayerName (go "num_PAD_layer") = Some (go "Num Pad")
  ∧ formatLayerName (go "num_PAD_layer")
    = Some (formatLayerName_spec (go "num_PAD_layer")).
Proof.
  assert (Hascii : ascii_text (go "num_PAD_layer")).
  { apply Forall_forall. intros c Hc. cbn in Hc.
    repeat (apply elem_of_cons in Hc as [->|Hc]; [by vm_compute|]).
    by apply elem_of_nil in Hc. }
  destruct (formatLayerName_keeps_empty_words _ Hascii) as (H1 & _ & _ & H4).
  split; [exact H1|]. apply H4.
  vm_compute. repeat constructor; discriminate.
Defined.

(** C3 as stated fails: the empty word between two underscores is not
    skipped, it leaves a second space. *)
Lemma double_underscore_leaves_two_spaces :
  formatLayerName (go "a__b") = Some (go "A  B")
  ∧ formatLayerName_spec (go "a__b") = go "A B"
  ∧ formatLayerName (go "a__b") ≠ Some (formatLayerName_spec (go "a__b")).
Proof. split; [by vm_compute|]. split; by vm_compute. Qed.

(** ** White space *)

Lemma space_width_cases s :
  space_width s = 0
  ∨ (space_width s = 1 ∧ 1 ≤ length s)
  ∨ (space_width s = 2 ∧ 2 ≤ length s)
  ∨ (space_width s = 3 ∧ 3 ≤ length s).
Proof.
  unfold space_width. destruct s as [|c t]; [by left|].
  destruct (is_ascii_space c); [right; left; cbn; split; [done|lia]|].
  destruct t as [|c2 [|c3 t]]; cbn [take map length];
    repeat case_match; auto; right; right;
    solve [left; split; [done|lia] | right; split; [done|lia]].
Qed.

Lemma space_width_le s : space_width s ≤ length s ∧ space_width s ≤ 3.
Proof. destruct (space_width_cases s) as [|[[]|[[]|[]]]]; lia. Qed.

Lemma ends_in_space_app p s : ends_in_space s → ends_in_space (p ++ s).
Proof.
  intros (pre & r & -> & Hr & Hw). exists (p ++ pre), r.
  by rewrite <- app_assoc.
Qed.

Lemma space_suffix_width_ends s :
  space_suffix_width s ≠ 0 ↔ ends_in_space s.
Proof.
  split.
  - unfold space_suffix_width.
    repeat case_match; try done; intros _;
      match goal with H : _ && _ = true |- _ =>
        apply andb_prop in H as [Hn%Nat.leb_le Hw%Nat.eqb_eq] end;
      match type of Hw with space_width (drop ?k s) = _ =>
        exists (take k s), (drop k s) end;
      rewrite take_drop, length_drop; (split; [done|]);
      (split; [|lia]); intros Hnil; rewrite Hnil in Hw; done.
  - intros (pre & r & -> & Hr & Hw).
    assert (Hlen : 1 ≤ length r ≤ 3).
    { destruct (space_width_le r). destruct r; cbn in *; [done|lia]. }
    assert (Hdrop : drop (length (pre ++ r) - length r) (pre ++ r) = r).
    { rewrite length_app.
      replace (length pre + length r - length r) with (length pre) by lia.
      by rewrite drop_app_length. }
    unfold space_suffix_width. cbv zeta.
    destruct ((1 <=? _) && _) eqn:H1; [done|].
    destruct ((2 <=? _) && _) eqn:H2; [done|].
    destruct ((3 <=? _) && _) eqn:H3; [done|].
    exfalso.
    assert (length (pre ++ r) ≥ length r) by (rewrite length_app; lia).
    destruct (length r) as [|[|[|[|n]]]] eqn:Hr'; try lia;
      repeat match goal with
      | H : _ && _ = false |- _ =>
          apply andb_false_iff in H as [H%Nat.leb_gt|H%Nat.eqb_neq]
      end; try lia; rewrite ?Hdrop in *; congruence.
Qed.

Lemma TrimRightSpace_upto_trimmed n : ∀ s,
  length s ≤ n → space_suffix_width (TrimRightSpace_upto n s) = 0.
Proof.
  induction n as [|n IH]; intros s Hlen; cbn [TrimRightSpace_upto].
  - by destruct s; [|cbn in Hlen; lia].
  - destruct (space_suffix_width s) as [|w] eqn:Hw; [done|].
    apply IH. rewrite length_take. lia.
Qed.

Lemma TrimSpace_trimmed s : space_suffix_width (TrimSpace s) = 0.
Proof. apply TrimRightSpace_upto_trimmed. done. Qed.

Lemma TrimRightSpace_upto_take n : ∀ s,
  ∃ k, TrimRightSpace_upto n s = take k s.
Proof.
  induction n as [|n IH]; intros s; cbn [TrimRightSpace_upto].
  - exists (length s). by rewrite take_ge.
  - destruct (space_suffix_width s) as [|w].
    + exists (length s). by rewrite take_ge.
    + destruct (IH (take (length s - S w) s)) as [k ->].
      rewrite take_take. eauto.
Qed.

Lemma TrimLeftSpace_from_drop s : ∀ skip,
  ∃ k, TrimLeftSpace_from skip s = drop k s.
Proof.
  induction s as [|c s IH]; intros skip; cbn [TrimLeftSpace_from].
  - by exists 0.
  - destruct skip as [|skip].
    + destruct (space_width (c :: s)) as [|w].
      * by exists 0.
      * destruct (IH w) as [k ->]. by exists (S k).
    + destruct (IH skip) as [k ->]. by exists (S k).
Qed.

Lemma TrimSpace_infix s : ∃ i j, TrimSpace s = take j (drop i s).
Proof.
  unfold TrimSpace, TrimRightSpace, TrimLeftSpace.
  destruct (TrimLeftSpace_from_drop s 0) as [i ->].
  destruct (TrimRightSpace_upto_take (length (drop i s)) (drop i s)) as [j ->].
  eauto.
Qed.

(** ** [strings.Fields] *)

Lemma Fields_from_skip s : ∀ skip cur,
  Fields_from skip cur s = Fields_from 0 cur (drop skip s).
Proof.
  induction s as [|c s IH]; intros skip cur.
  - by destruct skip.
  - destruct skip as [|skip]; [done|]. cbn [Fields_from drop]. apply IH.
Qed.

Lemma Fields_from_cur s : ∀ skip cur,
  cur ≠ [] → Fields_from skip cur s ≠ [].
Proof.
  induction s as [|c s IH]; intros skip cur Hcur; cbn [Fields_from].
  - by destruct cur.
  - destruct skip as [|skip]; [|by apply IH].
    destruct (space_width (c :: s)).
    + apply IH. by destruct cur.
    + by destruct cur.
Qed.

Lemma Fields_nil_upto n : ∀ s,
  length s ≤ n → Fields s = [] → s = [] ∨ ends_in_space s.
Proof.
  induction n as [|n IH]; intros s Hlen.
  - destruct s; [auto|cbn in Hlen; lia].
  - destruct s as [|c t]; [auto|]. unfold Fields. cbn [Fields_from].
    destruct (space_width (c :: t)) as [|w] eqn:Hw.
    + intros Hnil. by apply Fields_from_cur in Hnil.
    + cbn [flush app]. rewrite Fields_from_skip. intros Hnil.
      right. destruct (space_width_le (c :: t)) as [Hle _].
      rewrite Hw in Hle. cbn in Hle, Hlen.
      destruct (IH (drop w t)) as [Hd|Hd];
        [rewrite length_drop; lia|exact Hnil| |].
      * exists [], (c :: t). split; [done|]. split; [done|].
        rewrite Hw. cbn. apply (f_equal length) in Hd.
        rewrite length_drop in Hd. cbn in Hd. lia.
      * rewrite <- (take_drop (S w) (c :: t)). by apply ends_in_space_app.
Qed.

Lemma Fields_nil s : Fields s = [] → s = [] ∨ ends_in_space s.
Proof. by apply (Fields_nil_upto (length s)). Qed.

Lemma Fields_after_prefix b p :
  space_suffix_width b = 0 → ends_in_space p → HasPrefix b p = true →
  ∃ key, Fields (drop (length p) b) !! 0 = Some key.
Proof.
  intros Hb Hp [key ->]%HasPrefix_app. rewrite drop_app_length.
  destruct (Fields key) as [|k ks] eqn:Hk; [|by exists k].
  exfalso. apply Fields_nil in Hk as [->|Hk].
  - rewrite app_nil_r in Hb. by apply space_suffix_width_ends in Hp.
  - by apply (ends_in_space_app p), space_suffix_width_ends in Hk.
Qed.

(** ** [convertBinding] never stops *)

Ltac step_bind := cbn [mbind option_bind].

Lemma lookup_in_range {A} (l : list A) i :
  i < length l → ∃ x, l !! i = Some x.
Proof. intros Hi. by apply lookup_lt_is_Some_2. Qed.

Lemma min_le_r a b : min a b ≤ b.
Proof. unfold min. destruct (Nat.ltb_spec a b); lia. Qed.

Lemma convert_lt_total b r : convert_lt b = Some r → ∃ x, r = Some x.
Proof.
  unfold convert_lt. case_match; [|done].
  case_match eqn:Hlen; [|done]. apply Nat.leb_le in Hlen.
  intros [= <-].
  destruct (lookup_in_range (Fields b) 1) as [layer ->]; [lia|].
  destruct (lookup_in_range (Fields b) 2) as [key ->]; [lia|]. step_bind.
  destruct (formatKey_total key) as [k ->].
  destruct (formatLayerShort_total layer) as [l ->].
  step_bind. eauto.
Qed.

Lemma convert_mo_total b r : convert_mo b = Some r → ∃ x, r = Some x.
Proof.
  unfold convert_mo. case_match; [|done].
  case_match eqn:Hlen; [|done]. apply Nat.leb_le in Hlen.
  intros [= <-].
  destruct (lookup_in_range (Fields b) 1) as [layer ->]; [lia|]. step_bind.
  destruct (formatLayerShort_total layer) as [l ->].
  step_bind. eauto.
Qed.

Lemma convert_hrm_total b r : convert_hrm b = Some r → ∃ x, r = Some x.
Proof.
  unfold convert_hrm. case_match; [|done].
  case_match eqn:Hlen; [|done]. apply Nat.leb_le in Hlen.
  intros [= <-].
  destruct (lookup_in_range (Fields b) 2) as [key ->]; [lia|].
  step_bind. apply formatKey_total.
Qed.

Lemma convert_bt_total b : ∃ x, convert_bt b = Some x.
Proof.
  unfold convert_bt. case_match eqn:Hlen; [|eauto].
  apply Nat.leb_le in Hlen.
  destruct (lookup_in_range (Fields b) 1) as [cmd ->]; [lia|]. step_bind.
  case_match eqn:Hsel.
  - apply andb_prop in Hsel as [_ Hlen3%Nat.leb_le].
    destruct (lookup_in_range (Fields b) 2) as [p2 ->]; [lia|].
    step_bind. eauto.
  - case_match; eauto.
Qed.

Lemma convert_default_total b : ∃ x, convert_default b = Some x.
Proof.
  unfold convert_default. case_match eqn:Hlen; [|eauto].
  apply Nat.leb_le in Hlen.
  destruct (lookup_in_range (nameRegex_FindStringSubmatch b) 1)
    as [m1 ->]; [lia|].
  step_bind. rewrite slice_to_Some by apply min_le_r. cbn. eauto.
Qed.

Lemma kp_prefix_ends_in_space : ends_in_space (go "&kp ").
Proof. by exists (go "&kp"), (go " "). Qed.

Lemma convertBinding_total binding : ∃ r, convertBinding binding = Some r.
Proof.
  unfold convertBinding. cbv zeta.
  pose proof (TrimSpace_trimmed binding) as Htrim.
  set (b := TrimSpace binding) in *.
  case_match; [eauto|]. case_match; [eauto|].
  case_match eqn:Hkp.
  { unfold TrimPrefix. rewrite Hkp.
    destruct (Fields_after_prefix b (go "&kp ") Htrim
                kp_prefix_ends_in_space Hkp) as [key Hkey].
    rewrite Hkey.
    step_bind. apply formatKey_total. }
  destruct (convert_lt b) as [r|] eqn:Hlt; [by apply convert_lt_total in Hlt|].
  destruct (convert_mo b) as [r|] eqn:Hmo; [by apply convert_mo_total in Hmo|].
  destruct (convert_hrm b) as [r|] eqn:Hhrm;
    [by apply convert_hrm_total in Hhrm|].
  case_match; [apply convert_bt_total|].
  repeat (case_match; [eauto|]).
  apply convert_default_total.
Qed.

(** ** [tokenize] never stops *)

Lemma ascending_weaken lo lo' ms hi :
  lo ≤ lo' → ascending lo' ms hi → ascending lo ms hi.
Proof.
  intros Hle. destruct ms as [|m ms]; [done|].
  cbn. intros (? & ? & ?). repeat split; [lia|done|done].
Qed.

Lemma FindAll_from_ascending s : ∀ skip pos,
  ascending pos (FindAll_from skip pos s) (pos + length s).
Proof.
  induction s as [|c t IH]; intros skip pos; cbn [FindAll_from]; [done|].
  cbn [length]. replace (pos + S (length t)) with (S pos + length t) by lia.
  destruct skip as [|skip].
  - destruct (bindingRegex_at (c :: t)) as [n|].
    + cbn. repeat split; [lia|lia|apply IH].
    + eapply ascending_weaken; [|apply IH]. lia.
  - eapply ascending_weaken; [|apply IH]. lia.
Qed.

Lemma tokenize_loop_total content ms : ∀ lo tokens,
  ascending lo ms (length content) →
  ∃ r, tokenize_loop content ms tokens = Some r.
Proof.
  induction ms as [|m later IH]; intros lo tokens Hasc;
    cbn [tokenize_loop]; [eauto|].
  destruct Hasc as (_ & Hhi & Hlater).
  rewrite slice_Some; cycle 1.
  { destruct later as [|next ?]; [lia|]. cbn in Hlater. lia. }
  { destruct later as [|next ?]; [lia|]. cbn in Hlater. lia. }
  step_bind.
  match goal with |- context [convertBinding ?b] =>
    destruct (convertBinding_total b) as [label ->] end.
  step_bind. by eapply IH.
Qed.

Lemma tokenize_total content : ∃ r, tokenize content = Some r.
Proof.
  unfold tokenize. cbv zeta. eapply tokenize_loop_total.
  apply (FindAll_from_ascending _ 0 0).
Qed.

Lemma parseKeysFlat_total content : ∃ r, parseKeysFlat content = Some r.
Proof. apply tokenize_total. Qed.

(** ** Text without bindings *)

Lemma no_binding_cons c t : no_binding (c :: t) = true → no_binding t = true.
Proof. cbn. by intros [_ ?]%andb_prop. Qed.

Lemma no_binding_at s : no_binding s = true → bindingRegex_at s = None.
Proof.
  destruct s as [|c t]; [done|]. cbn [no_binding bindingRegex_at].
  intros [Hc _]%andb_prop. destruct (byte_eqb c "&"); [|done].
  destruct t as [|d t]; [done|]. cbn in *. by destruct (is_word d).
Qed.

Lemma FindAll_no_binding s : ∀ skip pos,
  no_binding s = true → FindAll_from skip pos s = [].
Proof.
  induction s as [|c t IH]; intros skip pos Hs; [done|].
  cbn [FindAll_from]. destruct skip as [|skip].
  - rewrite no_binding_at by done. eapply IH, no_binding_cons, Hs.
  - eapply IH, no_binding_cons, Hs.
Qed.

Lemma no_binding_drop s : ∀ k, no_binding s = true → no_binding (drop k s) = true.
Proof.
  induction s as [|c t IH]; intros k Hs; [by destruct k|].
  destruct k as [|k]; [done|]. cbn [drop]. eapply IH, no_binding_cons, Hs.
Qed.

Lemma no_binding_take s : ∀ k, no_binding s = true → no_binding (take k s) = true.
Proof.
  induction s as [|c t IH]; intros k Hs; [by destruct k|].
  destruct k as [|k]; [done|]. cbn [take no_binding].
  rewrite (IH k) by (eapply no_binding_cons, Hs).
  cbn [no_binding] in Hs. apply andb_prop in Hs as [Hc _].
  rewrite andb_true_r. destruct (byte_eqb c "&"); [|done].
  destruct t as [|d t]; [by destruct k|].
  destruct k; [done|]. done.
Qed.

Lemma no_binding_map (f : ascii → ascii) s :
  (∀ c, byte_eqb (f c) "&" = byte_eqb c "&") →
  (∀ c, is_word (f c) = is_word c) →
  no_binding (map f s) = no_binding s.
Proof.
  intros Hamp Hword. induction s as [|c t IH]; [done|].
  cbn [map no_binding]. rewrite IH, Hamp. by destruct t; cbn; rewrite ?Hword.
Qed.

Lemma no_binding_ReplaceAll s old :
  is_word old = false → byte_eqb old "&" = false →
  no_binding (ReplaceAll s old " ") = no_binding s.
Proof.
  intros Hw Ha. apply no_binding_map; intros c;
    destruct (byte_eqb c old) eqn:Hc; try done;
    apply byte_eqb_eq in Hc as ->; by rewrite ?Hw, ?Ha.
Qed.

Lemma parseKeysFlat_no_binding content :
  no_binding content = true → parseKeysFlat content = Some NilSlice.
Proof.
  intros Hs. unfold parseKeysFlat, tokenize. cbv zeta.
  match goal with |- context [TrimSpace ?x] =>
    destruct (TrimSpace_infix x) as (i & j & ->);
    assert (Hx : no_binding x = true)
      by (by rewrite !no_binding_ReplaceAll) end.
  unfold bindingRegex_FindAll.
  by rewrite FindAll_no_binding by (by apply no_binding_take, no_binding_drop).
Qed.

(** ** [ParseKeymap] never stops *)

Lemma findMatchingParen_loop_bound rest : ∀ i depth e,
  findMatchingParen_loop rest i depth = Some e → i ≤ e < i + length rest.
Proof.
  induction rest as [|c rest IH]; intros i depth e; [done|].
  cbn [findMatchingParen_loop length].
  repeat case_match; try (intros [= <-]; lia);
    intros He%IH; lia.
Qed.

Lemma findMatchingParen_bound s i e :
  findMatchingParen s i = Some e → i < e < length s.
Proof.
  unfold findMatchingParen. case_match eqn:Hc; [done|].
  apply orb_false_iff in Hc as [Hlen%Nat.leb_gt _].
  intros He%findMatchingParen_loop_bound.
  rewrite length_drop in He. lia.
Qed.

Lemma layers_ok_append layers name keys :
  layers_ok layers →
  layers_ok (append layers {| Layer_Name := name; Layer_Keys := keys;
                              Layer_CustomNames := Some ∅ |}).
Proof.
  intros [_ Hall]. split; [done|]. cbn.
  apply Forall_app. split; [done|]. by constructor.
Qed.

Lemma ParseKeymap_loop_total fuel : ∀ content idx layers,
  idx ≤ length content → length content - idx < fuel →
  ∃ r, ParseKeymap_loop fuel content idx layers = Some r
       ∧ (layers_ok layers → layers_ok r).
Proof.
  induction fuel as [|fuel IH]; intros content idx layers Hidx Hfuel; [lia|].
  cbn [ParseKeymap_loop].
  rewrite slice_from_Some by done. step_bind.
  destruct (Index (drop idx content) (go "ZMK_LAYER")) as [start|] eqn:Hstart;
    [|eauto].
  apply Index_bound in Hstart. rewrite length_drop in Hstart. cbn in Hstart.
  rewrite slice_from_Some by lia. step_bind.
  destruct (Index (drop (start + idx) content) (go "(")) as [paren|] eqn:Hparen;
    [|eauto].
  apply Index_bound in Hparen. rewrite length_drop in Hparen. cbn in Hparen.
  destruct (findMatchingParen content (paren + (start + idx)))
    as [parenEnd|] eqn:Hend; [|apply IH; lia].
  apply findMatchingParen_bound in Hend.
  rewrite slice_Some by lia. step_bind.
  match goal with |- context [Index ?inner (go ",")] =>
    destruct (Index inner (go ",")) as [commaIdx|] eqn:Hcomma;
      [|apply IH; lia] end.
  apply Index_bound in Hcomma. cbn in Hcomma.
  rewrite slice_to_Some, slice_from_Some by lia. step_bind.
  rewrite formatLayerName_map. step_bind.
  match goal with |- context [parseKeysFlat ?k] =>
    destruct (parseKeysFlat_total k) as [keys ->] end.
  step_bind.
  match goal with |- context [append layers ?l] =>
    destruct (IH content (parenEnd + 1) (append layers l))
      as (r & -> & Hr); [lia|lia|] end.
  exists r. split; [done|]. intros Hok. by apply Hr, layers_ok_append.
Qed.

Lemma ParseKeymap_total content name :
  ∃ layers,
    ParseKeymap content name
    = Some (Some {| Keymap_Name := name; Keymap_Layers := layers;
                    Keymap_Layout := None |}, None)
    ∧ layers_ok layers.
Proof.
  unfold ParseKeymap.
  destruct (ParseKeymap_loop_total (S (length content)) content 0 (Slice []))
    as (r & -> & Hr); [lia|lia|].
  exists r. split; [done|]. apply Hr. by split.
Qed.

(** C10. Every keymap that [ParseKeymap] returns has a slice of layers
    that is not [nil] (it is the empty slice when the text has no macro
    invocation), and every layer in it has a map of custom names that is
    not [nil] and is empty; an argument text in which no binding starts
    gives no label at all. *)
Theorem keymap_layers_never_nil :
  (∀ content name,
     ∃ km, ParseKeymap content name = Some (Some km, None)
           ∧ is_nil (Keymap_Layers km) = false
           ∧ Forall (λ l, Layer_CustomNames l = Some ∅)
               (elems (Keymap_Layers km)))
  ∧ (∀ content name,
       Index content (go "ZMK_LAYER") = None →
       ParseKeymap content name
       = Some (Some {| Keymap_Name := name; Keymap_Layers := Slice [];
                       Keymap_Layout := None |}, None))
  ∧ (∀ args,
       no_binding args = true →
       ∃ keys, parseKeysFlat args = Some keys ∧ len keys = 0).
Proof.
  split; [|split].
  - intros content name.
    destruct (ParseKeymap_total content name) as (layers & -> & Hnil & Hall).
    eexists. split; [done|]. done.
  - intros content name Hnone. unfold ParseKeymap. cbn [ParseKeymap_loop].
    rewrite slice_from_Some by lia. step_bind. rewrite drop_0, Hnone. done.
  - intros args Hargs. exists NilSlice.
    by rewrite parseKeysFlat_no_binding.
Qed.

(** A text without invocation, and an argument text without binding. *)
Lemma keymap_layers_never_nil_witness :
  ParseKeymap (go "/ { keymap { }; };") (go "empty")
  = Some (Some {| Keymap_Name := go "empty"; Keymap_Layers := Slice [];
                  Keymap_Layout := None |}, None)
  ∧ ∃ keys, parseKeysFlat (go " /* nothing & nothing */ ") = Some keys
            ∧ len keys = 0.
Proof.
  destruct keymap_layers_never_nil as (_ & Hempty & Hnone).
  split.
  - apply Hempty. reflexivity.
  - apply Hnone. reflexivity.
Defined.

(** ** The scan of [ParseKeymap] over plain text and invocations *)

Lemma drop_at (content x y : gostring) i :
  content = x ++ y → i = length x → drop i content = y.
Proof. intros -> ->. apply drop_app_length. Qed.

Lemma slice_at (content x m y : gostring) a b :
  content = x ++ m ++ y → a = length x → b = length x + length m →
  slice content a b = Some m.
Proof.
  intros -> -> ->. rewrite slice_Some by (rewrite ?length_app; lia).
  rewrite drop_app_length.
  replace (length x + length m - length x) with (length m) by lia.
  by rewrite take_app_length.
Qed.

Lemma plain_no_paren s : plain s = true → no_paren s = true.
Proof.
  unfold plain, no_paren. rewrite !forallb_forall. intros Hs c Hc.
  specialize (Hs c Hc). destruct (byte_eqb c "Z"); [done|]. exact Hs.
Qed.

Lemma plain_no_Z s : plain s = true → "Z"%char ∉ s.
Proof.
  unfold plain. rewrite forallb_forall. intros Hs Hin.
  specialize (Hs _ (proj1 (list_elem_of_In _ _) Hin)). done.
Qed.

Lemma no_comma_notin s : no_comma s = true → ","%char ∉ s.
Proof.
  unfold no_comma. rewrite forallb_forall. intros Hs Hin.
  specialize (Hs _ (proj1 (list_elem_of_In _ _) Hin)). done.
Qed.

Lemma no_paren_app x y : no_paren (x ++ y) = no_paren x && no_paren y.
Proof. apply forallb_app. Qed.

Lemma Index_skip x y c sub :
  c ∉ x → HasPrefix y (c :: sub) = true →
  Index (x ++ y) (c :: sub) = Some (length x).
Proof.
  intros Hx Hy. induction x as [|b x IH].
  - cbn [app length]. by rewrite Index_unfold, Hy.
  - apply not_elem_of_cons in Hx as [Hb Hx].
    cbn [app length]. rewrite Index_unfold.
    cbn [HasPrefix]. apply byte_eqb_neq in Hb as ->. cbn [andb].
    by rewrite IH.
Qed.

Lemma Index_absent x c sub : c ∉ x → Index x (c :: sub) = None.
Proof.
  intros Hx. induction x as [|b x IH]; [done|].
  apply not_elem_of_cons in Hx as [Hb Hx].
  rewrite Index_unfold. cbn [HasPrefix].
  apply byte_eqb_neq in Hb as ->. cbn [andb]. by rewrite IH.
Qed.

Lemma findMatchingParen_loop_skip x : ∀ y i depth,
  no_paren x = true →
  findMatchingParen_loop (x ++ y) i depth
  = findMatchingParen_loop y (i + length x) depth.
Proof.
  induction x as [|c x IH]; intros y i depth Hx.
  - cbn. f_equal. lia.
  - cbn in Hx. apply andb_prop in Hx as [Hc Hx].
    apply negb_true_iff, orb_false_iff in Hc as [Ho Hcl].
    cbn [app findMatchingParen_loop length]. rewrite Ho, Hcl, IH by done.
    f_equal. lia.
Qed.

Lemma findMatchingParen_at (content x z : gostring) i :
  content = x ++ "("%char :: z → i = length x →
  findMatchingParen content i = findMatchingParen_loop z (i + 1) 1.
Proof.
  intros -> ->. unfold findMatchingParen.
  rewrite list_lookup_middle, bool_decide_eq_true_2 by done.
  destruct (Nat.leb_spec (length (x ++ "("%char :: z)) (length x)) as [Hle|_].
  { rewrite length_app in Hle. cbn in Hle. lia. }
  cbn [orb negb]. f_equal.
  replace (length x + 1) with (length (x ++ ["("%char])) by (rewrite length_app; cbn; lia).
  rewrite (cons_middle _ x z), app_assoc. apply drop_app_length.
Qed.

Lemma findMatchingParen_loop_close w i :
  findMatchingParen_loop (go ")" ++ w) i 1 = Some i.
Proof. done. Qed.

(** An invocation whose parenthesis is never closed: no layer, and the
    scan goes on behind the parenthesis. *)
Lemma scan_unterminated fuel (content x u z : gostring) layers :
  content = x ++ u ++ go "ZMK_LAYER(" ++ z →
  "Z"%char ∉ u →
  (∀ i, findMatchingParen_loop z i 1 = None) →
  ParseKeymap_loop (S fuel) content (length x) layers
  = ParseKeymap_loop fuel content (length x + length u + 10) layers.
Proof.
  intros Hcontent Hu Hz. cbn [ParseKeymap_loop].
  assert (Hlen : length content
                 = length x + length u + 10 + length z).
  { rewrite Hcontent, !length_app. cbn. lia. }
  rewrite slice_from_Some by lia. step_bind.
  rewrite (drop_at content x (u ++ go "ZMK_LAYER(" ++ z)) by done.
  change (go "ZMK_LAYER") with ("Z"%char :: go "MK_LAYER").
  rewrite Index_skip by done.
  rewrite slice_from_Some by lia. step_bind.
  rewrite (drop_at content (x ++ u) (go "ZMK_LAYER(" ++ z))
    by (rewrite ?length_app, <- ?app_assoc; done || lia).
  change (Index (go "ZMK_LAYER(" ++ z) (go "(")) with (Some 9). step_bind.
  rewrite (findMatchingParen_at content (x ++ u ++ go "ZMK_LAYER") z);
    [ | by rewrite Hcontent, <- !app_assoc
      | rewrite !length_app; cbn; lia ].
  rewrite Hz. f_equal. lia.
Qed.

(** A well-formed invocation without inner parentheses. *)
Lemma scan_invocation fuel (content x u n k w : gostring) layers :
  content = x ++ u ++ go "ZMK_LAYER(" ++ n ++ go "," ++ k ++ go ")" ++ w →
  "Z"%char ∉ u → no_paren n = true → no_comma n = true →
  no_paren k = true →
  ParseKeymap_loop (S fuel) content (length x) layers
  = name ← formatLayerName (TrimSpace n);
    keys ← parseKeysFlat k;
    ParseKeymap_loop fuel content
      (length x + length u + 10 + length n + 1 + length k + 1)
      (append layers {| Layer_Name := name; Layer_Keys := keys;
                        Layer_CustomNames := Some ∅ |}).
Proof.
  intros Hcontent Hu Hn Hcomma Hk. cbn [ParseKeymap_loop].
  assert (Hlen : length content
                 = length x + length u + 10 + length n + 1 + length k + 1
                   + length w).
  { rewrite Hcontent, !length_app. cbn. lia. }
  rewrite slice_from_Some by lia. step_bind.
  rewrite (drop_at content x
             (u ++ go "ZMK_LAYER(" ++ n ++ go "," ++ k ++ go ")" ++ w))
    by done.
  change (go "ZMK_LAYER") with ("Z"%char :: go "MK_LAYER").
  rewrite Index_skip by done.
  rewrite slice_from_Some by lia. step_bind.
  rewrite (drop_at content (x ++ u)
             (go "ZMK_LAYER(" ++ n ++ go "," ++ k ++ go ")" ++ w))
    by (rewrite ?length_app, <- ?app_assoc; done || lia).
  change (Index (go "ZMK_LAYER(" ++ ?r) (go "(")) with (Some 9). step_bind.
  rewrite (findMatchingParen_at content (x ++ u ++ go "ZMK_LAYER")
             ((n ++ go "," ++ k) ++ go ")" ++ w));
    [ | by rewrite Hcontent, <- !app_assoc
      | rewrite !length_app; cbn; lia ].
  rewrite findMatchingParen_loop_skip
    by (rewrite !no_paren_app, Hn, Hk; done).
  rewrite findMatchingParen_loop_close.
  rewrite (slice_at content (x ++ u ++ go "ZMK_LAYER(") (n ++ go "," ++ k)
             (go ")" ++ w));
    [ | by rewrite Hcontent, <- !app_assoc
      | rewrite !length_app; cbn; lia
      | rewrite !length_app; cbn; lia ].
  step_bind.
  change (Index (n ++ go "," ++ k) (go ","))
    with (Index (n ++ go "," ++ k) [","%char]).
  rewrite (Index_skip n (go "," ++ k) "," []) by
    (done || by apply no_comma_notin).
  rewrite slice_to_Some, slice_from_Some by (rewrite !length_app; cbn; lia).
  step_bind. rewrite take_app_length.
  rewrite (drop_at (n ++ go "," ++ k) (n ++ go ",") k)
    by (rewrite ?length_app, <- ?app_assoc; done).
  destruct (formatLayerName (TrimSpace n)) as [name|]; [|done]. step_bind.
  destruct (parseKeysFlat k) as [keys|]; [|done]. step_bind.
  f_equal. rewrite !length_app. cbn. lia.
Qed.

(** Behind the last invocation. *)
Lemma scan_end fuel (content x w : gostring) layers :
  content = x ++ w → "Z"%char ∉ w →
  ParseKeymap_loop (S fuel) content (length x) layers = Some layers.
Proof.
  intros -> Hw. cbn [ParseKeymap_loop].
  rewrite slice_from_Some by (rewrite length_app; lia). step_bind.
  rewrite drop_app_length.
  change (go "ZMK_LAYER") with ("Z"%char :: go "MK_LAYER").
  by rewrite Index_absent.
Qed.

Lemma findMatchingParen_loop_open r i depth :
  findMatchingParen_loop (go "ZMK_LAYER(" ++ r) i depth
  = findMatchingParen_loop r (10 + i) (depth + 1).
Proof. done. Qed.

Lemma findMatchingParen_loop_inner w i :
  findMatchingParen_loop (go ")" ++ w) i 2 = findMatchingParen_loop w (S i) 1.
Proof. done. Qed.

Lemma findMatchingParen_loop_plain w i depth :
  no_paren w = true → findMatchingParen_loop w i depth = None.
Proof.
  intros Hw. rewrite <- (app_nil_r w).
  by rewrite findMatchingParen_loop_skip.
Qed.

Lemma unterminated_then_invocation (a n k post : gostring) i :
  no_paren a = true → no_paren n = true → no_paren k = true →
  no_paren post = true →
  findMatchingParen_loop
    (a ++ go "ZMK_LAYER(" ++ n ++ go "," ++ k ++ go ")" ++ post) i 1 = None.
Proof.
  intros Ha Hn Hk Hpost.
  rewrite findMatchingParen_loop_skip, findMatchingParen_loop_open by done.
  replace (n ++ go "," ++ k ++ go ")" ++ post)
    with ((n ++ go "," ++ k) ++ go ")" ++ post) by by rewrite <- !app_assoc.
  rewrite findMatchingParen_loop_skip
    by (rewrite !no_paren_app, Hn, Hk; done).
  change (1 + 1)%Z with 2%Z.
  rewrite findMatchingParen_loop_inner.
  by apply findMatchingParen_loop_plain.
Qed.

(** C2. [ParseKeymap] returns a keymap and no error on every text, and
    never panics.  An invocation whose parenthesis is not closed gives no
    layer, and the scan goes on one position behind that parenthesis.  So
    a text made of an unterminated invocation followed by a well-formed
    one (plain text around and inside them: no parentheses and no letter
    [Z]; a layer name without comma; names and bindings in ASCII) gives
    exactly one layer, that of the well-formed invocation; such is
    [ZMK_LAYER(foo, &kp A ZMK_LAYER(bar, &kp B)]. *)
Theorem unterminated_invocation_is_skipped :
  (∀ content name,
     ∃ km, ParseKeymap content name = Some (Some km, None)
           ∧ Keymap_Name km = name)
  ∧ (∀ fuel content idx layers start paren,
       idx ≤ length content →
       Index (drop idx content) (go "ZMK_LAYER") = Some start →
       Index (drop (start + idx) content) (go "(") = Some paren →
       findMatchingParen content (paren + (start + idx)) = None →
       ParseKeymap_loop (S fuel) content idx layers
       = ParseKeymap_loop fuel content (paren + (start + idx) + 1) layers)
  ∧ (∀ pre a n k post name,
       plain pre = true → plain a = true → plain n = true →
       no_comma n = true → plain k = true → plain post = true →
       ascii_text n → ascii_text k →
       ∃ layer_name keys,
         formatLayerName (TrimSpace n) = Some layer_name
         ∧ parseKeysFlat k = Some keys
         ∧ ParseKeymap
             (pre ++ go "ZMK_LAYER(" ++ a
                  ++ go "ZMK_LAYER(" ++ n ++ go "," ++ k ++ go ")" ++ post)
             name
           = Some (Some {| Keymap_Name := name;
                           Keymap_Layers :=
                             Slice [ {| Layer_Name := layer_name;
                                        Layer_Keys := keys;
                                        Layer_CustomNames := Some ∅ |} ];
                           Keymap_Layout := None |},
                   None))
  ∧ (∀ name,
       ParseKeymap (go "ZMK_LAYER(foo, &kp A ZMK_LAYER(bar, &kp B)") name
       = Some (Some {| Keymap_Name := name;
                       Keymap_Layers :=
                         Slice [ {| Layer_Name := go "Bar";
                                    Layer_Keys := Slice [go "B"];
                                    Layer_CustomNames := Some ∅ |} ];
                       Keymap_Layout := None |},
               None)).
Proof.
  split; [|split; [|split]].
  - intros content name.
    destruct (ParseKeymap_total content name) as (layers & -> & _). eauto.
  - intros fuel content idx layers start paren Hidx Hstart Hparen Hend.
    cbn [ParseKeymap_loop]. rewrite slice_from_Some by done. step_bind.
    rewrite Hstart. pose proof (Index_bound _ _ _ Hstart) as Hb.
    rewrite length_drop in Hb. cbn in Hb.
    rewrite slice_from_Some by lia. step_bind. by rewrite Hparen, Hend.
  - intros pre a n k post name Hpre Ha Hn Hcomma Hk Hpost _ _.
    destruct (parseKeysFlat_total k) as [keys Hkeys].
    eexists _, keys. split; [apply formatLayerName_map|]. split; [done|].
    set (content := pre ++ _).
    assert (Hfuel : ∃ fuel, S (length content) = S (S (S fuel))).
    { exists (length content - 2). unfold content.
      rewrite !length_app. cbn. lia. }
    destruct Hfuel as [fuel Hfuel]. unfold ParseKeymap. rewrite Hfuel.
    rewrite (scan_unterminated _ content [] pre
               (a ++ go "ZMK_LAYER(" ++ n ++ go "," ++ k ++ go ")" ++ post));
      [ | done | by apply plain_no_Z
        | intros i; apply unterminated_then_invocation;
          by apply plain_no_paren ].
    replace (length [] + length pre + 10)
      with (length (pre ++ go "ZMK_LAYER("))
      by (rewrite length_app; cbn; lia).
    rewrite (scan_invocation _ content (pre ++ go "ZMK_LAYER(") a n k post);
      [ | by unfold content; rewrite <- !app_assoc
        | by apply plain_no_Z | by apply plain_no_paren | done
        | by apply plain_no_paren ].
    rewrite formatLayerName_map, Hkeys. step_bind.
    match goal with |- context [ParseKeymap_loop (S fuel) content ?i ?l] =>
      replace i with
        (length (pre ++ go "ZMK_LAYER(" ++ a
                     ++ go "ZMK_LAYER(" ++ n ++ go "," ++ k ++ go ")"))
        by (rewrite !length_app; cbn; lia)
    end.
    rewrite (scan_end _ content _ post);
      [ done | by unfold content; rewrite <- !app_assoc
      | by apply plain_no_Z ].
  - intros name. by vm_compute.
Qed.

(** Text, an unterminated invocation, a well-formed one, text. *)
Lemma unterminated_invocation_is_skipped_witness :
  ParseKeymap
    (go "/* draft */ ZMK_LAYER(nav, &kp LEFT ZMK_LAYER(num_pad, &kp N1 &kp N2) // end")
    (go "k")
  = Some (Some {| Keymap_Name := go "k";
                  Keymap_Layers :=
                    Slice [ {| Layer_Name := go "Num Pad";
                               Layer_Keys := Slice [go "1"; go "2"];
                               Layer_CustomNames := Some ∅ |} ];
                  Keymap_Layout := None |},
          None).
Proof.
  destruct unterminated_invocation_is_skipped as (_ & _ & Hfamily & _).
  assert (Hascii : ∀ s, forallb (λ c, (code c <? 128)%N) s = true → ascii_text s).
  { intros s Hs. apply Forall_forall. intros c Hc.
    rewrite forallb_forall in Hs. apply N.ltb_lt, Hs. by apply list_elem_of_In. }
  destruct (Hfamily (go "/* draft */ ") (go "nav, &kp LEFT ") (go "num_pad")
              (go " &kp N1 &kp N2") (go " // end") (go "k"))
    as (layer_name & keys & Hname & Hkeys & Hparse);
    [ reflexivity | reflexivity | reflexivity | reflexivity | reflexivity
    | reflexivity | by apply Hascii | by apply Hascii | ].
  vm_compute in Hname. vm_compute in Hkeys.
  injection Hname as <-. injection Hkeys as <-. exact Hparse.
Defined.

(* ===================================================================== *)
(** * Properties of [layout.go] *)
(* ===================================================================== *)

(** ** The invariant of the scan *)

Lemma wrap_int_succ (n : Z) : wrap_int (wrap_int n + 1) = wrap_int (n + 1).
Proof.
  unfold wrap_int.
  replace ((n + 2 ^ 63) `mod` 2 ^ 64 - 2 ^ 63 + 1 + 2 ^ 63)%Z
    with ((n + 2 ^ 63) `mod` 2 ^ 64 + 1)%Z by lia.
  rewrite Zplus_mod_idemp_l. f_equal. f_equal. lia.
Qed.

Lemma wrap_int_small (n : Z) : (- 2 ^ 63 <= n < 2 ^ 63)%Z → wrap_int n = n.
Proof.
  intros Hn. unfold wrap_int. rewrite Z.mod_small; lia.
Qed.

Lemma with_field_keys v k f st :
  (∀ st x, layout_Keys (f st x) = layout_Keys st) →
  (∀ st x, keyIndex (f st x) = keyIndex st) →
  layout_Keys (with_field v k f st) = layout_Keys st
  ∧ keyIndex (with_field v k f st) = keyIndex st.
Proof.
  intros Hk Hi. unfold with_field. destruct (float64_at v k); auto.
Qed.

Lemma modifier_keys v st :
  layout_Keys (modifier v st) = layout_Keys st
  ∧ keyIndex (modifier v st) = keyIndex st.
Proof.
  unfold modifier.
  repeat match goal with
  | |- context [with_field v ?k ?f ?s] =>
      let H := fresh in
      destruct (with_field_keys v k f s) as [-> ->]; [done | done |]
  end.
  done.
Qed.

Lemma place_key_indexed st : indexed st → indexed (place_key st).
Proof.
  intros [Hc Hk]. split.
  - cbn. unfold len in *. cbn. rewrite length_app. cbn.
    rewrite Hc, wrap_int_succ. f_equal. lia.
  - cbn. intros i k Hi.
    destruct (decide (i < length (elems (layout_Keys st)))) as [Hlt|Hge].
    + rewrite lookup_app_l in Hi by done. eauto.
    + rewrite lookup_app_r in Hi by lia.
      destruct (i - length (elems (layout_Keys st))) as [|j] eqn:Hj;
        cbn in Hi; [|done].
      injection Hi as <-. cbn. rewrite Hc. unfold len. f_equal. lia.
Qed.

Lemma item_step_indexed st item : indexed st → indexed (item_step st item).
Proof.
  intros Hst. destruct item; cbn; try done.
  - by apply place_key_indexed.
  - destruct (modifier_keys m st) as [Hk Hi].
    destruct Hst as [Hc Hks]. split; unfold len in *; rewrite ?Hk, ?Hi; done.
Qed.

Lemma items_loop_indexed items : ∀ st, indexed st → indexed (items_loop st items).
Proof.
  unfold items_loop.
  induction items as [|item items IH]; intros st Hst; cbn; [done|].
  apply IH. by apply item_step_indexed.
Qed.

Lemma row_step_indexed st row : indexed st → indexed (row_step st row).
Proof.
  intros Hst. destruct row; cbn; try done.
  apply items_loop_indexed. exact Hst.
Qed.

Lemma rows_loop_indexed raw : ∀ st, indexed st → indexed (rows_loop st raw).
Proof.
  unfold rows_loop.
  induction (elems raw) as [|row rows IH]; intros st Hst; cbn; [done|].
  apply IH. by apply row_step_indexed.
Qed.

Lemma initial_state_indexed : indexed initial_state.
Proof. split; [done|]. intros i k Hi. destruct i; cbn in Hi; done. Qed.

Lemma place_key_len st :
  len (layout_Keys (place_key st)) = S (len (layout_Keys st)).
Proof. unfold len. cbn. rewrite length_app. cbn. lia. Qed.

Lemma items_loop_len items : ∀ st,
  len (layout_Keys (items_loop st items))
  = len (layout_Keys st) + length (filter (λ i, is_key i = true) items).
Proof.
  unfold items_loop.
  induction items as [|item items IH]; intros st; cbn [fold_left];
    [rewrite filter_nil; cbn; lia|].
  rewrite IH. destruct item; cbn [item_step is_key];
    rewrite ?filter_cons_True, ?filter_cons_False by done; cbn [length]; try lia.
  - rewrite place_key_len. lia.
  - destruct (modifier_keys m st) as [-> _]. lia.
Qed.

Lemma rows_loop_len raw : ∀ st,
  len (layout_Keys (rows_loop st raw))
  = len (layout_Keys st) + placeholders (elems raw).
Proof.
  unfold rows_loop, placeholders.
  induction (elems raw) as [|row rows IH]; intros st;
    cbn [fold_left map concat]; [cbn; lia|].
  rewrite IH, length_app. destruct row; cbn [row_step length]; try lia.
  rewrite items_loop_len. unfold len. cbn. lia.
Qed.

Lemma ParseKLELayout_ok data name layout e :
  ParseKLELayout data name = (Some layout, e) →
  ∃ raw, Unmarshal data = (None, raw) ∧ e = None
         ∧ Layout_Name layout = name
         ∧ Layout_Keys layout = layout_Keys (rows_loop initial_state raw).
Proof.
  unfold ParseKLELayout. destruct (Unmarshal data) as [[err|] raw]; [done|].
  intros [= <- <-]. eauto.
Qed.

(** C8. On every layout description that [ParseKLELayout] accepts, the key
    at position [i] of the result has index [i] (the number of keys being
    below 2^63, as the length of a Go slice is): the indices start at 0,
    are dense and pairwise different, and there is one key per placeholder
    of the rows, in the order of the scan. *)
Theorem index_is_position data name layout :
  ParseKLELayout data name = (Some layout, None) →
  (Z.of_nat (len (Layout_Keys layout)) < 2 ^ 63)%Z →
  (∀ (i : nat) k, elems (Layout_Keys layout) !! i = Some k →
                  Key_Index k = Z.of_nat i)
  ∧ NoDup (map Key_Index (elems (Layout_Keys layout)))
  ∧ len (Layout_Keys layout) = placeholders (elems (Unmarshal data).2).
Proof.
  intros Hparse Hlen.
  destruct (ParseKLELayout_ok _ _ _ _ Hparse) as (raw & Hraw & _ & _ & Hkeys).
  rewrite Hkeys in *. clear Hkeys Hparse.
  destruct (rows_loop_indexed raw _ initial_state_indexed) as [_ Hidx].
  assert (Hpos : ∀ (i : nat) k,
             elems (layout_Keys (rows_loop initial_state raw)) !! i = Some k →
             Key_Index k = Z.of_nat i).
  { intros i k Hi. rewrite (Hidx i k Hi).
    apply lookup_lt_Some in Hi. unfold len in Hlen.
    apply wrap_int_small. lia. }
  split; [exact Hpos|]. split.
  - apply NoDup_alt. intros i j z Hi Hj.
    rewrite list_lookup_fmap in Hi, Hj.
    destruct (elems _ !! i) as [ki|] eqn:Hki; [|done].
    destruct (elems _ !! j) as [kj|] eqn:Hkj; [|done].
    cbn in Hi, Hj. injection Hi as Hi. injection Hj as Hj.
    apply Hpos in Hki, Hkj. lia.
  - rewrite Hraw. cbn. by rewrite rows_loop_len.
Qed.

(** A description with a metadata object, two keys and a modifier between
    them. *)
Lemma index_is_position_witness :
  let data :=
    Text (Array [Object ∅;
                 Array [String_ (go "Esc");
                        Object {[ go "w" := Float64 2 ]};
                        String_ (go "Tab")]]) in
  ∃ layout,
    ParseKLELayout data (go "kbd") = (Some layout, None)
    ∧ map Key_Index (elems (Layout_Keys layout)) = [0%Z; 1%Z]
    ∧ ∀ (i : nat) k, elems (Layout_Keys layout) !! i = Some k →
                     Key_Index k = Z.of_nat i.
Proof.
  intros data. eexists. split; [vm_compute; reflexivity|].
  split; [reflexivity|].
  apply (index_is_position data (go "kbd")); vm_compute; reflexivity.
Defined.

(** C4. A key takes the cursor as it stands, with Y one below the current
    Y (which the start of the row raised by one); the cursor then moves
    right by the width and the size is back to 1 by 1.  The row
    [["A","B"]] gives the keys 0 at (0,0) and 1 at (1,0), both 1 by 1; and
    a modifier [{"w":2}] before a key makes that key 2 wide, the next key
    being 1 wide and 2 further right. *)
Theorem key_placement :
  (∀ st s,
     let st' := item_step st (String_ s) in
     elems (layout_Keys st')
     = elems (layout_Keys st)
       ++ [ {| Key_X := currentX st; Key_Y := currentY st - 1;
               Key_W := currentW st; Key_H := currentH st;
               Key_R := currentR st; Key_RX := currentRX st;
               Key_RY := currentRY st; Key_Index := keyIndex st |} ]
     ∧ currentX st' = (currentX st + currentW st)%float
     ∧ currentW st' = 1%float ∧ currentH st' = 1%float)
  ∧ (∀ st s items,
       ∃ st',
         row_step st (Array (String_ s :: items)) = items_loop st' items
         ∧ ∃ k, elems (layout_Keys st') = elems (layout_Keys st) ++ [k]
                ∧ Key_Y k = (currentY st + 1 - 1)%float
                ∧ Key_X k = currentRX st)
  ∧ (∀ name,
       ParseKLELayout
         (Text (Array [Array [String_ (go "A"); String_ (go "B")]])) name
       = (Some {| Layout_Name := name;
                  Layout_Keys :=
                    Slice [ {| Key_X := 0; Key_Y := 0; Key_W := 1; Key_H := 1;
                               Key_R := 0; Key_RX := 0; Key_RY := 0;
                               Key_Index := 0 |};
                            {| Key_X := 1; Key_Y := 0; Key_W := 1; Key_H := 1;
                               Key_R := 0; Key_RX := 0; Key_RY := 0;
                               Key_Index := 1 |} ] |},
          None))
  ∧ (∀ st a b items,
       ∃ k1 k2 st',
         items_loop st (Object {[ go "w" := Float64 2 ]}
                          :: String_ a :: String_ b :: items)
         = items_loop st' items
         ∧ elems (layout_Keys st') = elems (layout_Keys st) ++ [k1; k2]
         ∧ Key_W k1 = 2%float ∧ Key_X k1 = currentX st
         ∧ Key_W k2 = 1%float ∧ Key_X k2 = (Key_X k1 + 2)%float
         ∧ currentW st' = 1%float).
Proof.
  split; [|split; [|split]].
  - intros st s. cbn. done.
  - intros st s items. eexists. split; [reflexivity|].
    eexists. split; [reflexivity|]. split; reflexivity.
  - intros name. reflexivity.
  - intros st a b items. do 3 eexists. split; [reflexivity|].
    split.
    { unfold items_loop.
      cbn [fold_left item_step place_key layout_Keys append elems].
      rewrite <- app_assoc. reflexivity. }
    repeat split; reflexivity.
Qed.






(* ===================================================================== *)
(** * Further properties of [keymap.go] *)
(* ===================================================================== *)

(** ** [findMatchingParen] finds the partner *)

Lemma depth_app s t : depth (s ++ t) = (depth s + depth t)%Z.
Proof.
  induction s as [|c s IH]; [done|]. cbn [app depth]. rewrite IH. lia.
Qed.

Lemma no_paren_depth s : no_paren s = true → depth s = 0%Z.
Proof.
  induction s as [|c s IH]; [done|]. cbn [no_paren forallb depth].
  intros [Hc Hs]%andb_prop.
  apply negb_true_iff, orb_false_iff in Hc as [-> ->].
  fold (no_paren s) in Hs. rewrite IH by done. done.
Qed.

(** The loop returns the first position at which the depth, started at
    [d], comes down to 0. *)
Lemma findMatchingParen_loop_Some rest : ∀ i d e,
  (1 ≤ d)%Z →
  findMatchingParen_loop rest i d = Some e →
  ∃ k, e = i + k ∧ rest !! k = Some ")"%char
       ∧ (d + depth (take k rest) = 1)%Z
       ∧ ∀ j, j ≤ k → (1 ≤ d + depth (take j rest))%Z.
Proof.
  induction rest as [|c rest IH]; intros i d e Hd; [done|].
  cbn [findMatchingParen_loop].
  destruct (byte_eqb c "(") eqn:Ho.
  - intros (k & -> & Hk & Hdep & Hpre)%IH; [|lia].
    exists (S k). cbn [take depth lookup]. rewrite Ho.
    split; [lia|]. split; [done|]. split; [lia|].
    intros [|j] Hj; cbn [take depth]; [lia|]. rewrite Ho.
    specialize (Hpre j). lia.
  - destruct (byte_eqb c ")") eqn:Hc.
    + destruct (Z.eqb_spec (d - 1) 0) as [Hz|Hz].
      * intros [= <-]. exists 0. apply byte_eqb_eq in Hc as ->.
        split; [lia|]. split; [done|]. cbn. split; [lia|].
        intros j Hj. replace j with 0 by lia. cbn. lia.
      * intros (k & -> & Hk & Hdep & Hpre)%IH; [|lia].
        exists (S k). cbn [take depth lookup]. rewrite Ho, Hc.
        split; [lia|]. split; [done|]. split; [lia|].
        intros [|j] Hj; cbn [take depth]; [lia|]. rewrite Ho, Hc.
        specialize (Hpre j). lia.
    + intros (k & -> & Hk & Hdep & Hpre)%IH; [|lia].
      exists (S k). cbn [take depth lookup]. rewrite Ho, Hc.
      split; [lia|]. split; [done|]. split; [lia|].
      intros [|j] Hj; cbn [take depth]; [lia|]. rewrite Ho, Hc.
      specialize (Hpre j). lia.
Qed.

Lemma findMatchingParen_loop_None rest : ∀ i d,
  (1 ≤ d)%Z →
  findMatchingParen_loop rest i d = None →
  ∀ j, (1 ≤ d + depth (take j rest))%Z.
Proof.
  induction rest as [|c rest IH]; intros i d Hd.
  - intros _ j. destruct j; cbn; lia.
  - cbn [findMatchingParen_loop].
    destruct (byte_eqb c "(") eqn:Ho; [|destruct (byte_eqb c ")") eqn:Hc;
      [destruct (Z.eqb_spec (d - 1) 0) as [Hz|Hz]; [done|]|]];
      intros Hnone [|j]; cbn [take depth]; rewrite ?Ho, ?Hc; try lia;
      match type of Hnone with findMatchingParen_loop _ _ ?d' = None =>
        specialize (IH _ d' ltac:(lia) Hnone j) end; lia.
Qed.

(** Over text in which the depth stays up, the loop runs through. *)
Lemma findMatchingParen_loop_through x : ∀ y i d,
  (∀ j, (1 ≤ d + depth (take j x))%Z) →
  findMatchingParen_loop (x ++ y) i d
  = findMatchingParen_loop y (i + length x) (d + depth x).
Proof.
  induction x as [|c x IH]; intros y i d Hup.
  - cbn. f_equal; lia.
  - cbn [app findMatchingParen_loop length depth].
    pose proof (Hup 1) as H1.
    assert (Hnext : ∀ j,
              (1 ≤ d + (if byte_eqb c "(" then 1
                        else if byte_eqb c ")" then -1 else 0)
                   + depth (take j x))%Z).
    { intros j. specialize (Hup (S j)). cbn [take depth] in Hup. lia. }
    cbn [take depth] in H1. revert H1 Hnext.
    destruct (byte_eqb c "(") eqn:Ho; [|destruct (byte_eqb c ")") eqn:Hc];
      intros H1 Hnext; rewrite take_0 in H1; cbn [depth] in H1.
    + rewrite IH by (intros j; specialize (Hnext j); lia). f_equal; lia.
    + destruct (Z.eqb_spec (d - 1) 0) as [Hz|Hz]; [lia|].
      rewrite IH by (intros j; specialize (Hnext j); lia). f_equal; lia.
    + rewrite IH by (intros j; specialize (Hnext j); lia). f_equal; lia.
Qed.

Lemma findMatchingParen_guard s i :
  ((length s <=? i) || negb (bool_decide (s !! i = Some "("%char))) = false
  ↔ s !! i = Some "("%char.
Proof.
  rewrite orb_false_iff, negb_false_iff, bool_decide_eq_true, Nat.leb_gt.
  split; [by intros [_ ?]|]. intros Hi. split; [|done].
  by apply lookup_lt_Some in Hi.
Qed.

(** X1. [findMatchingParen] returns the position of the parenthesis that
    closes the one at [startIdx]: the text between the two is balanced.
    It returns -1 exactly when [startIdx] does not hold an opening
    parenthesis or that parenthesis is never closed. *)
Theorem findMatchingParen_partner (s : gostring) (i : nat) :
  (∀ e, findMatchingParen s i = Some e →
        s !! i = Some "("%char ∧ s !! e = Some ")"%char ∧ i < e
        ∧ balanced (take (e - (i + 1)) (drop (i + 1) s)))
  ∧ (findMatchingParen s i = None
     ↔ s !! i ≠ Some "("%char ∨ never_closes (drop (i + 1) s)).
Proof.
  unfold findMatchingParen.
  destruct (_ || _) eqn:Hguard.
  - assert (Hi : s !! i ≠ Some "("%char).
    { intros Hi%findMatchingParen_guard. congruence. }
    split; [done|]. split; auto.
  - apply findMatchingParen_guard in Hguard. split.
    + intros e (k & -> & Hk & Hdep & Hpre)%findMatchingParen_loop_Some; [|lia].
      rewrite lookup_drop in Hk.
      replace (i + 1 + k - (i + 1)) with k by lia.
      repeat split; [done|done|lia|lia|].
      intros j. rewrite take_take.
      specialize (Hpre (j `min` k)). lia.
    + split.
      * intros Hnone. right. intros j.
        pose proof (findMatchingParen_loop_None _ _ 1%Z ltac:(lia) Hnone j).
        lia.
      * intros [Hi|Hopen]; [done|].
        destruct (findMatchingParen_loop _ _ _) as [e|] eqn:Hloop; [|done].
        apply findMatchingParen_loop_Some in Hloop
          as (k & -> & Hk & Hdep & _); [|lia].
        specialize (Hopen (S k)).
        rewrite (take_S_r _ _ _ Hk), depth_app in Hopen. cbn in Hopen. lia.
Qed.

(** The parenthesis at 9 is closed at 31, behind the inner pair; the one
    at 0 of the second text is never closed. *)
Lemma findMatchingParen_partner_witness :
  findMatchingParen (go "ZMK_LAYER(nav, &mt(LSHIFT, TAB)) rest") 9 = Some 31
  ∧ balanced (go "nav, &mt(LSHIFT, TAB)")
  ∧ findMatchingParen (go "(a (b) c") 0 = None.
Proof.
  destruct (findMatchingParen_partner
              (go "ZMK_LAYER(nav, &mt(LSHIFT, TAB)) rest") 9) as [Hsome _].
  destruct (Hsome 31 eq_refl) as (_ & _ & _ & Hbal).
  split; [reflexivity|]. split; [exact Hbal|].
  apply (findMatchingParen_partner (go "(a (b) c") 0). right.
  intros k. do 9 (destruct k as [|k]; [by vm_compute|]). by vm_compute.
Defined.

(** ** [ParseKeymap] over a sequence of invocations *)

Lemma no_paren_take s k : no_paren s = true → no_paren (take k s) = true.
Proof.
  unfold no_paren. rewrite !forallb_forall. intros Hs c Hc.
  apply Hs. apply list_elem_of_In. apply list_elem_of_In in Hc.
  apply elem_of_take in Hc as (i & Hi & _). by eapply list_elem_of_lookup_2.
Qed.

Lemma no_paren_never_closes s : no_paren s = true → never_closes s.
Proof.
  intros Hs k. by rewrite no_paren_depth by by apply no_paren_take.
Qed.

Lemma never_closes_depth s : never_closes s → (0 ≤ depth s)%Z.
Proof. intros Hs. specialize (Hs (length s)). by rewrite firstn_all in Hs. Qed.

Lemma never_closes_app s t :
  never_closes s → never_closes t → never_closes (s ++ t).
Proof.
  intros Hs Ht k. rewrite take_app, depth_app.
  destruct (decide (k ≤ length s)) as [Hk|Hk].
  - replace (k - length s) with 0 by lia. rewrite take_0, Z.add_0_r. apply Hs.
  - rewrite take_ge by lia. pose proof (never_closes_depth s Hs).
    specialize (Ht (k - length s)). lia.
Qed.

Lemma comma_no_paren : no_paren (go ",") = true.
Proof. done. Qed.

(** Inside the parentheses of an invocation the depth stays up, and the
    closing parenthesis brings it down. *)
Lemma findMatchingParen_loop_inside (inner w : gostring) i :
  balanced inner →
  findMatchingParen_loop (inner ++ go ")" ++ w) i 1 = Some (i + length inner).
Proof.
  intros [Hdepth Hopen].
  rewrite findMatchingParen_loop_through
    by (intros j; specialize (Hopen j); lia).
  rewrite Hdepth. apply findMatchingParen_loop_close.
Qed.

Lemma balanced_name_args name args :
  no_paren name = true → balanced args → balanced (name ++ go "," ++ args).
Proof.
  intros Hn [Hd Ho]. split.
  - rewrite !depth_app, Hd, !no_paren_depth by done. done.
  - apply never_closes_app; [by apply no_paren_never_closes|].
    apply never_closes_app; [by apply no_paren_never_closes|done].
Qed.

(** A layer invocation: one layer, and the scan goes on behind it. *)
Lemma scan_layer_invocation fuel (content x u n k w : gostring) layers :
  content = x ++ invocation_text (LayerInvocation u n k) ++ w →
  well_formed (LayerInvocation u n k) →
  ParseKeymap_loop (S fuel) content (length x) layers
  = name ← formatLayerName (TrimSpace n);
    keys ← parseKeysFlat k;
    ParseKeymap_loop fuel content
      (length (x ++ invocation_text (LayerInvocation u n k)))
      (append layers {| Layer_Name := name; Layer_Keys := keys;
                        Layer_CustomNames := Some ∅ |}).
Proof.
  cbn [invocation_text well_formed].
  intros Hcontent (Hu & Hn & Hcomma & Hk). cbn [ParseKeymap_loop].
  assert (Hlen : length content
                 = length x + length u + 10 + length n + 1 + length k + 1
                   + length w).
  { rewrite Hcontent, !length_app. cbn. lia. }
  rewrite slice_from_Some by lia. step_bind.
  rewrite (drop_at content x
             (u ++ go "ZMK_LAYER(" ++ n ++ go "," ++ k ++ go ")" ++ w))
    by (rewrite ?Hcontent, <- ?app_assoc; done).
  change (go "ZMK_LAYER") with ("Z"%char :: go "MK_LAYER").
  rewrite Index_skip by done.
  rewrite slice_from_Some by lia. step_bind.
  rewrite (drop_at content (x ++ u)
             (go "ZMK_LAYER(" ++ n ++ go "," ++ k ++ go ")" ++ w))
    by (rewrite ?Hcontent, ?length_app, <- ?app_assoc; done || lia).
  change (Index (go "ZMK_LAYER(" ++ ?r) (go "(")) with (Some 9). step_bind.
  rewrite (findMatchingParen_at content (x ++ u ++ go "ZMK_LAYER")
             ((n ++ go "," ++ k) ++ go ")" ++ w));
    [ | by rewrite Hcontent, <- !app_assoc
      | rewrite !length_app; cbn; lia ].
  rewrite findMatchingParen_loop_inside by by apply balanced_name_args.
  rewrite (slice_at content (x ++ u ++ go "ZMK_LAYER(") (n ++ go "," ++ k)
             (go ")" ++ w));
    [ | by rewrite Hcontent, <- !app_assoc
      | rewrite !length_app; cbn; lia
      | rewrite !length_app; cbn; lia ].
  step_bind.
  change (Index (n ++ go "," ++ k) (go ","))
    with (Index (n ++ go "," ++ k) [","%char]).
  rewrite (Index_skip n (go "," ++ k) "," []) by
    (done || by apply no_comma_notin).
  rewrite slice_to_Some, slice_from_Some by (rewrite !length_app; cbn; lia).
  step_bind. rewrite take_app_length.
  rewrite (drop_at (n ++ go "," ++ k) (n ++ go ",") k)
    by (rewrite ?length_app, <- ?app_assoc; done).
  destruct (formatLayerName (TrimSpace n)) as [name|]; [|done]. step_bind.
  destruct (parseKeysFlat k) as [keys|]; [|done]. step_bind.
  f_equal. rewrite !length_app. cbn. lia.
Qed.

(** An invocation without comma: no layer, and the scan goes on behind
    it. *)
Lemma scan_no_comma fuel (content x u inner w : gostring) layers :
  content = x ++ invocation_text (NoComma u inner) ++ w →
  well_formed (NoComma u inner) →
  ParseKeymap_loop (S fuel) content (length x) layers
  = ParseKeymap_loop fuel content
      (length (x ++ invocation_text (NoComma u inner))) layers.
Proof.
  cbn [invocation_text well_formed].
  intros Hcontent (Hu & Hcomma & Hbal). cbn [ParseKeymap_loop].
  assert (Hlen : length content
                 = length x + length u + 10 + length inner + 1 + length w).
  { rewrite Hcontent, !length_app. cbn. lia. }
  rewrite slice_from_Some by lia. step_bind.
  rewrite (drop_at content x (u ++ go "ZMK_LAYER(" ++ inner ++ go ")" ++ w))
    by (rewrite ?Hcontent, <- ?app_assoc; done).
  change (go "ZMK_LAYER") with ("Z"%char :: go "MK_LAYER").
  rewrite Index_skip by done.
  rewrite slice_from_Some by lia. step_bind.
  rewrite (drop_at content (x ++ u) (go "ZMK_LAYER(" ++ inner ++ go ")" ++ w))
    by (rewrite ?Hcontent, ?length_app, <- ?app_assoc; done || lia).
  change (Index (go "ZMK_LAYER(" ++ ?r) (go "(")) with (Some 9). step_bind.
  rewrite (findMatchingParen_at content (x ++ u ++ go "ZMK_LAYER")
             (inner ++ go ")" ++ w));
    [ | by rewrite Hcontent, <- !app_assoc
      | rewrite !length_app; cbn; lia ].
  rewrite findMatchingParen_loop_inside by done.
  rewrite (slice_at content (x ++ u ++ go "ZMK_LAYER(") inner (go ")" ++ w));
    [ | by rewrite Hcontent, <- !app_assoc
      | rewrite !length_app; cbn; lia
      | rewrite !length_app; cbn; lia ].
  step_bind.
  change (go ",") with [","%char].
  rewrite Index_absent by by apply no_comma_notin.
  f_equal. rewrite !length_app. cbn. lia.
Qed.

Lemma extend_Slice {A} (ls l : list A) : extend (Slice l) ls = Slice (l ++ ls).
Proof.
  revert l. induction ls as [|a ls IH]; intros l; cbn.
  - by rewrite app_nil_r.
  - unfold extend in IH. unfold append at 2. cbn [elems].
    rewrite IH. by rewrite <- app_assoc.
Qed.

Lemma expected_layers_total vs : ∃ ls, expected_layers vs = Some ls.
Proof.
  induction vs as [|[u n k|u x] vs [ls IH]]; cbn [expected_layers]; eauto.
  rewrite formatLayerName_map. step_bind.
  destruct (parseKeysFlat_total k) as [keys ->]. step_bind.
  rewrite IH. step_bind. eauto.
Qed.

Lemma scan_invocations vs : ∀ fuel content x rest layers,
  content = x ++ keymap_text vs rest →
  Forall well_formed vs →
  ParseKeymap_loop (length vs + fuel) content (length x) layers
  = ls ← expected_layers vs;
    ParseKeymap_loop fuel content
      (length (x ++ concat (map invocation_text vs))) (extend layers ls).
Proof.
  induction vs as [|v vs IH]; intros fuel content x rest layers Hcontent Hwf.
  - cbn. by rewrite app_nil_r.
  - apply Forall_cons in Hwf as [Hv Hvs].
    assert (Hnext : content = (x ++ invocation_text v) ++ keymap_text vs rest).
    { rewrite Hcontent. unfold keymap_text. cbn [map concat].
      by rewrite <- !app_assoc. }
    assert (Hpos : x ++ concat (map invocation_text (v :: vs))
                   = (x ++ invocation_text v) ++ concat (map invocation_text vs)).
    { cbn [map concat]. by rewrite app_assoc. }
    rewrite Hpos. cbn [length Nat.add expected_layers].
    destruct v as [u n k|u inner].
    + rewrite (scan_layer_invocation _ content x u n k (keymap_text vs rest));
        [ | rewrite Hnext; by rewrite <- !app_assoc | done ].
      destruct (formatLayerName (TrimSpace n)) as [name|]; [|done]. step_bind.
      destruct (parseKeysFlat k) as [keys|]; [|done]. step_bind.
      rewrite (IH fuel content _ rest _ Hnext Hvs).
      by destruct (expected_layers vs).
    + rewrite (scan_no_comma _ content x u inner (keymap_text vs rest));
        [ | rewrite Hnext; by rewrite <- !app_assoc | done ].
      by rewrite (IH fuel content _ rest _ Hnext Hvs).
Qed.

Lemma invocation_text_length v : 1 ≤ length (invocation_text v).
Proof. destruct v; cbn; rewrite !length_app; cbn; lia. Qed.

Lemma keymap_text_length vs rest : length vs ≤ length (keymap_text vs rest).
Proof.
  unfold keymap_text. rewrite length_app.
  induction vs as [|v vs IH]; cbn [map concat length]; [lia|].
  rewrite length_app. pose proof (invocation_text_length v). lia.
Qed.

(** X2. A keymap text made of well-formed invocations (and text without
    the letter [Z] around them) gives one layer for each invocation that
    has a comma, in the order of the text, and none for an invocation
    without comma; parentheses nested in the arguments do not matter. *)
Theorem ParseKeymap_one_layer_per_invocation
    (vs : list invocation) (rest name : gostring) :
  Forall well_formed vs → "Z"%char ∉ rest →
  ∃ layers,
    expected_layers vs = Some layers
    ∧ ParseKeymap (keymap_text vs rest) name
      = Some (Some {| Keymap_Name := name;
                      Keymap_Layers := Slice layers;
                      Keymap_Layout := None |}, None).
Proof.
  intros Hwf Hrest. destruct (expected_layers_total vs) as [layers Hlayers].
  exists layers. split; [done|]. unfold ParseKeymap.
  set (content := keymap_text vs rest).
  pose proof (keymap_text_length vs rest) as Hlen. fold content in Hlen.
  replace (S (length content))
    with (length vs + S (length content - length vs)) by lia.
  rewrite (scan_invocations vs _ content [] rest) by done.
  rewrite Hlayers. step_bind. cbn [app].
  rewrite (scan_end _ content _ rest) by done.
  step_bind. by rewrite extend_Slice.
Qed.

(** Two layers, the second with a nested pair of parentheses, and between
    them an invocation without comma. *)
Lemma ParseKeymap_one_layer_per_invocation_witness :
  ParseKeymap
    (go "/ { ZMK_LAYER(base_layer, &kp A &kp B) ZMK_LAYER(x) ZMK_LAYER(nav, &mt(LSHIFT, TAB)) };")
    (go "k")
  = Some (Some {| Keymap_Name := go "k";
                  Keymap_Layers :=
                    Slice [ {| Layer_Name := go "Base";
                               Layer_Keys := Slice [go "A"; go "B"];
                               Layer_CustomNames := Some ∅ |};
                            {| Layer_Name := go "Nav";
                               Layer_Keys := Slice [go "MT"];
                               Layer_CustomNames := Some ∅ |} ];
                  Keymap_Layout := None |}, None).
Proof.
  destruct (ParseKeymap_one_layer_per_invocation
              [ LayerInvocation (go "/ { ") (go "base_layer") (go " &kp A &kp B");
                NoComma (go " ") (go "x");
                LayerInvocation (go " ") (go "nav") (go " &mt(LSHIFT, TAB)") ]
              (go " };") (go "k"))
    as (layers & Hlayers & Hparse).
  - assert (Hfree : ∀ s, forallb (λ c, negb (byte_eqb c "Z")) s = true →
                         "Z"%char ∉ s).
    { intros s Hs Hin. rewrite forallb_forall in Hs.
      by specialize (Hs _ (proj1 (list_elem_of_In _ _) Hin)). }
    assert (Hup : ∀ s, forallb (λ k, (0 <=? depth (take k s))%Z)
                         (seq 0 (S (length s))) = true → never_closes s).
    { intros s Hs k. rewrite forallb_forall in Hs.
      destruct (decide (k ≤ length s)) as [Hk|Hk].
      - apply Z.leb_le, Hs, in_seq. lia.
      - rewrite take_ge by lia. rewrite <- (firstn_all s).
        apply Z.leb_le, Hs, in_seq. lia. }
    repeat constructor; try (by apply Hfree); try (by apply Hup).
  - intros Hin. cbn in Hin.
    repeat (apply elem_of_cons in Hin as [Hin|Hin]; [discriminate|]).
    by apply elem_of_nil in Hin.
  - vm_compute in Hlayers. injection Hlayers as <-. exact Hparse.
Defined.

(** ** [strings.TrimSpace] twice *)

Lemma space_width_take s k :
  space_width (take k s) = 0 ∨ space_width (take k s) = space_width s.
Proof.
  unfold space_width.
  destruct s as [|c [|c2 [|c3 t]]]; destruct k as [|[|[|k]]];
    cbn [take]; auto;
    destruct (is_ascii_space c); auto;
    cbn [map take]; repeat case_match; auto.
Qed.

Lemma TrimLeftSpace_from_head s : ∀ skip,
  TrimLeftSpace_from skip s = []
  ∨ space_width (TrimLeftSpace_from skip s) = 0.
Proof.
  induction s as [|c s IH]; intros skip; cbn [TrimLeftSpace_from]; [auto|].
  destruct skip as [|skip]; [|apply IH].
  destruct (space_width (c :: s)) as [|w] eqn:Hw; [auto|apply IH].
Qed.

Lemma TrimLeftSpace_fixed s :
  s = [] ∨ space_width s = 0 → TrimLeftSpace s = s.
Proof.
  intros [->|Hs]; [done|]. unfold TrimLeftSpace.
  destruct s as [|c s]; [done|]. cbn [TrimLeftSpace_from]. by rewrite Hs.
Qed.

Lemma TrimRightSpace_fixed s : space_suffix_width s = 0 → TrimRightSpace s = s.
Proof.
  intros Hs. unfold TrimRightSpace.
  destruct (length s); cbn [TrimRightSpace_upto]; [done|]. by rewrite Hs.
Qed.

Lemma TrimSpace_idem s : TrimSpace (TrimSpace s) = TrimSpace s.
Proof.
  pose proof (TrimSpace_trimmed s) as Hright.
  assert (Hleft : TrimSpace s = [] ∨ space_width (TrimSpace s) = 0).
  { unfold TrimSpace, TrimRightSpace, TrimLeftSpace.
    destruct (TrimRightSpace_upto_take
                (length (TrimLeftSpace_from 0 s)) (TrimLeftSpace_from 0 s))
      as [k ->].
    destruct (TrimLeftSpace_from_head s 0) as [->|Hl]; [left; by destruct k|].
    right. destruct (space_width_take (TrimLeftSpace_from 0 s) k); congruence. }
  unfold TrimSpace at 1.
  rewrite TrimLeftSpace_fixed by done. by apply TrimRightSpace_fixed.
Qed.

Lemma convertBinding_TrimSpace b : convertBinding (TrimSpace b) = convertBinding b.
Proof. unfold convertBinding. by rewrite TrimSpace_idem. Qed.

(** ** The bindings that [tokenize] finds *)

Lemma run_le p s : run p s ≤ length s.
Proof. induction s as [|c s IH]; cbn; [lia|]. destruct (p c); cbn; lia. Qed.

Lemma run_app_stop p s rest :
  match rest with [] => True | c :: _ => p c = false end →
  run p (s ++ rest) = run p s.
Proof.
  intros Hrest. induction s as [|c s IH]; cbn [app run].
  - destruct rest as [|c r]; [done|]. cbn. by rewrite Hrest.
  - by rewrite IH.
Qed.

Lemma closes_parens_drop s : ∀ k,
  closes_parens s = true → closes_parens (drop k s) = true.
Proof.
  induction s as [|c s IH]; intros k Hs; [by destruct k|].
  destruct k as [|k]; [done|]. cbn [drop]. apply IH.
  cbn [closes_parens] in Hs. by apply andb_prop in Hs as [_ ?].
Qed.

Lemma index_byte_app c u rest :
  c ∈ u → ∃ j, index_byte c (u ++ rest) = Some j ∧ j < length u.
Proof.
  induction u as [|b u IH]; intros Hc; [by apply elem_of_nil in Hc|].
  cbn [app index_byte length]. destruct (byte_eqb b c) eqn:Hb.
  - exists 0. split; [done|lia].
  - apply byte_eqb_neq in Hb. apply elem_of_cons in Hc as [->|Hc]; [done|].
    destruct (IH Hc) as (j & -> & Hj). exists (S j). split; [done|lia].
Qed.

Lemma bindingRegex_at_span b rest :
  binding_span b = true →
  match rest with [] => True | c :: _ => c = "&"%char end →
  ∃ n, bindingRegex_at (b ++ rest) = Some n ∧ 1 ≤ n ≤ length b.
Proof.
  intros Hb Hrest. destruct b as [|c [|d t]]; [done|done|].
  cbn [binding_span] in Hb.
  apply andb_prop in Hb as [Hb Hclose]. apply andb_prop in Hb as [Hb _].
  apply andb_prop in Hb as [Hc Hd].
  remember (d :: t) as t' eqn:Et'.
  change ((c :: t') ++ rest) with (c :: (t' ++ rest)).
  cbn [bindingRegex_at]. rewrite Hc. cbv zeta.
  rewrite (run_app_stop is_word) by (destruct rest as [|? ?]; [done|by subst]).
  pose proof (run_le is_word t') as Hn.
  assert (Hn1 : 1 ≤ run is_word t') by (subst t'; cbn; rewrite Hd; lia).
  set (n := run is_word t') in *.
  destruct (Nat.eqb_spec n 0) as [|_]; [lia|].
  rewrite drop_app_le by lia.
  rewrite (run_app_stop is_re_space)
    by (destruct rest as [|? ?]; [done|by subst]).
  pose proof (run_le is_re_space (drop n t')) as Hk.
  set (k := run is_re_space (drop n t')) in *.
  rewrite drop_app_le by lia.
  assert (Hlen : length (drop k (drop n t')) = length t' - n - k)
    by (rewrite !length_drop; lia).
  rewrite length_drop in Hk.
  destruct (drop k (drop n t')) as [|p u] eqn:Hdrop.
  - exists (1 + n). cbn [length]. split; [|lia].
    cbn [app]. destruct rest as [|r ?]; [done|]. by subst r.
  - cbn [app]. destruct (byte_eqb p "(") eqn:Hp;
      [|exists (1 + n); cbn [length]; split; [done|lia]].
    assert (Hin : ")"%char ∈ u).
    { apply (closes_parens_drop _ (1 + n + k)) in Hclose.
      replace (drop (1 + n + k) (c :: t')) with (p :: u) in Hclose
        by (rewrite <- Hdrop, drop_drop; cbn [drop Nat.add];
            f_equal; lia).
      cbn [closes_parens] in Hclose. rewrite Hp in Hclose.
      apply andb_prop in Hclose as [Hclose _].
      by apply bool_decide_eq_true in Hclose. }
    destruct (index_byte_app _ _ rest Hin) as (j & -> & Hj).
    exists (1 + n + k + 1 + j + 1). cbn [length] in *. split; [done|lia].
Qed.

Lemma FindAll_from_pass x rest : ∀ k pos,
  k ≤ length x → "&"%char ∉ x →
  FindAll_from k pos (x ++ rest) = FindAll_from 0 (pos + length x) rest.
Proof.
  induction x as [|c x IH]; intros k pos Hk Hx; cbn [length] in *.
  - replace k with 0 by lia. by rewrite Nat.add_0_r.
  - apply not_elem_of_cons in Hx as [Hc Hx].
    cbn [app FindAll_from]. destruct k as [|k].
    + cbn [bindingRegex_at].
      destruct (byte_eqb c "&") eqn:Hb; [by apply byte_eqb_eq in Hb|].
      rewrite IH by (done || lia). f_equal. lia.
    + rewrite IH by (done || lia). f_equal. lia.
Qed.

Lemma FindAll_span b rest pos :
  binding_span b = true →
  match rest with [] => True | c :: _ => c = "&"%char end →
  ∃ e, FindAll_from 0 pos (b ++ rest)
       = (pos, e) :: FindAll_from 0 (pos + length b) rest.
Proof.
  intros Hb Hrest.
  destruct (bindingRegex_at_span b rest Hb Hrest) as (n & Hn & Hlen).
  destruct b as [|c [|d t]]; [done|done|].
  cbn [binding_span] in Hb.
  apply andb_prop in Hb as [Hb _]. apply andb_prop in Hb as [_ Hamp].
  change ((c :: d :: t) ++ rest) with (c :: ((d :: t) ++ rest)) in *.
  cbn [FindAll_from]. rewrite Hn. exists (pos + n). f_equal.
  rewrite FindAll_from_pass.
  - f_equal. cbn [length]. lia.
  - cbn [length] in *. lia.
  - intros Hin. rewrite forallb_forall in Hamp.
    apply list_elem_of_In, Hamp in Hin. by cbv in Hin.
Qed.

Lemma spans_head bs :
  Forall (λ b, binding_span b = true) bs →
  match concat bs with [] => True | c :: _ => c = "&"%char end.
Proof.
  intros [|b bs' Hb _]; [done|]. cbn [concat].
  destruct b as [|c [|d t]]; [done|done|]. cbn [binding_span] in Hb.
  do 3 apply andb_prop in Hb as [Hb _]. cbn [app]. by apply byte_eqb_eq.
Qed.

Lemma tokenize_loop_spans bs : ∀ x content tokens,
  Forall (λ b, binding_span b = true) bs →
  content = x ++ concat bs →
  ∃ labels,
    mapM convertBinding bs = Some labels
    ∧ tokenize_loop content (FindAll_from 0 (length x) (concat bs)) tokens
      = Some (extend tokens labels).
Proof.
  induction bs as [|b bs IH]; intros x content tokens Hbs Hcontent.
  { exists []. by split. }
  apply Forall_cons in Hbs as [Hb Hbs]. cbn [concat] in *.
  destruct (FindAll_span b (concat bs) (length x) Hb (spans_head bs Hbs))
    as (e & ->).
  destruct (convertBinding_total b) as [label Hlabel].
  destruct (IH (x ++ b) content (append tokens label) Hbs) as (labels & Hl & Hloop).
  { by rewrite <- app_assoc. }
  rewrite length_app in Hloop.
  exists (label :: labels). split.
  { cbn [mapM]. rewrite Hlabel, Hl. done. }
  cbn [tokenize_loop fst].
  assert (Hend : match FindAll_from 0 (length x + length b) (concat bs) with
                 | next :: _ => next.1
                 | [] => length content
                 end = length x + length b).
  { destruct bs as [|b' bs']; cbn [concat].
    - cbn [FindAll_from]. subst content.
      rewrite !length_app. cbn [concat length]. lia.
    - apply Forall_cons in Hbs as [Hb' Hbs'].
      by destruct (FindAll_span b' (concat bs') (length x + length b) Hb'
                     (spans_head bs' Hbs')) as (e' & ->). }
  rewrite Hend.
  rewrite (slice_at content x b (concat bs)) by done.
  step_bind. rewrite convertBinding_TrimSpace, Hlabel. step_bind.
  exact Hloop.
Qed.

(** X3. [tokenize] gives one label for each binding of the text: when the
    text, without the white space around it, is a sequence of bindings,
    each running from its sigil up to the next one and leaving no
    parenthesis open, the result holds, in the order of the text, what
    [convertBinding] makes of each of them, and it is [nil] when there is
    no binding at all. *)
Theorem tokenize_one_label_per_binding (content : gostring)
    (bs : list gostring) :
  TrimSpace content = concat bs →
  Forall (λ b, binding_span b = true) bs →
  ∃ labels,
    mapM convertBinding bs = Some labels
    ∧ tokenize content = Some (extend NilSlice labels).
Proof.
  intros Hcontent Hbs. unfold tokenize, bindingRegex_FindAll. cbv zeta.
  rewrite Hcontent.
  apply (tokenize_loop_spans bs [] (concat bs) NilSlice Hbs eq_refl).
Qed.

Lemma tokenize_one_label_per_binding_witness :
  ∃ labels,
    mapM convertBinding
      [go "&kp LS(N1) "; go "&lt 2 SPACE "; go "&bt BT_SEL 0 "; go "&trans"]
    = Some labels
    ∧ tokenize (go "  &kp LS(N1) &lt 2 SPACE &bt BT_SEL 0 &trans ")
      = Some (extend NilSlice labels).
Proof.
  apply (tokenize_one_label_per_binding
           (go "  &kp LS(N1) &lt 2 SPACE &bt BT_SEL 0 &trans ")
           [go "&kp LS(N1) "; go "&lt 2 SPACE "; go "&bt BT_SEL 0 ";
            go "&trans"]).
  - vm_compute. reflexivity.
  - repeat constructor.
Defined.

(** ** The table and the length of the labels of [formatKey] *)

Lemma map_lookup_elem (m : list (gostring * gostring)) key v :
  map_lookup m key = Some v → (key, v) ∈ m.
Proof.
  induction m as [|[k w] m IH]; cbn [map_lookup]; [done|].
  destruct (string_eqb k key) eqn:Hk.
  - apply string_eqb_eq in Hk as ->. intros [= ->]. apply elem_of_cons. auto.
  - intros Hm. apply elem_of_cons. auto.
Qed.

(** X4. Every key code of the table gets the label of the table: none of
    them is taken by the modifier rule, the number-key rule or the
    function-key rule, which come first. *)
Theorem keyMap_entries_apply (key mapped : gostring) :
  map_lookup keyMap key = Some mapped → formatKey key = Some mapped.
Proof.
  intros Hin%map_lookup_elem.
  assert (Hall : Forall (λ kv, formatKey kv.1 = Some kv.2) keyMap)
    by (apply (bool_decide_unpack
                 (Forall (λ kv, formatKey kv.1 = Some kv.2) keyMap));
        by vm_compute).
  rewrite Forall_forall in Hall. exact (Hall _ Hin).
Qed.

Lemma keyMap_entries_apply_witness :
  formatKey (go "PAGE_DOWN") = Some (go "PGDN").
Proof. apply keyMap_entries_apply. reflexivity. Defined.

Lemma keyMap_labels_short key mapped :
  map_lookup keyMap key = Some mapped →
  length mapped ≤ 6 ∧ (length key ≤ 4 → length mapped ≤ 4).
Proof.
  intros Hin%map_lookup_elem.
  assert (Hall : forallb (λ kv : gostring * gostring,
                            (length kv.2 <=? 6)
                            && ((4 <? length kv.1) || (length kv.2 <=? 4)))
                   keyMap = true) by (by vm_compute).
  rewrite forallb_forall in Hall.
  apply list_elem_of_In, Hall, andb_prop in Hin as [H6 H4]. cbn [fst snd] in *.
  apply Nat.leb_le in H6. split; [done|]. intros Hk.
  apply orb_prop in H4 as [H4|H4]; [apply Nat.ltb_lt in H4; lia|].
  by apply Nat.leb_le in H4.
Qed.

Lemma formatKey_plain_short key r :
  formatKey_plain key = Some r →
  length r ≤ 6 ∧ (length key ≤ 4 → length r ≤ 4).
Proof.
  unfold formatKey_plain.
  case_match eqn:H1.
  { apply andb_prop in H1 as [_ Hl%Nat.eqb_eq].
    rewrite slice_from_Some by lia. intros [= <-].
    rewrite length_drop. lia. }
  case_match eqn:H2.
  { apply andb_prop in H2 as [_ Hl%Nat.leb_le]. intros [= <-]. lia. }
  case_match eqn:H3.
  { intros [= <-]. by apply keyMap_labels_short. }
  case_match eqn:H4.
  { apply Nat.leb_le in H4. intros [= <-]. lia. }
  apply Nat.leb_gt in H4. rewrite slice_to_Some by lia. intros [= <-].
  rewrite length_take. lia.
Qed.

Lemma mod_prefix_length mod_ t : mod_prefix mod_ = Some t → length t = 2.
Proof. unfold mod_prefix. repeat case_match; by intros [= <-]. Qed.

Lemma modRegex_length key mod_ inner :
  modRegex_FindStringSubmatch key = [key; mod_; inner] →
  length key = length inner + 4 ∧ 1 ≤ length inner.
Proof.
  unfold modRegex_FindStringSubmatch.
  destruct key as [|m1 [|m2 [|p rest]]]; try done.
  case_match eqn:Hc; [|done].
  repeat (apply andb_prop in Hc as [Hc ?]).
  intros [= _ <-]. rewrite length_take. cbn [length].
  match goal with H : (1 <=? _) = true |- _ =>
    apply Nat.leb_le in H; rewrite length_take in H end.
  lia.
Qed.

Lemma formatKey_depth_short d : ∀ key r,
  formatKey_depth d key = Some r →
  length r ≤ Nat.max 6 (length key) ∧ (length key ≤ 4 → length r ≤ 4).
Proof.
  induction d as [|d IH]; intros key r; [done|].
  destruct (modRegex_shape key)
    as [Hno|(m1 & m2 & inner & Heq & _ & Hs & Hk)].
  - cbn [formatKey_depth]. rewrite Hno. cbn [length Nat.eqb].
    intros [? ?]%formatKey_plain_short. split; [lia|done].
  - rewrite (formatKey_depth_match _ _ _ _ _ Heq).
    destruct (formatKey_depth d inner) as [ri|] eqn:Hi; [|done].
    step_bind.
    destruct (mod_prefix_Some m1 m2 Hs Hk) as [t Ht]. rewrite Ht.
    intros [= <-]. rewrite length_app, (mod_prefix_length _ _ Ht).
    apply modRegex_length in Heq as [Heq H1]. apply IH in Hi as [H6 H4].
    destruct (le_lt_dec (length inner) 4) as [Hle|Hgt];
      [specialize (H4 Hle)|clear H4]; lia.
Qed.

(** X5. The labels of [formatKey] are short: a label has at most six
    bytes, or at most the length of the key code where that is more; a key
    code of at most four bytes gives a label of at most four bytes; and a
    key code that is no modifier function gives a label of at most six
    bytes, however long it is. *)
Theorem formatKey_label_short (key r : gostring) :
  formatKey key = Some r →
  length r ≤ Nat.max 6 (length key)
  ∧ (length key ≤ 4 → length r ≤ 4)
  ∧ (modRegex_FindStringSubmatch key = [] → length r ≤ 6).
Proof.
  intros Hr. destruct (formatKey_depth_short _ _ _ Hr) as [H6 H4].
  repeat split; [done|done|]. intros Hno.
  rewrite (formatKey_no_modifier _ Hno) in Hr.
  by apply formatKey_plain_short in Hr as [? _].
Qed.

Lemma formatKey_label_short_witness :
  length (go "KP_M") ≤ Nat.max 6 (length (go "KP_MULTIPLY"))
  ∧ (length (go "KP_MULTIPLY") ≤ 4 → length (go "KP_M") ≤ 4)
  ∧ (modRegex_FindStringSubmatch (go "KP_MULTIPLY") = [] →
     length (go "KP_M") ≤ 6).
Proof.
  apply (formatKey_label_short (go "KP_MULTIPLY") (go "KP_M")). reflexivity.
Defined.

(** ** The arguments of a binding *)

Ltac split_tests :=
  repeat match goal with
  | H : (_ || _) = true |- _ => apply orb_prop in H as [H|H]
  | H : (_ && _) = true |- _ => apply andb_prop in H as [? ?]
  | H : (_ =? _)%N = true |- _ => apply N.eqb_eq in H
  | H : (_ <=? _)%N = true |- _ => apply N.leb_le in H
  end.

Lemma graphic_range c : is_graphic c = true → (33 ≤ code c ≤ 126)%N.
Proof. unfold is_graphic, in_range. intros H. split_tests. lia. Qed.

Lemma space_width_graphic c t : is_graphic c = true → space_width (c :: t) = 0.
Proof.
  intros Hc%graphic_range. unfold space_width, is_ascii_space, in_range.
  destruct (N.leb_spec 9 (code c)), (N.leb_spec (code c) 13),
    (N.eqb_spec (code c) 32); cbn [andb orb]; try lia.
  repeat case_match; try done; lia.
Qed.

Lemma space_width_2 a b t : space_width (a :: b :: t) = 2 → is_graphic b = false.
Proof.
  unfold space_width, is_graphic, in_range.
  destruct (is_ascii_space a); [done|]. cbn [take map].
  repeat case_match; try done; intros _; split_tests;
    match goal with H : code b = _ |- _ => by rewrite H end.
Qed.

Lemma space_width_3 a b c t :
  space_width (a :: b :: c :: t) = 3 → is_graphic c = false.
Proof.
  unfold space_width, is_graphic, in_range.
  destruct (is_ascii_space a); [done|]. cbn [take map].
  repeat case_match; try done; intros _; split_tests;
    try match goal with H : code c = _ |- _ => by rewrite H end.
  all: apply andb_false_iff; right; apply N.leb_gt; lia.
Qed.

Lemma space_suffix_width_graphic pre c :
  is_graphic c = true → space_suffix_width (pre ++ [c]) = 0.
Proof.
  intros Hc. unfold space_suffix_width. cbv zeta.
  rewrite length_app. cbn [length].
  assert (H1 : space_width (drop (length pre + 1 - 1) (pre ++ [c])) ≠ 1).
  { replace (length pre + 1 - 1) with (length pre) by lia.
    rewrite drop_app_length. by rewrite space_width_graphic. }
  assert (H2 : 2 ≤ length pre + 1 →
               space_width (drop (length pre + 1 - 2) (pre ++ [c])) ≠ 2).
  { intros Hlen. rewrite drop_app_le by lia.
    pose proof (length_drop pre (length pre + 1 - 2)) as Hd.
    destruct (drop (length pre + 1 - 2) pre) as [|b [|??]];
      cbn [length] in Hd; try lia.
    cbn [app]. intros H%space_width_2. congruence. }
  assert (H3 : 3 ≤ length pre + 1 →
               space_width (drop (length pre + 1 - 3) (pre ++ [c])) ≠ 3).
  { intros Hlen. rewrite drop_app_le by lia.
    pose proof (length_drop pre (length pre + 1 - 3)) as Hd.
    destruct (drop (length pre + 1 - 3) pre) as [|a [|b [|??]]];
      cbn [length] in Hd; try lia.
    cbn [app]. intros H%space_width_3. congruence. }
  destruct (Nat.leb_spec 1 (length pre + 1)); [|lia].
  destruct (Nat.eqb_spec
              (space_width (drop (length pre + 1 - 1) (pre ++ [c]))) 1);
    [done|].
  cbn [andb].
  destruct (Nat.leb_spec 2 (length pre + 1)),
    (Nat.eqb_spec (space_width (drop (length pre + 1 - 2) (pre ++ [c]))) 2);
    cbn [andb]; try (exfalso; by apply H2).
  all: destruct (Nat.leb_spec 3 (length pre + 1)),
    (Nat.eqb_spec (space_width (drop (length pre + 1 - 3) (pre ++ [c]))) 3);
    cbn [andb]; try done; exfalso; by apply H3.
Qed.

Lemma Join_two (w a : gostring) rest sep :
  Join (w :: a :: rest) sep = w ++ sep ++ Join (a :: rest) sep.
Proof. done. Qed.

Lemma graphic_last w :
  is_argument w = true → ∃ pre c, w = pre ++ [c] ∧ is_graphic c = true.
Proof.
  unfold is_argument, nonempty. intros [Hne Hall]%andb_prop.
  destruct (decide (w = [])) as [->|Hw]; [done|].
  destruct (exists_last Hw) as (pre & c & ->).
  exists pre, c. split; [done|].
  rewrite forallb_app in Hall. apply andb_prop in Hall as [_ Hc].
  cbn in Hc. by destruct (is_graphic c).
Qed.

Lemma Join_graphic_last args :
  args ≠ [] → Forall (λ w, is_argument w = true) args →
  ∃ pre c, Join args (go " ") = pre ++ [c] ∧ is_graphic c = true.
Proof.
  induction args as [|w args IH]; [done|]. intros _ Hargs.
  apply Forall_cons in Hargs as [Hw Hargs].
  destruct args as [|a args].
  - by apply graphic_last.
  - destruct IH as (pre & c & Heq & Hc); [done|done|].
    rewrite Join_two, Heq. exists (w ++ go " " ++ pre), c.
    by rewrite <- !app_assoc.
Qed.

Lemma Join_graphic_first args :
  args ≠ [] → Forall (λ w, is_argument w = true) args →
  ∃ c t, Join args (go " ") = c :: t ∧ is_graphic c = true.
Proof.
  destruct args as [|w args]; [done|]. intros _ Hargs.
  apply Forall_cons in Hargs as [Hw _].
  unfold is_argument, nonempty in Hw. apply andb_prop in Hw as [Hne Hall].
  destruct w as [|c w]; [done|].
  cbn [forallb] in Hall. apply andb_prop in Hall as [Hc _].
  destruct args; [by exists c, w|].
  rewrite Join_two. by eexists c, _.
Qed.

Lemma TrimSpace_Join args :
  Forall (λ w, is_argument w = true) args →
  TrimSpace (Join args (go " ")) = Join args (go " ").
Proof.
  intros Hargs. destruct (decide (args = [])) as [->|Hne]; [done|].
  destruct (Join_graphic_first args Hne Hargs) as (c & t & Hfirst & Hc).
  destruct (Join_graphic_last args Hne Hargs) as (pre & d & Hlast & Hd).
  unfold TrimSpace. rewrite TrimLeftSpace_fixed.
  - apply TrimRightSpace_fixed. rewrite Hlast.
    by apply space_suffix_width_graphic.
  - right. rewrite Hfirst. by apply space_width_graphic.
Qed.

Lemma Fields_from_graphic w : ∀ cur rest,
  forallb is_graphic w = true →
  Fields_from 0 cur (w ++ rest) = Fields_from 0 (cur ++ w) rest.
Proof.
  induction w as [|c w IH]; intros cur rest Hw; cbn [app].
  { by rewrite app_nil_r. }
  cbn [forallb] in Hw. apply andb_prop in Hw as [Hc Hw].
  cbn [Fields_from]. rewrite space_width_graphic by done.
  rewrite IH by done. by rewrite <- app_assoc.
Qed.

Lemma space_width_space t : space_width (" "%char :: t) = 1.
Proof. done. Qed.

Lemma Fields_Join args :
  Forall (λ w, is_argument w = true) args →
  Fields (Join args (go " ")) = args.
Proof.
  unfold Fields. induction args as [|w args IH]; intros Hargs; [done|].
  apply Forall_cons in Hargs as [Hw Hargs].
  unfold is_argument, nonempty in Hw. apply andb_prop in Hw as [Hne Hall].
  destruct args as [|a args].
  - cbn [Join]. rewrite <- (app_nil_r w) at 1.
    rewrite Fields_from_graphic by done. cbn [app Fields_from].
    by destruct w.
  - rewrite Join_two, Fields_from_graphic by done.
    change (go " ") with [" "%char] in *.
    cbn [app Fields_from]. rewrite space_width_space.
    rewrite IH by done. by destruct w.
Qed.

Lemma string_eqb_neq a b : a ≠ b → string_eqb a b = false.
Proof.
  intros Hne. destruct (string_eqb a b) eqn:H; [|done].
  by apply string_eqb_eq in H.
Qed.

(** X11. What [convertBinding] reads of the arguments of a binding, the
    arguments being words of visible ASCII separated by single spaces.
    [&kp] shows its first argument as a key and ignores the others; [&lt]
    shows its second argument as a key and its first as a layer, and
    ignores the others; [&mo] shows its first argument as a layer; and
    [&hrm] shows its second argument as a key, the modifier before it being
    left out of the label; [&bt] with a command that starts with [BT_SEL]
    shows [BT] and its second argument, and with the command [BT_CLR] it
    shows [BT CLR]. *)
Theorem convertBinding_arguments (args : list gostring) :
  Forall (λ w, is_argument w = true) args →
  (∀ key more, args = key :: more →
     convertBinding (Join (go "&kp" :: args) (go " ")) = formatKey key)
  ∧ (∀ layer key more, args = layer :: key :: more →
       convertBinding (Join (go "&lt" :: args) (go " "))
       = k ← formatKey key;
         l ← formatLayerShort layer;
         Some (k ++ go "/" ++ l))
  ∧ (∀ layer more, args = layer :: more →
       convertBinding (Join (go "&mo" :: args) (go " "))
       = l ← formatLayerShort layer;
         Some (go "[" ++ l ++ go "]"))
  ∧ (∀ modifier_ key more, args = modifier_ :: key :: more →
       convertBinding (Join (go "&hrm" :: args) (go " ")) = formatKey key)
  ∧ (∀ command slot more, args = command :: slot :: more →
       HasPrefix command (go "BT_SEL") = true →
       convertBinding (Join (go "&bt" :: args) (go " "))
       = Some (go "BT" ++ slot))
  ∧ (∀ more, args = go "BT_CLR" :: more →
       convertBinding (Join (go "&bt" :: args) (go " "))
       = Some (go "BT CLR")).
Proof.
  intros Hargs.
  assert (Htrim : ∀ name, is_argument name = true →
            TrimSpace (Join (name :: args) (go " "))
            = Join (name :: args) (go " "))
    by (intros name Hname; apply TrimSpace_Join; by constructor).
  assert (Hfields : ∀ name, is_argument name = true →
            Fields (Join (name :: args) (go " ")) = name :: args)
    by (intros name Hname; apply Fields_Join; by constructor).
  repeat split.
  - intros key more ->. unfold convertBinding.
    rewrite Htrim by done. cbv zeta.
    rewrite Join_two.
    rewrite !string_eqb_neq by done.
    change (HasPrefix (go "&kp" ++ go " " ++ Join (key :: more) (go " "))
              (go "&kp ")) with true. cbv iota.
    change (TrimPrefix (go "&kp" ++ go " " ++ Join (key :: more) (go " "))
              (go "&kp ")) with (Join (key :: more) (go " ")).
    by rewrite (Fields_Join _ Hargs).
  - intros layer key more ->. unfold convertBinding.
    rewrite Htrim by done. cbv zeta.
    rewrite !string_eqb_neq by (rewrite Join_two; done).
    unfold convert_lt. rewrite Hfields by done.
    rewrite Join_two. set (rest := Join (layer :: key :: more) (go " ")).
    change (HasPrefix (go "&lt" ++ go " " ++ rest) (go "&kp ")) with false.
    change (HasPrefix (go "&lt" ++ go " " ++ rest) (go "&lt ")) with true.
    done.
  - intros layer more ->. unfold convertBinding.
    rewrite Htrim by done. cbv zeta.
    rewrite !string_eqb_neq by (rewrite Join_two; done).
    unfold convert_lt, convert_mo. rewrite Hfields by done.
    rewrite Join_two. set (rest := Join (layer :: more) (go " ")).
    change (HasPrefix (go "&mo" ++ go " " ++ rest) (go "&kp ")) with false.
    change (HasPrefix (go "&mo" ++ go " " ++ rest) (go "&lt ")) with false.
    change (HasPrefix (go "&mo" ++ go " " ++ rest) (go "&mo ")) with true.
    done.
  - intros modifier_ key more ->. unfold convertBinding.
    rewrite Htrim by done. cbv zeta.
    rewrite !string_eqb_neq by (rewrite Join_two; done).
    unfold convert_lt, convert_mo, convert_hrm. rewrite Hfields by done.
    rewrite Join_two. set (rest := Join (modifier_ :: key :: more) (go " ")).
    change (HasPrefix (go "&hrm" ++ go " " ++ rest) (go "&kp ")) with false.
    change (HasPrefix (go "&hrm" ++ go " " ++ rest) (go "&lt ")) with false.
    change (HasPrefix (go "&hrm" ++ go " " ++ rest) (go "&mo ")) with false.
    change (HasPrefix (go "&hrm" ++ go " " ++ rest) (go "&hrm ")) with true.
    done.
  - intros command slot more -> Hsel. unfold convertBinding.
    rewrite Htrim by done. cbv zeta.
    rewrite !string_eqb_neq by (rewrite Join_two; done).
    unfold convert_lt, convert_mo, convert_hrm, convert_bt.
    rewrite Hfields by done. rewrite Join_two.
    set (rest := Join (command :: slot :: more) (go " ")).
    change (HasPrefix (go "&bt" ++ go " " ++ rest) (go "&kp ")) with false.
    change (HasPrefix (go "&bt" ++ go " " ++ rest) (go "&lt ")) with false.
    change (HasPrefix (go "&bt" ++ go " " ++ rest) (go "&mo ")) with false.
    change (HasPrefix (go "&bt" ++ go " " ++ rest) (go "&hrm ")) with false.
    change (HasPrefix (go "&bt" ++ go " " ++ rest) (go "&bt ")) with true.
    cbn [length Nat.leb lookup list_lookup mbind option_bind].
    by rewrite Hsel.
  - intros more ->. unfold convertBinding.
    rewrite Htrim by done. cbv zeta.
    rewrite !string_eqb_neq by (rewrite Join_two; done).
    unfold convert_lt, convert_mo, convert_hrm, convert_bt.
    rewrite Hfields by done.
    assert (Hjoin : ∃ rest, Join (go "&bt" :: go "BT_CLR" :: more) (go " ")
                            = go "&bt " ++ rest)
      by (by eexists; rewrite Join_two).
    destruct Hjoin as [rest ->].
    change (HasPrefix (go "&bt " ++ rest) (go "&kp ")) with false.
    change (HasPrefix (go "&bt " ++ rest) (go "&lt ")) with false.
    change (HasPrefix (go "&bt " ++ rest) (go "&mo ")) with false.
    change (HasPrefix (go "&bt " ++ rest) (go "&hrm ")) with false.
    change (HasPrefix (go "&bt " ++ rest) (go "&bt ")) with true.
    cbn [length Nat.leb lookup list_lookup mbind option_bind].
    done.
Qed.

Lemma convertBinding_arguments_witness :
  convertBinding (go "&hrm LSHFT F extra") = Some (go "F").
Proof.
  destruct (convertBinding_arguments [go "LSHFT"; go "F"; go "extra"])
    as (_ & _ & _ & Hhrm & _); [repeat constructor|].
  exact (Hhrm (go "LSHFT") (go "F") [go "extra"] eq_refl).
Defined.

(** ** A binding that is a name alone *)

Lemma word_graphic c : is_word c = true → is_graphic c = true.
Proof.
  unfold is_word, is_digit, is_upper, is_lower, is_graphic, in_range.
  intros H. split_tests; apply andb_true_intro; split; apply N.leb_le; lia.
Qed.

Lemma HasPrefix_elem s p c : HasPrefix s p = true → c ∈ p → c ∈ s.
Proof. intros [t ->]%HasPrefix_app Hc. apply elem_of_app. auto. Qed.

Lemma word_no_space name p :
  forallb is_word name = true → " "%char ∈ p → HasPrefix name p = false.
Proof.
  intros Hname Hp. destruct (HasPrefix name p) eqn:H; [|done].
  apply (HasPrefix_elem _ _ _ H) in Hp.
  rewrite forallb_forall in Hname. by apply list_elem_of_In, Hname in Hp.
Qed.

Lemma run_all p s : forallb p s = true → run p s = length s.
Proof.
  induction s as [|c s IH]; [done|]. cbn [forallb run length].
  intros [-> Hs]%andb_prop. by rewrite IH.
Qed.

Lemma take_min (s : gostring) : take (min 4 (length s)) s = take 4 s.
Proof.
  unfold min. destruct (Nat.ltb_spec 4 (length s)); [done|].
  by rewrite (take_ge s 4), (take_ge s (length s)) by lia.
Qed.

(** X12. A binding that is a name alone, of word characters, is shown by
    its name: by the first four bytes of it, in upper case, unless the name
    is [trans] or [none] or begins with [bootloader], [caps_word], [leader]
    or [studio].  This is the case of [kp], [lt], [mo], [hrm], [bt] and
    [bl] as well when they come without argument. *)
Theorem convertBinding_bare_name (name : gostring) :
  name ≠ [] → forallb is_word name = true →
  name ≠ go "trans" → name ≠ go "none" →
  Forall (λ p, HasPrefix name p = false) named_rules →
  convertBinding ("&"%char :: name) = Some (ToUpper (take 4 name)).
Proof.
  intros Hne Hword Htrans Hnone Hrules.
  apply Forall_cons in Hrules as [Hboot Hrules].
  apply Forall_cons in Hrules as [Hcaps Hrules].
  apply Forall_cons in Hrules as [Hleader Hrules].
  apply Forall_cons in Hrules as [Hstudio _].
  assert (Hspace : ∀ p, " "%char ∈ p →
            HasPrefix ("&"%char :: name) ("&"%char :: p) = false)
    by (intros p Hp; cbn [HasPrefix]; by apply word_no_space).
  unfold convertBinding.
  replace (TrimSpace ("&"%char :: name)) with ("&"%char :: name); cycle 1.
  { symmetry. apply (TrimSpace_Join ["&"%char :: name]).
    constructor; [|done]. unfold is_argument. cbn [nonempty forallb length].
    apply andb_true_intro. split; [done|].
    apply forallb_forall. intros c Hc. rewrite forallb_forall in Hword.
    by apply word_graphic, Hword. }
  cbv zeta.
  rewrite (string_eqb_neq _ (go "&trans")) by (intros [= ?]; done).
  rewrite (string_eqb_neq _ (go "&none")) by (intros [= ?]; done).
  unfold convert_lt, convert_mo, convert_hrm.
  change (go "&kp ") with ("&"%char :: go "kp ").
  change (go "&lt ") with ("&"%char :: go "lt ").
  change (go "&mo ") with ("&"%char :: go "mo ").
  change (go "&hrm ") with ("&"%char :: go "hrm ").
  change (go "&bt ") with ("&"%char :: go "bt ").
  change (go "&bl ") with ("&"%char :: go "bl ").
  rewrite (Hspace (go "kp ")), (Hspace (go "lt ")), (Hspace (go "mo ")),
    (Hspace (go "hrm ")), (Hspace (go "bt ")), (Hspace (go "bl "))
    by (cbn; set_solver).
  change (HasPrefix ("&"%char :: name) (go "&bootloader"))
    with (HasPrefix name (go "bootloader")).
  change (HasPrefix ("&"%char :: name) (go "&caps_word"))
    with (HasPrefix name (go "caps_word")).
  change (HasPrefix ("&"%char :: name) (go "&leader"))
    with (HasPrefix name (go "leader")).
  change (HasPrefix ("&"%char :: name) (go "&studio"))
    with (HasPrefix name (go "studio")).
  rewrite Hboot, Hcaps, Hleader, Hstudio.
  unfold convert_default. cbn [nameRegex_FindStringSubmatch].
  rewrite run_all by done.
  change (byte_eqb "&" "&") with true. cbn [andb].
  destruct (Nat.eqb_spec (length name) 0) as [H0|_];
    [by destruct name|].
  cbn [negb length Nat.leb lookup list_lookup]. step_bind.
  rewrite (take_ge name (length name)) by lia.
  rewrite slice_to_Some by apply min_le_r. cbn [fmap option_fmap option_map].
  by rewrite take_min.
Qed.

Lemma convertBinding_bare_name_witness :
  convertBinding (go "&sys_reset") = Some (go "SYS_").
Proof.
  apply (convertBinding_bare_name (go "sys_reset")); try done.
  repeat constructor.
Defined.

(* ===================================================================== *)
(** * Further properties of [layout.go] *)
(* ===================================================================== *)

(** ** What the scan of a layout description reads *)

Lemma float64_at_read (v : gmap gostring json) (k : string) :
  go k ∈ modifier_fields →
  float64_at (filter (λ kv, kv.1 ∈ modifier_fields ∧ is_number kv.2 = true) v) k
  = float64_at v k.
Proof.
  intros Hk. unfold float64_at. rewrite map_lookup_filter.
  destruct (v !! go k) as [x|]; [|done]. cbn.
  destruct x; cbn; case_guard as Hg; cbn; done || by destruct Hg.
Qed.

Lemma modifier_read (v : gmap gostring json) st :
  modifier (filter (λ kv, kv.1 ∈ modifier_fields ∧ is_number kv.2 = true) v) st
  = modifier v st.
Proof.
  unfold modifier, with_field.
  rewrite !float64_at_read by (unfold modifier_fields; set_solver).
  done.
Qed.

Lemma items_loop_read items : ∀ st,
  items_loop st (omap read_item items) = items_loop st items.
Proof.
  unfold items_loop.
  induction items as [|item items IH]; intros st; [done|].
  destruct item; cbn [omap read_item fold_left item_step list_omap];
    rewrite ?IH; try done.
  by rewrite modifier_read.
Qed.

Lemma rows_loop_read raw : ∀ st,
  fold_left row_step (read_description raw) st = fold_left row_step raw st.
Proof.
  unfold read_description.
  induction raw as [|row raw IH]; intros st; [done|].
  destruct row; cbn [omap read_row fold_left row_step list_omap];
    rewrite ?IH; try done.
  by rewrite items_loop_read.
Qed.

(** X6. The layout depends on nothing but the geometry of the
    description: the legends of the keys, the items of a row that are
    neither a key nor a modifier object, the items of the top level that
    are no rows, and the fields of a modifier object other than the numbers
    under [x], [y], [w], [h], [r], [rx] and [ry] can be changed or left out
    without any change of the result. *)
Theorem layout_reads_only_geometry (raw : list json) (name : gostring) :
  ParseKLELayout (Text (Array (read_description raw))) name
  = ParseKLELayout (Text (Array raw)) name.
Proof.
  unfold ParseKLELayout, Unmarshal, rows_loop. cbn [elems].
  by rewrite rows_loop_read.
Qed.

(** ** The rotation origin and the offsets of one modifier object *)

(** X7. In one modifier object the rotation origin wins over the offsets:
    with a number under [rx] the cursor's X and the origin's X are that
    number, whatever stands under [x]; and likewise for [ry], Y and [y]. *)
Theorem rotation_origin_overrides_offset (v : gmap gostring json) (st : state) :
  (∀ rx, float64_at v "rx" = Some rx →
         currentX (modifier v st) = rx ∧ currentRX (modifier v st) = rx)
  ∧ (∀ ry, float64_at v "ry" = Some ry →
           currentY (modifier v st) = ry ∧ currentRY (modifier v st) = ry).
Proof.
  split.
  - intros rx Hrx. unfold modifier, with_field. rewrite Hrx.
    destruct (float64_at v "ry"); by cbn.
  - intros ry Hry. unfold modifier, with_field. rewrite Hry. by cbn.
Qed.

Lemma rotation_origin_overrides_offset_witness :
  let v : gmap gostring json :=
    {[ go "x" := Float64 0.5; go "rx" := Float64 4; go "y" := Float64 0.25;
       go "ry" := Float64 2 ]} in
  (currentX (modifier v initial_state) = 4%float
   ∧ currentRX (modifier v initial_state) = 4%float)
  ∧ (currentY (modifier v initial_state) = 2%float
     ∧ currentRY (modifier v initial_state) = 2%float).
Proof.
  intros v.
  destruct (rotation_origin_overrides_offset v initial_state) as [Hx Hy].
  split; [apply Hx|apply Hy]; vm_compute; reflexivity.
Defined.

(** ** Keys are only ever added *)

Lemma items_loop_appends items : ∀ st,
  ∃ new, elems (layout_Keys (items_loop st items))
         = elems (layout_Keys st) ++ new.
Proof.
  unfold items_loop.
  induction items as [|item items IH]; intros st; cbn [fold_left].
  { exists []. by rewrite app_nil_r. }
  destruct (IH (item_step st item)) as [new ->].
  destruct item; cbn [item_step]; try by exists new.
  - cbn [place_key layout_Keys append elems]. rewrite <- app_assoc. eauto.
  - destruct (modifier_keys m st) as [-> _]. eauto.
Qed.

Lemma row_step_appends st row :
  ∃ new, elems (layout_Keys (row_step st row)) = elems (layout_Keys st) ++ new.
Proof.
  destruct row; cbn [row_step]; try (exists []; by rewrite app_nil_r).
  cbv zeta.
  match goal with |- context [items_loop ?s ?l] =>
    destruct (items_loop_appends l s) as [new ->] end.
  by exists new.
Qed.

Lemma rows_appends rows : ∀ st,
  ∃ new, elems (layout_Keys (fold_left row_step rows st))
         = elems (layout_Keys st) ++ new.
Proof.
  induction rows as [|row rows IH]; intros st; cbn [fold_left].
  { exists []. by rewrite app_nil_r. }
  destruct (IH (row_step st row)) as [new ->].
  destruct (row_step_appends st row) as [new0 ->].
  rewrite <- app_assoc. eauto.
Qed.

(** X8. Rows added at the end of a description add keys at the end of the
    layout and change none of the keys before them: the keys of the
    shorter description are a prefix of the keys of the longer one. *)
Theorem later_rows_leave_earlier_keys (raw more : list json) (name : gostring) :
  ∃ shorter longer,
    ParseKLELayout (Text (Array raw)) name = (Some shorter, None)
    ∧ ParseKLELayout (Text (Array (raw ++ more))) name = (Some longer, None)
    ∧ elems (Layout_Keys shorter) `prefix_of` elems (Layout_Keys longer).
Proof.
  unfold ParseKLELayout, Unmarshal, rows_loop. cbn [elems].
  do 2 eexists. split; [reflexivity|]. split; [reflexivity|].
  cbn [Layout_Keys]. rewrite fold_left_app.
  destruct (rows_appends more (fold_left row_step raw initial_state))
    as [new ->].
  by exists new.
Qed.

(** ** The rotation persists *)

Lemma modifier_keeps_rotation v st :
  keeps_rotation (Object v) = true →
  currentR (modifier v st) = currentR st
  ∧ currentRX (modifier v st) = currentRX st
  ∧ currentRY (modifier v st) = currentRY st.
Proof.
  cbn [keeps_rotation]. unfold modifier, with_field.
  destruct (float64_at v "r"); [done|].
  destruct (float64_at v "rx"); [done|].
  destruct (float64_at v "ry"); [done|]. intros _.
  destruct (float64_at v "x"), (float64_at v "y"), (float64_at v "w"),
    (float64_at v "h"); by cbn.
Qed.

Lemma same_rotation_trans st st' st'' :
  same_rotation st st' → same_rotation st' st'' → same_rotation st st''.
Proof.
  unfold same_rotation. intros (? & ? & ?) (? & ? & ?).
  repeat split; congruence.
Qed.

Lemma rotation_of_same st st' k :
  same_rotation st st' → rotation_of st' k → rotation_of st k.
Proof.
  unfold same_rotation, rotation_of. intros (? & ? & ?) (? & ? & ?).
  repeat split; congruence.
Qed.

Lemma items_loop_rotation items : ∀ st,
  forallb keeps_rotation items = true →
  same_rotation st (items_loop st items)
  ∧ ∃ new, elems (layout_Keys (items_loop st items))
           = elems (layout_Keys st) ++ new
           ∧ Forall (rotation_of st) new.
Proof.
  unfold items_loop.
  induction items as [|item items IH]; intros st Hitems; cbn [fold_left].
  { split; [done|]. exists []. by rewrite app_nil_r. }
  cbn [forallb] in Hitems. apply andb_prop in Hitems as [Hitem Hitems].
  destruct (IH (item_step st item) Hitems) as (Hsame & new & -> & Hnew).
  assert (Hstep : same_rotation st (item_step st item)).
  { destruct item; cbn [item_step]; try done.
    by apply modifier_keeps_rotation. }
  assert (Hnew' : Forall (rotation_of st) new).
  { eapply Forall_impl; [exact Hnew|]. intros k.
    by apply rotation_of_same. }
  split; [by eapply same_rotation_trans|].
  destruct item; cbn [item_step]; try by exists new.
  - cbn [place_key layout_Keys append elems]. rewrite <- app_assoc.
    eexists. split; [reflexivity|]. by constructor.
  - destruct (modifier_keys m st) as [-> _]. eauto.
Qed.

Lemma rows_rotation rows : ∀ st,
  Forall (λ row, row_keeps_rotation row = true) rows →
  same_rotation st (fold_left row_step rows st)
  ∧ ∃ new, elems (layout_Keys (fold_left row_step rows st))
           = elems (layout_Keys st) ++ new
           ∧ Forall (rotation_of st) new.
Proof.
  induction rows as [|row rows IH]; intros st Hrows; cbn [fold_left].
  { split; [done|]. exists []. by rewrite app_nil_r. }
  apply Forall_cons in Hrows as [Hrow Hrows].
  destruct (IH (row_step st row) Hrows) as (Hsame & new & -> & Hnew).
  assert (Hstep : same_rotation st (row_step st row)
                  ∧ ∃ new0, elems (layout_Keys (row_step st row))
                            = elems (layout_Keys st) ++ new0
                            ∧ Forall (rotation_of st) new0).
  { destruct row; cbn [row_step];
      try (split; [done|]; exists []; by rewrite app_nil_r).
    cbv zeta. cbn [row_keeps_rotation] in Hrow.
    match goal with |- context [items_loop ?s ?l] =>
      destruct (items_loop_rotation l s Hrow) as (Hs & new0 & Hk & Hnew0) end.
    split; [exact Hs|]. exists new0. split; [exact Hk|exact Hnew0]. }
  destruct Hstep as (Hstep & new0 & -> & Hnew0).
  split; [by eapply same_rotation_trans|].
  exists (new0 ++ new). rewrite <- app_assoc. split; [done|].
  apply Forall_app. split; [done|].
  eapply Forall_impl; [exact Hnew|]. intros k.
  by apply rotation_of_same.
Qed.

(** X9. The rotation persists over keys and rows: in rows none of whose
    modifier objects holds a number under [r], [rx] or [ry], every key
    carries the angle and the origin that were in force before these rows,
    and they are still in force after them. *)
Theorem rotation_persists (st : state) (raw : list json) :
  Forall (λ row, row_keeps_rotation row = true) raw →
  same_rotation st (rows_loop st (Slice raw))
  ∧ ∃ new, elems (layout_Keys (rows_loop st (Slice raw)))
           = elems (layout_Keys st) ++ new
           ∧ Forall (rotation_of st) new.
Proof. apply rows_rotation. Qed.

Lemma rotation_persists_witness :
  let st := row_step initial_state
              (Array [Object {[ go "r" := Float64 15; go "rx" := Float64 3 ]};
                      String_ (go "A")]) in
  let raw := [Array [String_ (go "B"); Object {[ go "w" := Float64 2 ]};
                     String_ (go "C")];
              Array [String_ (go "D")]] in
  same_rotation st (rows_loop st (Slice raw))
  ∧ ∃ new, elems (layout_Keys (rows_loop st (Slice raw)))
           = elems (layout_Keys st) ++ new
           ∧ Forall (rotation_of st) new.
Proof.
  intros st raw. apply (rotation_persists st raw).
  repeat constructor.
Defined.

(** ** Descriptions without modifiers *)

Lemma legends_row labels : ∀ st,
  currentW st = 1%float → currentH st = 1%float →
  let st' := items_loop st (map String_ labels) in
  (currentY st' = currentY st ∧ currentW st' = 1%float
   ∧ currentH st' = 1%float ∧ same_rotation st st')
  ∧ ∃ new, elems (layout_Keys st') = elems (layout_Keys st) ++ new
           ∧ length new = length labels
           ∧ ∀ j k, new !! j = Some k →
                    geometry k
                    = (Nat.iter j next (currentX st), (currentY st - 1)%float,
                       1%float, 1%float,
                       currentR st, currentRX st, currentRY st).
Proof.
  unfold items_loop.
  induction labels as [|l labels IH]; intros st HW HH; cbn [map fold_left].
  { split; [done|]. exists []. rewrite app_nil_r. by split. }
  cbn [item_step].
  destruct (IH (place_key st) eq_refl eq_refl)
    as ((HY & HW' & HH' & HR) & new & Hkeys & Hlen & Hnew).
  cbv zeta in *. split.
  { repeat split; try done; by destruct HR as (? & ? & ?). }
  rewrite Hkeys. cbn [place_key layout_Keys append elems].
  rewrite <- app_assoc. eexists. split; [reflexivity|].
  split; [cbn [length app]; by rewrite Hlen|].
  intros [|j] k; cbn [app lookup list_lookup].
  - intros [= <-]. unfold geometry. cbn. by rewrite HW, HH.
  - intros Hk. rewrite (Hnew j k Hk). cbn [place_key currentX currentY
      currentR currentRX currentRY]. rewrite HW.
    by rewrite Nat.iter_succ_r.
Qed.

Lemma legends_rows rows : ∀ st,
  currentW st = 1%float → currentH st = 1%float →
  ∃ new, elems (layout_Keys (fold_left row_step (legends_only rows) st))
         = elems (layout_Keys st) ++ new
         ∧ ∀ i j row, rows !! i = Some row → j < length row →
             ∃ k, new !! (length (concat (take i rows)) + j) = Some k
                  ∧ geometry k
                    = (Nat.iter j next (currentRX st),
                       (Nat.iter (S i) next (currentY st) - 1)%float,
                       1%float, 1%float,
                       currentR st, currentRX st, currentRY st).
Proof.
  unfold legends_only.
  induction rows as [|row0 rows IH]; intros st HW HH; cbn [map fold_left].
  { exists []. rewrite app_nil_r. split; [done|]. by intros i j row. }
  cbn [row_step]. cbv zeta.
  set (st0 := set_Y (set_X st (currentRX st))
                (currentY (set_X st (currentRX st)) + 1)).
  destruct (legends_row row0 st0 HW HH)
    as ((HY & HW' & HH' & HR) & new0 & Hkeys0 & Hlen0 & Hnew0).
  cbv zeta in *.
  destruct (IH (items_loop st0 (map String_ row0)) HW' HH')
    as (new & Hkeys & Hnew).
  rewrite Hkeys, Hkeys0. exists (new0 ++ new).
  split; [by rewrite <- app_assoc|].
  destruct HR as (HR & HRX & HRY).
  intros [|i] j row; cbn [lookup list_lookup take concat length Nat.add].
  - intros [= <-] Hj.
    destruct (lookup_lt_is_Some_2 new0 j) as [k Hk]; [lia|].
    exists k. split; [by apply lookup_app_l_Some|].
    by rewrite (Hnew0 j k Hk).
  - intros Hrow Hj. destruct (Hnew i j row Hrow Hj) as (k & Hk & Hgeo).
    exists k. split.
    + rewrite length_app, <- Hlen0, <- Nat.add_assoc.
      by rewrite lookup_app_r, Nat.add_comm, Nat.add_sub
        by lia.
    + rewrite Hgeo, HY, HR, HRX, HRY. cbn [st0 set_X set_Y currentX currentY
        currentR currentRX currentRY].
      by rewrite (Nat.iter_succ_r (S i)).
Qed.

(** X10. A description without modifiers is laid out as a grid of unit keys:
    whatever the legends are, the key of column [j] in row [i] lies [j]
    steps of 1 from X = 0 and, after [i + 1] steps of 1 from Y = 0, one
    below, it is 1 by 1 and not rotated; and it stands in the layout after
    all the keys of the rows before it and the [j] keys before it in its
    row, with that position as its index. *)
Theorem legends_only_grid (rows : list (list gostring)) (name : gostring) :
  ∃ layout,
    ParseKLELayout (Text (Array (legends_only rows))) name = (Some layout, None)
    ∧ ∀ i j row, rows !! i = Some row → j < length row →
        let position := length (concat (take i rows)) + j in
        elems (Layout_Keys layout) !! position
        = Some (unit_key i j (wrap_int (Z.of_nat position))).
Proof.
  unfold ParseKLELayout, Unmarshal, rows_loop. cbn [elems].
  eexists. split; [reflexivity|]. cbn [Layout_Keys].
  intros i j row Hrow Hj. cbv zeta.
  set (position := length (concat (take i rows)) + j).
  destruct (legends_rows rows initial_state eq_refl eq_refl)
    as (new & Hkeys & Hnew).
  destruct (Hnew i j row Hrow Hj) as (k & Hk & Hgeo).
  cbn [initial_state layout_Keys elems app] in Hkeys. rewrite Hkeys.
  fold position in Hk. rewrite Hk. f_equal.
  pose proof (rows_loop_indexed (Slice (legends_only rows)) initial_state
                initial_state_indexed) as [_ Hindex].
  unfold rows_loop in Hindex. cbn [elems] in Hindex.
  rewrite Hkeys in Hindex. specialize (Hindex position k Hk).
  destruct k. unfold geometry, unit_key in *. cbn in Hgeo, Hindex.
  by injection Hgeo as -> -> -> -> -> -> ->; subst.
Qed.

Lemma legends_only_grid_witness :
  ∃ layout,
    ParseKLELayout
      (Text (Array (legends_only [[go "Q"; go "W"]; [go "A"; go "S"; go "D"]])))
      (go "grid")
    = (Some layout, None)
    ∧ elems (Layout_Keys layout) !! 4
      = Some {| Key_X := 2; Key_Y := 1; Key_W := 1; Key_H := 1;
                Key_R := 0; Key_RX := 0; Key_RY := 0; Key_Index := 4 |}.
Proof.
  destruct (legends_only_grid [[go "Q"; go "W"]; [go "A"; go "S"; go "D"]]
              (go "grid")) as (layout & Hparse & Hkeys).
  exists layout. split; [exact Hparse|].
  apply (Hkeys 1 2 [go "A"; go "S"; go "D"]); [reflexivity|cbn; lia].
Defined.

(* ===================================================================== *)
(** * Properties of [handlers.go] *)
(* ===================================================================== *)

(** ** The update of a custom key name *)

Lemma to_int_not_nil (z : Z) :
  Z.to_int z ≠ Decimal.Pos Decimal.Nil ∧ Z.to_int z ≠ Decimal.Neg Decimal.Nil.
Proof.
  destruct z as [|p|p]; cbn; split; try discriminate;
    intros [= H]; by apply Unsigned.to_uint_nonnil in H.
Qed.

Lemma Itoa_inj (a b : Z) : Itoa a = Itoa b → a = b.
Proof.
  unfold Itoa, go. intros H.
  apply (f_equal string_of_list_ascii) in H.
  rewrite !string_of_list_ascii_of_string in H.
  apply (f_equal NilZero.int_of_string) in H.
  destruct (to_int_not_nil a), (to_int_not_nil b).
  rewrite !NilZero.isi in H by done.
  injection H as H. by apply DecimalZ.to_int_inj.
Qed.

Lemma update_in_range (keymap : Keymap) (u : update) :
  (0 ≤ update_LayerIndex u < Z.of_nat (len (Keymap_Layers keymap)))%Z →
  ∃ layer,
    elems (Keymap_Layers keymap) !! Z.to_nat (update_LayerIndex u) = Some layer
    ∧ update_custom_name keymap u
      = Some (Updated
                {| Keymap_Name := Keymap_Name keymap;
                   Keymap_Layers :=
                     Slice (<[Z.to_nat (update_LayerIndex u) :=
                               with_CustomNames layer
                                 (Some
                                    (if string_eqb (update_CustomName u) []
                                     then delete (Itoa (update_KeyIndex u))
                                            (default ∅ (Layer_CustomNames layer))
                                     else <[Itoa (update_KeyIndex u) :=
                                              update_CustomName u]>
                                            (default ∅ (Layer_CustomNames layer))))]>
                              (elems (Keymap_Layers keymap)));
                   Keymap_Layout := Keymap_Layout keymap |}).
Proof.
  intros Hi. unfold update_custom_name. cbv zeta.
  destruct (Z.ltb_spec (update_LayerIndex u) 0); [lia|].
  destruct (Z.leb_spec (Z.of_nat (len (Keymap_Layers keymap)))
              (update_LayerIndex u)); [lia|].
  cbn [orb].
  destruct (lookup_lt_is_Some_2 (elems (Keymap_Layers keymap))
              (Z.to_nat (update_LayerIndex u))) as [layer Hlayer].
  { unfold len in *. lia. }
  exists layer. split; [done|]. rewrite Hlayer. step_bind.
  by destruct (Layer_CustomNames layer).
Qed.

(** X13. An update with a layer index in range changes one custom name and
    nothing else.  The keymap that is saved has the name, the layout and,
    layer by layer, the names and keys of the one that was read.  Its
    custom names are those that were read, except for the key of the
    update on the layer of the update: that key has the custom name of the
    update, or none when the name of the update is empty.  Key indices are
    not checked against the keys of the layer: any integer is taken. *)
Theorem update_changes_one_custom_name (keymap : Keymap) (u : update) :
  (0 ≤ update_LayerIndex u < Z.of_nat (len (Keymap_Layers keymap)))%Z →
  ∃ keymap',
    update_custom_name keymap u = Some (Updated keymap')
    ∧ without_custom_names keymap' = without_custom_names keymap
    ∧ ∀ layer key,
        custom_name keymap' layer key
        = if bool_decide (layer = update_LayerIndex u
                          ∧ key = update_KeyIndex u)
          then (if string_eqb (update_CustomName u) [] then None
                else Some (update_CustomName u))
          else custom_name keymap layer key.
Proof.
  intros Hi. destruct (update_in_range keymap u Hi) as (l & Hl & ->).
  eexists. split; [reflexivity|]. split.
  - unfold without_custom_names. cbn [Keymap_Name Keymap_Layout Keymap_Layers
      elems]. f_equal.
    rewrite list_fmap_insert. cbn [with_CustomNames Layer_Name Layer_Keys].
    apply list_insert_id. by rewrite list_lookup_fmap, Hl.
  - intros layer key. unfold custom_name. cbn [Keymap_Layers elems].
    destruct (Z.ltb_spec layer 0) as [Hneg|Hpos].
    { rewrite bool_decide_eq_false_2; [done|]. intros [-> _]. lia. }
    destruct (decide (layer = update_LayerIndex u)) as [->|Hother].
    + rewrite list_lookup_insert_eq by (by eapply lookup_lt_Some).
      rewrite Hl. cbn [mbind option_bind with_CustomNames Layer_CustomNames].
      destruct (decide (key = update_KeyIndex u)) as [->|Hkey].
      * rewrite bool_decide_eq_true_2 by done.
        destruct (string_eqb (update_CustomName u) []).
        -- apply lookup_delete_eq.
        -- apply lookup_insert_eq.
      * rewrite bool_decide_eq_false_2 by (by intros [_ ?]).
        assert (Hne : Itoa (update_KeyIndex u) ≠ Itoa key)
          by (by intros ?%Itoa_inj).
        destruct (string_eqb (update_CustomName u) []).
        -- rewrite lookup_delete_ne by done.
           by destruct (Layer_CustomNames l).
        -- rewrite lookup_insert_ne by done.
           by destruct (Layer_CustomNames l).
    + rewrite bool_decide_eq_false_2 by (by intros [? _]).
      rewrite list_lookup_insert_ne by lia. done.
Qed.

Lemma update_changes_one_custom_name_witness :
  let keymap :=
    {| Keymap_Name := go "corne";
       Keymap_Layers :=
         Slice [ {| Layer_Name := go "Default";
                    Layer_Keys := Slice [go "Q"; go "W"];
                    Layer_CustomNames := Some ∅ |};
                 {| Layer_Name := go "Lower";
                    Layer_Keys := Slice [go "1"; go "2"];
                    Layer_CustomNames := None |} ];
       Keymap_Layout := None |} in
  let u := {| update_LayerIndex := 1; update_KeyIndex := 12;
              update_CustomName := go "Copy" |} in
  ∃ keymap',
    update_custom_name keymap u = Some (Updated keymap')
    ∧ without_custom_names keymap' = without_custom_names keymap
    ∧ ∀ layer key,
        custom_name keymap' layer key
        = if bool_decide (layer = update_LayerIndex u
                          ∧ key = update_KeyIndex u)
          then (if string_eqb (update_CustomName u) [] then None
                else Some (update_CustomName u))
          else custom_name keymap layer key.
Proof.
  intros keymap u. apply (update_changes_one_custom_name keymap u).
  cbn. lia.
Defined.

(** X14. The update never stores an empty custom name: when no layer of
    the keymap that is read has one, no layer of the keymap that is saved
    has one; an empty name in the request removes the entry instead. *)
Theorem update_stores_no_empty_name (keymap keymap' : Keymap) (u : update) :
  no_empty_names keymap →
  update_custom_name keymap u = Some (Updated keymap') →
  no_empty_names keymap'.
Proof.
  intros Hinv Hupdate.
  destruct (decide (0 ≤ update_LayerIndex u
                    < Z.of_nat (len (Keymap_Layers keymap)))%Z) as [Hi|Hi];
    cycle 1.
  { exfalso. revert Hupdate. unfold update_custom_name. cbv zeta.
    destruct (Z.ltb_spec (update_LayerIndex u) 0); [done|].
    destruct (Z.leb_spec (Z.of_nat (len (Keymap_Layers keymap)))
                (update_LayerIndex u)); [done|lia]. }
  destruct (update_in_range keymap u Hi) as (layer & Hlayer & Heq).
  rewrite Heq in Hupdate. injection Hupdate as <-.
  intros l m k Hl Hm. cbn [Keymap_Layers elems] in Hl.
  apply list_elem_of_lookup in Hl as [j Hj].
  destruct (decide (j = Z.to_nat (update_LayerIndex u))) as [->|Hother].
  - rewrite list_lookup_insert_eq in Hj by (by eapply lookup_lt_Some).
    injection Hj as <-. cbn [with_CustomNames Layer_CustomNames] in Hm.
    injection Hm as <-.
    assert (Hold : default ∅ (Layer_CustomNames layer) !! k ≠ Some []).
    { destruct (Layer_CustomNames layer) as [m0|] eqn:Hm0; cbn [default].
      - eapply Hinv; [|exact Hm0]. by eapply list_elem_of_lookup_2.
      - by rewrite lookup_empty. }
    destruct (string_eqb (update_CustomName u) []) eqn:Hname.
    + destruct (decide (Itoa (update_KeyIndex u) = k)) as [<-|Hk].
      * by rewrite lookup_delete_eq.
      * by rewrite lookup_delete_ne.
    + destruct (decide (Itoa (update_KeyIndex u) = k)) as [<-|Hk].
      * rewrite lookup_insert_eq. intros [= Hempty].
        rewrite Hempty in Hname. by cbn in Hname.
      * by rewrite lookup_insert_ne.
  - rewrite list_lookup_insert_ne in Hj by done.
    eapply Hinv; [|exact Hm]. by eapply list_elem_of_lookup_2.
Qed.

Lemma update_stores_no_empty_name_witness :
  let keymap' :=
    {| Keymap_Name := go "corne";
       Keymap_Layers :=
         Slice [ {| Layer_Name := go "Default";
                    Layer_Keys := Slice [go "Q"; go "W"];
                    Layer_CustomNames := Some (<[go "1" := go "Save"]> ∅) |} ];
       Keymap_Layout := None |} in
  no_empty_names keymap'.
Proof.
  intros keymap'.
  apply (update_stores_no_empty_name
           {| Keymap_Name := go "corne";
              Keymap_Layers :=
                Slice [ {| Layer_Name := go "Default";
                           Layer_Keys := Slice [go "Q"; go "W"];
                           Layer_CustomNames := Some ∅ |} ];
              Keymap_Layout := None |}
           keymap'
           {| update_LayerIndex := 0; update_KeyIndex := 1;
              update_CustomName := go "Save" |}).
  - intros l m k Hl Hm. cbn in Hl.
    apply list_elem_of_singleton in Hl as ->. injection Hm as <-.
    by rewrite lookup_empty.
  - reflexivity.
Defined.

(** X15. Setting a custom name and then clearing it restores the keymap:
    for a key without custom name, on a layer whose map of custom names is
    not [nil], the update with a name followed by the update with the empty
    name gives back the keymap that was read, in every field. *)
Theorem set_then_clear_restores (keymap : Keymap) (u : update) (layer : Layer)
    (m : gmap gostring gostring) :
  (0 ≤ update_LayerIndex u)%Z →
  elems (Keymap_Layers keymap) !! Z.to_nat (update_LayerIndex u) = Some layer →
  Layer_CustomNames layer = Some m →
  m !! Itoa (update_KeyIndex u) = None →
  update_CustomName u ≠ [] →
  ∃ keymap',
    update_custom_name keymap u = Some (Updated keymap')
    ∧ update_custom_name keymap'
        {| update_LayerIndex := update_LayerIndex u;
           update_KeyIndex := update_KeyIndex u;
           update_CustomName := [] |}
      = Some (Updated keymap).
Proof.
  intros Hpos Hlayer Hm Hfree Hname.
  assert (Hlt : Z.to_nat (update_LayerIndex u)
                < length (elems (Keymap_Layers keymap)))
    by (by eapply lookup_lt_Some).
  destruct (update_in_range keymap u) as (l & Hl & ->);
    [unfold len; lia|].
  rewrite Hlayer in Hl. injection Hl as <-.
  eexists. split; [reflexivity|].
  match goal with |- update_custom_name ?k ?v = _ =>
    destruct (update_in_range k v) as (l' & Hl' & ->) end.
  { unfold len. cbn [update_LayerIndex Keymap_Layers elems].
    rewrite length_insert. lia. }
  cbn [update_LayerIndex update_KeyIndex update_CustomName Keymap_Layers
       Keymap_Name Keymap_Layout elems] in *.
  rewrite list_lookup_insert_eq in Hl' by done. injection Hl' as <-.
  rewrite list_insert_insert_eq.
  cbn [with_CustomNames Layer_CustomNames Layer_Name Layer_Keys default
       string_eqb].
  rewrite Hm. cbn [default].
  destruct (string_eqb (update_CustomName u) []) eqn:Hempty.
  { apply string_eqb_eq in Hempty. done. }
  unfold with_CustomNames, id. cbn [Layer_Name Layer_Keys Layer_CustomNames].
  change (string_eqb [] []) with true. cbv iota.
  rewrite delete_insert_eq, delete_id by done.
  replace {| Layer_Name := Layer_Name layer; Layer_Keys := Layer_Keys layer;
             Layer_CustomNames := Some m |} with layer
    by (destruct layer; cbn in *; by subst).
  rewrite list_insert_id by done.
  destruct keymap as [name layers layout]. cbn in *.
  destruct layers as [|ls]; [by destruct (Z.to_nat _)|done].
Qed.

Lemma set_then_clear_restores_witness :
  let keymap :=
    {| Keymap_Name := go "corne";
       Keymap_Layers :=
         Slice [ {| Layer_Name := go "Default";
                    Layer_Keys := Slice [go "Q"; go "W"];
                    Layer_CustomNames := Some ∅ |} ];
       Keymap_Layout := None |} in
  let u := {| update_LayerIndex := 0; update_KeyIndex := 1;
              update_CustomName := go "Save" |} in
  ∃ keymap',
    update_custom_name keymap u = Some (Updated keymap')
    ∧ update_custom_name keymap'
        {| update_LayerIndex := 0; update_KeyIndex := 1;
           update_CustomName := [] |}
      = Some (Updated keymap).
Proof.
  intros keymap u.
  apply (set_then_clear_restores keymap u
           {| Layer_Name := go "Default";
              Layer_Keys := Slice [go "Q"; go "W"];
              Layer_CustomNames := Some ∅ |} ∅).
  - cbn. lia.
  - reflexivity.
  - reflexivity.
  - apply lookup_empty.
  - discriminate.
Defined.

(** ** The names of the stored keymaps and layouts *)

Lemma HasSuffix_app s p : HasSuffix s p = true ↔ ∃ t, s = t ++ p.
Proof.
  unfold HasSuffix. split.
  - intros [Hlen Heq]%andb_prop. apply string_eqb_eq in Heq.
    exists (take (length s - length p) s).
    rewrite <- Heq at 2. by rewrite take_drop.
  - intros [t ->]. rewrite length_app. apply andb_true_intro. split.
    + apply Nat.leb_le. lia.
    + replace (length t + length p - length p) with (length t) by lia.
      rewrite drop_app_length. by apply string_eqb_eq.
Qed.

Lemma TrimSuffix_app t p : TrimSuffix (t ++ p) p = t.
Proof.
  unfold TrimSuffix.
  rewrite (proj2 (HasSuffix_app (t ++ p) p)) by eauto.
  rewrite length_app.
  replace (length t + length p - length p) with (length t) by lia.
  apply take_app_length.
Qed.

Lemma names_loop entries : ∀ names,
  elems (fold_left names_step entries names)
  = elems names
    ++ map (λ e, TrimSuffix (entry_Name e) (go ".json"))
         (filter (λ e, is_stored e = true) entries)
  ∧ is_nil (fold_left names_step entries names)
    = is_nil names && forallb (λ e, negb (is_stored e)) entries.
Proof.
  induction entries as [|e entries IH]; intros names; cbn [fold_left].
  { rewrite filter_nil, app_nil_r, andb_true_r. done. }
  destruct (IH (names_step names e)) as [-> ->].
  unfold names_step. fold (is_stored e). cbn [forallb].
  destruct (is_stored e) eqn:He.
  - rewrite filter_cons_True by done. cbn [map append elems is_nil negb].
    rewrite <- app_assoc, andb_false_r. done.
  - rewrite filter_cons_False by (by rewrite He). done.
Qed.

(** X16. The list of stored keymaps (and of stored layouts) holds exactly
    the names under which a file is stored: a name is listed when, and only
    when, the directory has an entry that is no directory and is called
    that name followed by [.json].  And the list is [nil], not an empty
    list, when the directory has no such entry. *)
Theorem stored_names_are_the_files (entries : list DirEntry) :
  (∀ name, name ∈ elems (stored_names entries)
           ↔ ∃ e, e ∈ entries ∧ entry_IsDir e = false
                  ∧ entry_Name e = name ++ go ".json")
  ∧ (is_nil (stored_names entries) = true
     ↔ ∀ e, e ∈ entries → is_stored e = false).
Proof.
  unfold stored_names. destruct (names_loop entries NilSlice) as [-> ->].
  cbn [elems app is_nil andb]. split.
  - intros name. rewrite list_elem_of_fmap. split.
    + intros (e & -> & [He Hin]%list_elem_of_filter).
      exists e. unfold is_stored in He.
      apply andb_prop in He as [Hdir Hsuffix].
      apply HasSuffix_app in Hsuffix as [t Ht].
      rewrite Ht, TrimSuffix_app. by destruct (entry_IsDir e).
    + intros (e & Hin & Hdir & Hname). exists e.
      rewrite Hname, TrimSuffix_app. split; [done|].
      apply list_elem_of_filter. split; [|done].
      unfold is_stored. rewrite Hdir, Hname. cbn [negb andb].
      apply HasSuffix_app. eauto.
  - rewrite forallb_forall. split.
    + intros Hall e He%list_elem_of_In. apply Hall in He.
      by destruct (is_stored e).
    + intros Hall e He%list_elem_of_In. by rewrite (Hall e He).
Qed.

Lemma stored_names_are_the_files_witness :
  go "corne" ∈ elems (stored_names
                         [ {| entry_Name := go "old"; entry_IsDir := true |};
                           {| entry_Name := go "corne.json";
                              entry_IsDir := false |};
                           {| entry_Name := go "notes.txt";
                              entry_IsDir := false |} ]).
Proof.
  apply stored_names_are_the_files.
  exists {| entry_Name := go "corne.json"; entry_IsDir := false |}.
  split; [|split; reflexivity].
  apply elem_of_cons. right. apply elem_of_cons. by left.
Defined.
